(** * MemStorage: vote ledger, score counters and feed ranking

    A shallow embedding of [server/storage.ts] (class [MemStorage]) and of
    the vote routes of [server/auth.ts], with the properties of the vote
    ledger, the cached counters and the meme feed ranking.

    Conventions of the embedding.
    - A JavaScript number that holds an integer (ids, counters, the time
      value of a [Date] in milliseconds, [limit], [offset]) is a [Z].
    - The source computes the scores of the feed comparators in IEEE
      doubles.  [MemStorage] has the comparators in exact arithmetic
      ([Q]), [Binary64] has them in binary64, as JavaScript computes
      them.  The two feeds are equal on every store where the exact and
      the double comparator have the same signs on the stored memes,
      which is a computation ([Binary64.sameSigns],
      [Binary64Facts.getMemes_exact]).  They differ on ties: two memes
      whose exact hot scores coincide although their counters and times
      differ (k votes and exactly k * 1000 seconds apart) may be told
      apart by a rounding residue ([Binary64.straddle]).  The order by
      score is stated on the exact comparators; what depends on which
      memes tie is stated on [Binary64].
    - The entity maps ([memes], [comments], [resources], [users]) are
      JavaScript [Map]s that the code iterates, so they are kept as
      insertion-ordered association lists ([OMap]).  The ledger
      [userVotes] is only ever accessed by key ([get], [set], [delete]),
      so it is a [gmap string Direction].
    - An [async] method of the storage runs to completion without a
      suspension point of its own; it is a function
      [Store -> Result * Store], where the second component is the store
      left behind, also when it throws.  A route handler that awaits
      nothing but storage methods is one step as well.  The register
      handler awaits [bcrypt.hash] between its look-ups and the creation,
      so it is two steps, and other requests may be served in between. *)

From Stdlib Require Import ZArith QArith List Sorted Permutation Lia Ascii.
From Stdlib Require Floats.
From stdpp Require Import gmap strings pretty list fin_maps.

Local Open Scope Z_scope.

(** ** Vote keys: the template literals [`kind:${id}:user:${userId}`] *)

Module VoteKey.

Inductive SubjectKind := KMeme | KComment | KResource.

Global Instance SubjectKind_eq_dec : EqDecision SubjectKind.
Proof. solve_decision. Defined.

Definition kindName (k : SubjectKind) : string :=
  match k with
  | KMeme => "meme"
  | KComment => "comment"
  | KResource => "resource"
  end.

(** [`${k}:${id}:user:${userId}`]; an integer prints in decimal (the
    ids of stored subjects and users count up from 1, far below the
    1e21 from which JavaScript prints an exponent). *)
Definition voteKey (k : SubjectKind) (id userId : Z) : string :=
  kindName k +:+ ":" +:+ pretty id +:+ ":user:" +:+ pretty userId.

(** What every key of one subject starts with. *)
Definition subjectPrefix (k : SubjectKind) (id : Z) : string :=
  kindName k +:+ ":" +:+ pretty id +:+ ":user:".

Fixpoint no_colon (s : string) : bool :=
  match s with
  | EmptyString => true
  | String c s' => negb (Ascii.eqb c ":"%char) && no_colon s'
  end.

End VoteKey.

(** ** JavaScript [Map] with integer keys, in insertion order *)

Module OMap.
Section OMap.
Context {V : Type}.

Definition t := list (Z * V).

Definition empty : t := [].

(** [m.get(k)]; [None] is [undefined]. *)
Fixpoint get (k : Z) (m : t) : option V :=
  match m with
  | [] => None
  | (k', v) :: m' => if decide (k = k') then Some v else get k m'
  end.

(** [m.set(k, v)]: a known key keeps its place, a new key goes last. *)
Fixpoint set (k : Z) (v : V) (m : t) : t :=
  match m with
  | [] => [(k, v)]
  | (k', v') :: m' =>
      if decide (k = k') then (k, v) :: m' else (k', v') :: set k v m'
  end.

(** [Array.from(m.values())] *)
Definition values (m : t) : list V := map snd m.
End OMap.
Global Arguments t : clear implicits.
End OMap.

(** ** The schema types (shared/schema) *)

Module User.
Record t := mk {
  id : Z;
  email : string;
  username : string;
  password : option string;
  displayName : option string;
  avatar : option string;
  provider : option string;
  providerId : option string;
  refreshToken : option string;
  level : option Z;
  xp : option Z;
  createdAt : option Z;
  updatedAt : option Z
}.
End User.

Module InsertUser.
Record t := mk {
  email : string;
  username : string;
  password : option string;
  displayName : option string;
  avatar : option string;
  provider : option string;
  providerId : option string;
  refreshToken : option string
}.
End InsertUser.

Module Meme.
Record t := mk {
  id : Z;
  authorId : option Z;
  imageUrl : string;
  caption : option string;
  upvotes : Z;
  downvotes : Z;
  createdAt : Z   (* the time value of the Date, in milliseconds *)
}.

Definition with_upvotes (n : Z) (m : t) : t :=
  mk (id m) (authorId m) (imageUrl m) (caption m) n (downvotes m) (createdAt m).
Definition with_downvotes (n : Z) (m : t) : t :=
  mk (id m) (authorId m) (imageUrl m) (caption m) (upvotes m) n (createdAt m).
End Meme.

Module InsertMeme.
Record t := mk {
  authorId : option Z;
  imageUrl : string;
  caption : option string
}.
End InsertMeme.

Module Comment.
Record t := mk {
  id : Z;
  memeId : option Z;
  authorId : option Z;
  body : string;
  parentId : option Z;
  upvotes : Z;
  createdAt : Z
}.

Definition with_upvotes (n : Z) (c : t) : t :=
  mk (id c) (memeId c) (authorId c) (body c) (parentId c) n (createdAt c).
End Comment.

Module InsertComment.
Record t := mk {
  memeId : option Z;
  authorId : option Z;
  body : string;
  parentId : option Z
}.
End InsertComment.

Module Resource.
Record t := mk {
  id : Z;
  title : string;
  category : option string;
  markdown : option string;
  downloadUrl : option string;
  votes : Z;
  createdBy : option Z;
  createdAt : Z
}.

Definition with_votes (n : Z) (r : t) : t :=
  mk (id r) (title r) (category r) (markdown r) (downloadUrl r) n
     (createdBy r) (createdAt r).
End Resource.

Module InsertResource.
Record t := mk {
  title : string;
  category : option string;
  markdown : option string;
  downloadUrl : option string;
  createdBy : option Z
}.
End InsertResource.

(** ['up' | 'down'] *)
Inductive Direction := Up | Down.

Global Instance Direction_eq_dec : EqDecision Direction.
Proof. solve_decision. Defined.

(** [throw new Error(message)] *)
Inductive Error := MkError (message : string).

Definition Result (A : Type) : Type := Error + A.

(** ** class MemStorage *)

Module MemStorage.
Import VoteKey.

(** The fields of the class.  [gameSessions] and
    [newsletterSubscribers] are left out: no vote or feed method reads
    or writes them. *)
Record Store := mkStore {
  users : OMap.t User.t;
  memes : OMap.t Meme.t;
  comments : OMap.t Comment.t;
  resources : OMap.t Resource.t;
  userVotes : gmap string Direction;
  userId : Z;
  memeId : Z;
  commentId : Z;
  resourceId : Z
}.

Definition with_users v (s : Store) : Store :=
  mkStore v (memes s) (comments s) (resources s) (userVotes s)
          (userId s) (memeId s) (commentId s) (resourceId s).
Definition with_memes v (s : Store) : Store :=
  mkStore (users s) v (comments s) (resources s) (userVotes s)
          (userId s) (memeId s) (commentId s) (resourceId s).
Definition with_comments v (s : Store) : Store :=
  mkStore (users s) (memes s) v (resources s) (userVotes s)
          (userId s) (memeId s) (commentId s) (resourceId s).
Definition with_resources v (s : Store) : Store :=
  mkStore (users s) (memes s) (comments s) v (userVotes s)
          (userId s) (memeId s) (commentId s) (resourceId s).
Definition with_userVotes v (s : Store) : Store :=
  mkStore (users s) (memes s) (comments s) (resources s) v
          (userId s) (memeId s) (commentId s) (resourceId s).
Definition with_userId v (s : Store) : Store :=
  mkStore (users s) (memes s) (comments s) (resources s) (userVotes s)
          v (memeId s) (commentId s) (resourceId s).
Definition with_memeId v (s : Store) : Store :=
  mkStore (users s) (memes s) (comments s) (resources s) (userVotes s)
          (userId s) v (commentId s) (resourceId s).
Definition with_commentId v (s : Store) : Store :=
  mkStore (users s) (memes s) (comments s) (resources s) (userVotes s)
          (userId s) (memeId s) v (resourceId s).
Definition with_resourceId v (s : Store) : Store :=
  mkStore (users s) (memes s) (comments s) (resources s) (userVotes s)
          (userId s) (memeId s) (commentId s) v.

Definition nl : string := String "010"%char EmptyString.

(** The three resources of [seedResources]. *)
Definition seeds : list InsertResource.t :=
  [ InsertResource.mk "Bulletproof Contract Template" (Some "contracts")
      (Some ("# Bulletproof Contract Template" +:+ nl +:+ nl +:+
             "This contract is designed to protect freelancers from scope creep, payment issues, and intellectual property disputes."))
      (Some "/downloads/bulletproof-contract.pdf") None;
    InsertResource.mk "Real Price Calculator" (Some "pricing")
      (Some ("# Real Price Calculator" +:+ nl +:+ nl +:+
             "Calculate what you should actually charge based on your experience, market rates, and client difficulty."))
      (Some "/downloads/price-calculator.xlsx") None;
    InsertResource.mk "Email Response Templates" (Some "communication")
      (Some ("# Email Response Templates" +:+ nl +:+ nl +:+
             "Professional templates for handling difficult clients, late payments, and scope creep."))
      (Some "/downloads/email-templates.docx") None ].

(** [{ ...resource, id, votes: 0, createdAt: now }] *)
Definition newResource (ins : InsertResource.t) (id now : Z) : Resource.t :=
  Resource.mk id (InsertResource.title ins) (InsertResource.category ins)
    (InsertResource.markdown ins) (InsertResource.downloadUrl ins) 0
    (InsertResource.createdBy ins) now.

(** [seedResources]: one [forEach] step is [this.resourceId++] and a
    [set]; [now] is the clock reading of [new Date()]. *)
Definition seedResources (now : Z) (s : Store) : Store :=
  fold_left
    (fun s resource =>
       let id := resourceId s in
       with_resources (OMap.set id (newResource resource id now) (resources s))
         (with_resourceId (id + 1) s))
    seeds s.

(** The constructor. *)
Definition new (now : Z) : Store :=
  seedResources now (mkStore OMap.empty OMap.empty OMap.empty OMap.empty ∅ 1 1 1 1).

(** *** Users *)

Definition getUser (id : Z) (s : Store) : option User.t :=
  OMap.get id (users s).

(** [x || dflt] on a nullable string: the empty string is falsy too. *)
Definition or_else (x : option string) (dflt : option string) : option string :=
  match x with
  | Some v => if decide (v = EmptyString) then dflt else Some v
  | None => dflt
  end.

Definition createUser (insertUser : InsertUser.t) (now : Z) (s : Store)
  : User.t * Store :=
  let id := userId s in
  let user :=
    User.mk id (InsertUser.email insertUser) (InsertUser.username insertUser)
      (or_else (InsertUser.password insertUser) None)
      (or_else (InsertUser.displayName insertUser) None)
      (or_else (InsertUser.avatar insertUser) None)
      (or_else (InsertUser.provider insertUser) (Some "local"))
      (or_else (InsertUser.providerId insertUser) None)
      (or_else (InsertUser.refreshToken insertUser) None)
      (Some 1) (Some 0) (Some now) (Some now) in
  (user, with_users (OMap.set id user (users s)) (with_userId (id + 1) s)).

(** *** Memes *)

Definition createMeme (insertMeme : InsertMeme.t) (now : Z) (s : Store)
  : Meme.t * Store :=
  let id := memeId s in
  let meme :=
    Meme.mk id (InsertMeme.authorId insertMeme) (InsertMeme.imageUrl insertMeme)
      (InsertMeme.caption insertMeme) 0 0 now in
  (meme, with_memes (OMap.set id meme (memes s)) (with_memeId (id + 1) s)).

Definition voteMeme (id userId : Z) (vote : Direction) (s : Store)
  : Result Meme.t * Store :=
  match OMap.get id (memes s) with
  | None => (inl (MkError "Meme not found"), s)
  | Some meme =>
      let voteKey := voteKey KMeme id userId in
      let existingVote := userVotes s !! voteKey in
      (* Remove existing vote *)
      let meme :=
        if decide (existingVote = Some Up)
        then Meme.with_upvotes (Meme.upvotes meme - 1) meme else meme in
      let meme :=
        if decide (existingVote = Some Down)
        then Meme.with_downvotes (Meme.downvotes meme - 1) meme else meme in
      (* Apply new vote if it's different *)
      let '(meme, votes) :=
        if decide (existingVote ≠ Some vote) then
          let meme :=
            if decide (vote = Up)
            then Meme.with_upvotes (Meme.upvotes meme + 1) meme else meme in
          let meme :=
            if decide (vote = Down)
            then Meme.with_downvotes (Meme.downvotes meme + 1) meme else meme in
          (meme, <[voteKey := vote]> (userVotes s))
        else
          (* If same vote, remove it (toggle) *)
          (meme, delete voteKey (userVotes s)) in
      (inr meme, with_memes (OMap.set id meme (memes s)) (with_userVotes votes s))
  end.

(** *** Comments *)

Definition createComment (insertComment : InsertComment.t) (now : Z) (s : Store)
  : Comment.t * Store :=
  let id := commentId s in
  let comment :=
    Comment.mk id (InsertComment.memeId insertComment)
      (InsertComment.authorId insertComment) (InsertComment.body insertComment)
      (InsertComment.parentId insertComment) 0 now in
  (comment,
   with_comments (OMap.set id comment (comments s)) (with_commentId (id + 1) s)).

(** The parameter [vote] has the TypeScript type ['up']; the compiled
    method takes whatever string reaches it, so the model takes a
    [Direction] and the callers pass [Up]. *)
Definition voteComment (id userId : Z) (vote : Direction) (s : Store)
  : Result Comment.t * Store :=
  match OMap.get id (comments s) with
  | None => (inl (MkError "Comment not found"), s)
  | Some comment =>
      let voteKey := voteKey KComment id userId in
      let existingVote := userVotes s !! voteKey in
      (* Toggle vote *)
      let '(comment, votes) :=
        if decide (existingVote = Some vote) then
          (Comment.with_upvotes (Comment.upvotes comment - 1) comment,
           delete voteKey (userVotes s))
        else
          (Comment.with_upvotes (Comment.upvotes comment + 1) comment,
           <[voteKey := vote]> (userVotes s)) in
      (inr comment,
       with_comments (OMap.set id comment (comments s)) (with_userVotes votes s))
  end.

(** *** Resources *)

Definition createResource (insertResource : InsertResource.t) (now : Z) (s : Store)
  : Resource.t * Store :=
  let id := resourceId s in
  let resource := newResource insertResource id now in
  (resource,
   with_resources (OMap.set id resource (resources s)) (with_resourceId (id + 1) s)).

Definition voteResource (id userId : Z) (vote : Direction) (s : Store)
  : Result Resource.t * Store :=
  match OMap.get id (resources s) with
  | None => (inl (MkError "Resource not found"), s)
  | Some resource =>
      let voteKey := voteKey KResource id userId in
      let existingVote := userVotes s !! voteKey in
      let add n := Resource.with_votes (Resource.votes resource + n) resource in
      (* Toggle vote *)
      let '(resource, votes) :=
        if decide (existingVote = Some vote) then
          (add (if decide (vote = Up) then -1 else 1),
           delete voteKey (userVotes s))
        else if decide (is_Some existingVote) then
          (* Change vote *)
          (add (if decide (vote = Up) then 2 else -2),
           <[voteKey := vote]> (userVotes s))
        else
          (* New vote *)
          (add (if decide (vote = Up) then 1 else -1),
           <[voteKey := vote]> (userVotes s)) in
      (inr resource,
       with_resources (OMap.set id resource (resources s)) (with_userVotes votes s))
  end.

(** *** The feed: [getMemes] *)

(** Modelled from the language standard: [Array.prototype.sort] is stable
    (ECMAScript 2019 and later).  With a comparator that compares a key,
    as the three of [getMemes] do, every stable sort returns the same
    array; it is computed here by insertion from the right.  The sign of
    [cmp x y] decides: positive puts [y] first. *)
Fixpoint sort_insert {A} (cmp : A → A → Q) (x : A) (l : list A) : list A :=
  match l with
  | [] => [x]
  | y :: l' =>
      match (cmp x y ?= 0)%Q with
      | Gt => y :: sort_insert cmp x l'
      | _ => x :: l
      end
  end.

Definition js_sort {A} (cmp : A → A → Q) (l : list A) : list A :=
  foldr (sort_insert cmp) [] l.

(** [l.slice(start, end)] on integers: a negative index counts from the
    end of the array, an index past the end is clamped. *)
Definition js_slice {A} (l : list A) (start end_ : Z) : list A :=
  let len := Z.of_nat (length l) in
  let k := if decide (start < 0) then Z.max (len + start) 0 else Z.min start len in
  let final := if decide (end_ < 0) then Z.max (len + end_) 0 else Z.min end_ len in
  take (Z.to_nat (final - k)) (drop (Z.to_nat k) l).

(** The comparators, as written, in exact arithmetic:
    [new Date(m.createdAt).getTime()] is the time value in
    milliseconds. *)
Definition byNew (a b : Meme.t) : Q :=
  inject_Z (Meme.createdAt b - Meme.createdAt a).

Definition byTop (a b : Meme.t) : Q :=
  inject_Z ((Meme.upvotes b - Meme.downvotes b) - (Meme.upvotes a - Meme.downvotes a)).

Definition byHot (a b : Meme.t) : Q :=
  let aScore := (inject_Z (Meme.upvotes b - Meme.downvotes b)
                 + inject_Z (Meme.createdAt b) / inject_Z 1000000)%Q in
  let bScore := (inject_Z (Meme.upvotes a - Meme.downvotes a)
                 + inject_Z (Meme.createdAt a) / inject_Z 1000000)%Q in
  (aScore - bScore)%Q.

Module Author.
Record t := mk {
  id : Z;
  username : string;
  level : Z;
  avatar : option string;
  title : string
}.
End Author.

(** [{ ...meme, author }] *)
Module MemeWithAuthor.
Record t := mk {
  meme : Meme.t;
  author : option Author.t
}.
End MemeWithAuthor.

(** [author.level || 1] *)
Definition level_or_1 (level : option Z) : Z :=
  match level with
  | Some l => if decide (l = 0) then 1 else l
  | None => 1
  end.

Definition attachAuthor (s : Store) (meme : Meme.t) : MemeWithAuthor.t :=
  let author := Meme.authorId meme ≫= fun id => getUser id s in
  MemeWithAuthor.mk meme
    (match author with
     | Some author =>
         Some (Author.mk (User.id author) (User.username author)
                 (level_or_1 (User.level author)) (User.avatar author) "Designer")
     | None => None
     end).

(** [getMemes(limit = 10, offset = 0, sortBy = 'hot')]; [None] is an
    omitted argument. *)
Definition getMemes (limit offset : option Z) (sortBy : option string) (s : Store)
  : list MemeWithAuthor.t :=
  let limit := default 10 limit in
  let offset := default 0 offset in
  let sortBy := default "hot" sortBy in
  let memes := OMap.values (memes s) in
  (* Apply sorting *)
  let memes :=
    if decide (sortBy = "new") then js_sort byNew memes
    else if decide (sortBy = "top") then js_sort byTop memes
    else (* 'hot' - combination of new and popularity *)
      js_sort byHot memes in
  (* Get paginated memes *)
  let paginatedMemes := js_slice memes offset (offset + limit) in
  (* Attach author data to each meme *)
  attachAuthor s <$> paginatedMemes.

(** *** The vote routes of [registerRoutes]

    The handlers run behind [isAuthenticated], so [req.user] is set;
    [id] is [parseInt(req.params.id)] and [vote] is [req.body.vote]
    ([None] when the body has none). *)

Inductive Response (A : Type) :=
  | Json (status : Z) (body : A)
  | Message (status : Z) (message : string).
Global Arguments Json {A}.
Global Arguments Message {A}.

(** [POST /api/comments/:id/vote] *)
Definition commentVoteRoute (id : Z) (user : User.t) (vote : option string) (s : Store)
  : Response Comment.t * Store :=
  let userId := User.id user in
  match voteComment id userId Up s with
  | (inr comment, s') => (Json 200 comment, s')
  | (inl _, s') => (Message 500 "Failed to vote on comment", s')
  end.

(** [!vote || !['up', 'down'].includes(vote)] fails for exactly these. *)
Definition parseVote (vote : option string) : option Direction :=
  match vote with
  | Some v =>
      if decide (v = "up") then Some Up
      else if decide (v = "down") then Some Down
      else None
  | None => None
  end.

(** [POST /api/resources/:id/vote] *)
Definition resourceVoteRoute (id : Z) (user : User.t) (vote : option string) (s : Store)
  : Response Resource.t * Store :=
  let userId := User.id user in
  match parseVote vote with
  | None => (Message 400 "Invalid vote data", s)
  | Some vote =>
      match voteResource id userId vote s with
      | (inr resource, s') => (Json 200 resource, s')
      | (inl _, s') => (Message 500 "Failed to vote on resource", s')
      end
  end.

(** [POST /api/memes/:id/vote], the handler registered first;
    [req.user?.id || 0]. *)
Definition memeVoteRoute (id : Z) (user : option User.t) (vote : option string) (s : Store)
  : Response Meme.t * Store :=
  let userId := default 0 (User.id <$> user) in
  match parseVote vote with
  | None => (Message 400 "Invalid vote type", s)
  | Some vote =>
      match voteMeme id userId vote s with
      | (inr updatedMeme, s') => (Json 200 updatedMeme, s')
      | (inl _, s') => (Message 500 "Failed to vote on meme", s')
      end
  end.

(** *** Sequences of calls *)

Inductive Op :=
  | OpCreateUser (insertUser : InsertUser.t) (now : Z)
  | OpCreateMeme (insertMeme : InsertMeme.t) (now : Z)
  | OpCreateComment (insertComment : InsertComment.t) (now : Z)
  | OpCreateResource (insertResource : InsertResource.t) (now : Z)
  | OpVoteMeme (id userId : Z) (vote : Direction)
  | OpVoteComment (id userId : Z)
  | OpVoteResource (id userId : Z) (vote : Direction).

(** The store a call leaves behind, whether it returns or throws. *)
Definition step (s : Store) (o : Op) : Store :=
  match o with
  | OpCreateUser u now => (createUser u now s).2
  | OpCreateMeme m now => (createMeme m now s).2
  | OpCreateComment c now => (createComment c now s).2
  | OpCreateResource r now => (createResource r now s).2
  | OpVoteMeme id u v => (voteMeme id u v s).2
  | OpVoteComment id u => (voteComment id u Up s).2
  | OpVoteResource id u v => (voteResource id u v s).2
  end.

Definition run (ops : list Op) (s : Store) : Store := fold_left step ops s.

End MemStorage.

(** ** The vocabulary of the properties *)

Module Spec.
Import VoteKey MemStorage.

(** The vote records of one subject that are active with direction [d],
    counted: the ledger entries whose key starts with the subject's
    prefix and whose value is [d]. *)
Definition ofSubject (k : SubjectKind) (id : Z) (d : Direction)
    (kv : string * Direction) : Prop :=
  String.prefix (subjectPrefix k id) kv.1 = true ∧ kv.2 = d.

Global Instance ofSubject_dec k id d kv : Decision (ofSubject k id d kv).
Proof. unfold ofSubject. apply _. Defined.

Definition activeVotes (k : SubjectKind) (id : Z) (d : Direction)
    (ledger : gmap string Direction) : Z :=
  Z.of_nat (size (filter (ofSubject k id d) ledger)).

(** 1 when [P] holds, 0 otherwise. *)
Definition indicator (P : Prop) `{!Decision P} : Z := if decide P then 1 else 0.

(** The counters are what the ledger says. *)
Definition Consistent (s : Store) : Prop :=
  (∀ id meme, OMap.get id (memes s) = Some meme →
     Meme.upvotes meme = activeVotes KMeme id Up (userVotes s) ∧
     Meme.downvotes meme = activeVotes KMeme id Down (userVotes s)) ∧
  (∀ id comment, OMap.get id (comments s) = Some comment →
     Comment.upvotes comment = activeVotes KComment id Up (userVotes s)) ∧
  (∀ id resource, OMap.get id (resources s) = Some resource →
     Resource.votes resource =
       activeVotes KResource id Up (userVotes s)
       - activeVotes KResource id Down (userVotes s)).

(** Every ledger entry is the record of a (kind, id, user) triple, so
    the entries counted by [activeVotes k id d] are exactly the records
    [voteKey k id userId] with value [d]. *)
Definition KeysWellFormed (s : Store) : Prop :=
  ∀ key v, userVotes s !! key = Some v → ∃ k id userId, key = voteKey k id userId.

(** What the vote and create methods keep true, from which
    [Consistent] follows: a subject that is not stored has no record,
    and the id counters lie above every stored id. *)
Record Inv (s : Store) : Prop := mkInv {
  inv_consistent : Consistent s;
  inv_memes_absent : ∀ id d,
    OMap.get id (memes s) = None → activeVotes KMeme id d (userVotes s) = 0;
  inv_comments_absent : ∀ id d,
    OMap.get id (comments s) = None → activeVotes KComment id d (userVotes s) = 0;
  inv_resources_absent : ∀ id d,
    OMap.get id (resources s) = None → activeVotes KResource id d (userVotes s) = 0;
  inv_memeId : ∀ id, memeId s ≤ id → OMap.get id (memes s) = None;
  inv_commentId : ∀ id, commentId s ≤ id → OMap.get id (comments s) = None;
  inv_resourceId : ∀ id, resourceId s ≤ id → OMap.get id (resources s) = None
}.

(** Descending by [key]. *)
Definition desc {A} (key : A → Q) (a b : A) : Prop := (key b <= key a)%Q.

(** The elements whose key is [k]. *)
Definition hasKey {A} (key : A → Q) (k : Q) (a : A) : Prop := (key a == k)%Q.

Global Instance hasKey_dec {A} (key : A → Q) k a : Decision (hasKey key k a).
Proof. unfold hasKey. apply Qeq_dec. Defined.

(** The keys the three policies sort by. *)
Definition newKey (m : Meme.t) : Q := inject_Z (Meme.createdAt m).

Definition topKey (m : Meme.t) : Q :=
  inject_Z (Meme.upvotes m - Meme.downvotes m).

(** The hot score of the code: the time value is in milliseconds. *)
Definition hotScore (m : Meme.t) : Q :=
  (inject_Z (Meme.upvotes m - Meme.downvotes m)
   + inject_Z (Meme.createdAt m) / inject_Z 1000000)%Q.

(** The hot score with the creation time expressed in seconds. *)
Definition hotScoreSeconds (m : Meme.t) : Q :=
  let creationTimestampSeconds := (inject_Z (Meme.createdAt m) / inject_Z 1000)%Q in
  (inject_Z (Meme.upvotes m - Meme.downvotes m)
   + creationTimestampSeconds / inject_Z 1000000)%Q.

Definition sortKey (sortBy : string) : Meme.t → Q :=
  if decide (sortBy = "new") then newKey
  else if decide (sortBy = "top") then topKey
  else hotScore.

Definition comparator (sortBy : string) : Meme.t → Meme.t → Q :=
  if decide (sortBy = "new") then byNew
  else if decide (sortBy = "top") then byTop
  else byHot.

(** The memes of a feed page, without the attached authors. *)
Definition page (limit offset : option Z) (sortBy : option string) (s : Store)
  : list Meme.t :=
  MemeWithAuthor.meme <$> getMemes limit offset sortBy s.

(** The number of memes in the store. *)
Definition memeCount (s : Store) : Z := Z.of_nat (length (OMap.values (memes s))).

(** The counter of a meme that a direction feeds. *)
Definition counter (d : Direction) (m : Meme.t) : Z :=
  match d with
  | Up => Meme.upvotes m
  | Down => Meme.downvotes m
  end.

Definition opposite (d : Direction) : Direction :=
  match d with
  | Up => Down
  | Down => Up
  end.

(** The signed value of a ledger entry: up is +1, down is -1, no
    record is 0. *)
Definition signed (v : option Direction) : Z :=
  match v with
  | Some Up => 1
  | Some Down => -1
  | None => 0
  end.

(** A subject without any active vote record. *)
Definition Fresh (k : SubjectKind) (id : Z) (s : Store) : Prop :=
  ∀ d, activeVotes k id d (userVotes s) = 0.

End Spec.

(** ** Concrete stores *)

Module Examples.
Import VoteKey MemStorage Spec.

Definition t0 : Z := 1700000000000.

Definition alice : User.t :=
  User.mk 7 "alice@example.org" "alice" None None None (Some "local") None None
    (Some 1) (Some 0) (Some t0) (Some t0).

(** A new store with one meme (id 1) and one comment (id 1). *)
Definition memeA : Store :=
  run [ OpCreateMeme (InsertMeme.mk None "a.png" None) t0;
        OpCreateComment (InsertComment.mk (Some 1) None "first" None) t0 ]
      (new t0).

(** Meme 1 has one up-vote; meme 2 is created 2000 seconds later and
    has no vote. *)
Definition feedExample : Store :=
  run [ OpCreateMeme (InsertMeme.mk None "a.png" None) t0;
        OpVoteMeme 1 7 Up;
        OpCreateMeme (InsertMeme.mk None "b.png" None) (t0 + 2000000) ]
      (new t0).

Definition memeCounters (id : Z) (s : Store) : option (Z * Z) :=
  (fun m => (Meme.upvotes m, Meme.downvotes m)) <$> OMap.get id (memes s).

Definition resourceVotes (id : Z) (s : Store) : option Z :=
  Resource.votes <$> OMap.get id (resources s).

End Examples.

(** ** The feed in binary64

    [getMemes] once more, with the three comparators computed as
    JavaScript computes them: every number is an IEEE 754 double, and
    [-], [+] and [/] round to nearest, ties to even.  The comparators of
    [MemStorage] are the same expressions in exact arithmetic. *)

Module Binary64.
Import MemStorage.
Import Floats.PrimFloat Floats.SpecFloat Floats.FloatOps.

(** The double that holds the integer [z]: [z] itself up to 2^53 in
    magnitude, the nearest double beyond. *)
Definition number (z : Z) : float := SF2Prim (binary_normalize prec emax z 0 false).

(** What [Array.prototype.sort] reads of the number a comparator
    returns: its sign, where NaN counts as 0. *)
Definition sign (v : float) : Q :=
  if (0 <? v)%float then 1%Q
  else if (v <? 0)%float then inject_Z (-1)
  else 0%Q.

Definition byNew (a b : Meme.t) : float :=
  (number (Meme.createdAt b) - number (Meme.createdAt a))%float.

Definition byTop (a b : Meme.t) : float :=
  ((number (Meme.upvotes b) - number (Meme.downvotes b))
   - (number (Meme.upvotes a) - number (Meme.downvotes a)))%float.

Definition byHot (a b : Meme.t) : float :=
  let aScore := ((number (Meme.upvotes b) - number (Meme.downvotes b))
                 + number (Meme.createdAt b) / 1000000)%float in
  let bScore := ((number (Meme.upvotes a) - number (Meme.downvotes a))
                 + number (Meme.createdAt a) / 1000000)%float in
  (aScore - bScore)%float.

(** [getMemes(limit = 10, offset = 0, sortBy = 'hot')] *)
Definition getMemes (limit offset : option Z) (sortBy : option string) (s : Store)
  : list MemeWithAuthor.t :=
  let limit := default 10 limit in
  let offset := default 0 offset in
  let sortBy := default "hot" sortBy in
  let memes := OMap.values (memes s) in
  (* Apply sorting *)
  let memes :=
    if decide (sortBy = "new") then js_sort (fun a b => sign (byNew a b)) memes
    else if decide (sortBy = "top") then js_sort (fun a b => sign (byTop a b)) memes
    else (* 'hot' - combination of new and popularity *)
      js_sort (fun a b => sign (byHot a b)) memes in
  (* Get paginated memes *)
  let paginatedMemes := js_slice memes offset (offset + limit) in
  (* Attach author data to each meme *)
  attachAuthor s <$> paginatedMemes.

(** The keys the three policies sort by, as doubles. *)
Definition newKey (m : Meme.t) : float := number (Meme.createdAt m).

Definition topKey (m : Meme.t) : float :=
  (number (Meme.upvotes m) - number (Meme.downvotes m))%float.

Definition hotScore (m : Meme.t) : float :=
  ((number (Meme.upvotes m) - number (Meme.downvotes m))
   + number (Meme.createdAt m) / 1000000)%float.

Definition sortKey (sortBy : string) : Meme.t → float :=
  if decide (sortBy = "new") then newKey
  else if decide (sortBy = "top") then topKey
  else hotScore.

Definition comparator (sortBy : string) : Meme.t → Meme.t → float :=
  if decide (sortBy = "new") then byNew
  else if decide (sortBy = "top") then byTop
  else byHot.

(** The elements whose key equals [k], as [===] and [==] compare
    numbers. *)
Definition hasKey {A} (key : A → float) (k : float) (a : A) : Prop :=
  (key a =? k)%float = true.

Global Instance hasKey_dec {A} (key : A → float) k a : Decision (hasKey key k a).
Proof. unfold hasKey. apply _. Defined.

(** The memes of a feed page, without the attached authors. *)
Definition page (limit offset : option Z) (sortBy : option string) (s : Store)
  : list Meme.t :=
  MemeWithAuthor.meme <$> getMemes limit offset sortBy s.

(** Whether the comparator of a policy in exact arithmetic and the one
    in binary64 have the same sign on every two memes of a list. *)
Definition sameSigns (sortBy : string) (l : list Meme.t) : bool :=
  forallb
    (fun a =>
       forallb
         (fun b =>
            bool_decide ((Spec.comparator sortBy a b ?= 0)%Q
                         = (sign (comparator sortBy a b) ?= 0)%Q))
         l)
    l.

(** Meme 1 has one up-vote; meme 2 is created 1000 seconds later and
    has no vote, so the exact hot scores are equal.  The two creation
    times lie on either side of 2^21 * 1e6 milliseconds. *)
Definition straddle : Store :=
  run [ OpCreateMeme (InsertMeme.mk None "a.png" None) 2097151500018;
        OpVoteMeme 1 7 Up;
        OpCreateMeme (InsertMeme.mk None "b.png" None) 2097152500018 ]
      (new 2097151500018).

(** Three memes without a vote; the first and the last are created at
    the same instant, the second one second earlier. *)
Definition sameInstant : Store :=
  run [ OpCreateMeme (InsertMeme.mk None "a.png" None) 1700000001000;
        OpCreateMeme (InsertMeme.mk None "b.png" None) 1700000000000;
        OpCreateMeme (InsertMeme.mk None "c.png" None) 1700000001000 ]
      (new 1700000000000).

End Binary64.

(** ** The read methods of MemStorage *)

Module Queries.
Import MemStorage.

(** [getMeme(id)]; [None] is [undefined]. *)
Definition getMeme (id : Z) (s : Store) : option MemeWithAuthor.t :=
  attachAuthor s <$> OMap.get id (memes s).

(** [getMemesByUser(userId, limit = 10, offset = 0)] *)
Definition getMemesByUser (userId : Z) (limit offset : option Z) (s : Store)
  : list MemeWithAuthor.t :=
  let limit := default 10 limit in
  let offset := default 0 offset in
  let all := filter (fun meme => Meme.authorId meme = Some userId)
               (OMap.values (memes s)) in
  (* Sort by newest first for user's own posts *)
  let sorted := js_sort byNew all in
  (* Get paginated memes *)
  let paginatedMemes := js_slice sorted offset (offset + limit) in
  attachAuthor s <$> paginatedMemes.

Definition byNewComment (a b : Comment.t) : Q :=
  inject_Z (Comment.createdAt b - Comment.createdAt a).

(** [getComments(memeId)] *)
Definition getComments (memeId : Z) (s : Store) : list Comment.t :=
  js_sort byNewComment
    (filter (fun comment => Comment.memeId comment = Some memeId)
       (OMap.values (comments s))).

Definition byVotes (a b : Resource.t) : Q :=
  inject_Z (Resource.votes b - Resource.votes a).

(** [getResources(category?)]: [if (category)] is false for an omitted
    argument and for the empty string. *)
Definition getResources (category : option string) (s : Store) : list Resource.t :=
  let all := OMap.values (resources s) in
  let selected :=
    match category with
    | Some c =>
        if decide (c = EmptyString) then all
        else filter (fun resource => Resource.category resource = Some c) all
    | None => all
    end in
  js_sort byVotes selected.

Definition getResource (id : Z) (s : Store) : option Resource.t :=
  OMap.get id (resources s).

(** [Array.from(this.users.values()).find(...)]: the first match in
    insertion order. *)
Definition getUserByUsername (username : string) (s : Store) : option User.t :=
  List.find (fun user => bool_decide (User.username user = username))
    (OMap.values (users s)).

Definition getUserByEmail (email : string) (s : Store) : option User.t :=
  List.find (fun user => bool_decide (User.email user = email))
    (OMap.values (users s)).

End Queries.

(** [Partial<User>]: [None] is a key that the object does not have,
    [Some v] a key with value [v] (for a nullable field [Some None] is a
    key whose value is null or undefined). *)
Module PartialUser.
Record t := mk {
  id : option Z;
  email : option string;
  username : option string;
  password : option (option string);
  displayName : option (option string);
  avatar : option (option string);
  provider : option (option string);
  providerId : option (option string);
  refreshToken : option (option string);
  level : option (option Z);
  xp : option (option Z);
  createdAt : option (option Z);
  updatedAt : option (option Z)
}.

Definition empty : t :=
  mk None None None None None None None None None None None None None.
End PartialUser.

Module Accounts.
Import MemStorage.

(** [{ ...user, ...data, updatedAt: new Date() }] *)
Definition merge (user : User.t) (data : PartialUser.t) (now : Z) : User.t :=
  User.mk
    (default (User.id user) (PartialUser.id data))
    (default (User.email user) (PartialUser.email data))
    (default (User.username user) (PartialUser.username data))
    (default (User.password user) (PartialUser.password data))
    (default (User.displayName user) (PartialUser.displayName data))
    (default (User.avatar user) (PartialUser.avatar data))
    (default (User.provider user) (PartialUser.provider data))
    (default (User.providerId user) (PartialUser.providerId data))
    (default (User.refreshToken user) (PartialUser.refreshToken data))
    (default (User.level user) (PartialUser.level data))
    (default (User.xp user) (PartialUser.xp data))
    (default (User.createdAt user) (PartialUser.createdAt data))
    (Some now).

(** [updateUser(id, data)]; [now] is the clock reading of [new Date()]. *)
Definition updateUser (id : Z) (data : PartialUser.t) (now : Z) (s : Store)
  : Result User.t * Store :=
  match getUser id s with
  | None => (inl (MkError ("User with id " +:+ pretty id +:+ " not found")), s)
  | Some user =>
      let updatedUser := merge user data now in
      (inr updatedUser, with_users (OMap.set id updatedUser (users s)) s)
  end.

End Accounts.

(** ** Game sessions *)

(** What the insert schemas accept for an [integer] column: an integer
    of 32 bits; for a nullable column also no value. *)
Definition int32 (n : Z) : Prop := -2147483648 ≤ n ≤ 2147483647.

Definition nullableInt32 (x : option Z) : Prop :=
  match x with
  | Some n => int32 n
  | None => True
  end.

Global Instance int32_dec n : Decision (int32 n).
Proof. unfold int32. apply _. Defined.

Global Instance nullableInt32_dec x : Decision (nullableInt32 x).
Proof. destruct x; simpl; apply _. Defined.

(** A JSON value (the column [choices]). *)
Unset Elimination Schemes.
Inductive Json :=
  | JNull
  | JBool (b : bool)
  | JNumber (n : Z)
  | JString (s : string)
  | JArray (items : list Json)
  | JObject (fields : list (string * Json)).
Set Elimination Schemes.

Module GameSession.
Record t := mk {
  id : Z;
  userId : option Z;
  score : option Z;
  sanityLeft : option Z;
  choices : option Json;
  endedAt : option Z;
  createdAt : Z
}.
End GameSession.

Module InsertGameSession.
Record t := mk {
  userId : option Z;
  score : option Z;
  sanityLeft : option Z;
  choices : option Json
}.
End InsertGameSession.

(** [Partial<GameSession>], read as [PartialUser]. *)
Module PartialGameSession.
Record t := mk {
  id : option Z;
  userId : option (option Z);
  score : option (option Z);
  sanityLeft : option (option Z);
  choices : option (option Json);
  endedAt : option (option Z);
  createdAt : option Z
}.
End PartialGameSession.

Module Sessions.
Import MemStorage.

(** The two fields of MemStorage that the session methods use. *)
Record Store := mkStore {
  gameSessions : OMap.t GameSession.t;
  gameSessionId : Z
}.

(** As the constructor leaves them. *)
Definition new : Store := mkStore OMap.empty 1.

Definition bySessionNew (a b : GameSession.t) : Q :=
  inject_Z (GameSession.createdAt b - GameSession.createdAt a).

(** [getGameSessions(userId, limit = 10)] *)
Definition getGameSessions (userId : Z) (limit : option Z) (s : Store)
  : list GameSession.t :=
  let limit := default 10 limit in
  js_slice
    (js_sort bySessionNew
       (filter (fun session => GameSession.userId session = Some userId)
          (OMap.values (gameSessions s))))
    0 limit.

Definition getGameSession (id : Z) (s : Store) : option GameSession.t :=
  OMap.get id (gameSessions s).

(** [{ ...insertSession, id, createdAt: now, endedAt: null }] *)
Definition createGameSession (insertSession : InsertGameSession.t) (now : Z) (s : Store)
  : GameSession.t * Store :=
  let id := gameSessionId s in
  let session :=
    GameSession.mk id (InsertGameSession.userId insertSession)
      (InsertGameSession.score insertSession)
      (InsertGameSession.sanityLeft insertSession)
      (InsertGameSession.choices insertSession) None now in
  (session, mkStore (OMap.set id session (gameSessions s)) (id + 1)).

(** [{ ...session, ...data }] *)
Definition mergeSession (session : GameSession.t) (data : PartialGameSession.t)
  : GameSession.t :=
  GameSession.mk
    (default (GameSession.id session) (PartialGameSession.id data))
    (default (GameSession.userId session) (PartialGameSession.userId data))
    (default (GameSession.score session) (PartialGameSession.score data))
    (default (GameSession.sanityLeft session) (PartialGameSession.sanityLeft data))
    (default (GameSession.choices session) (PartialGameSession.choices data))
    (default (GameSession.endedAt session) (PartialGameSession.endedAt data))
    (default (GameSession.createdAt session) (PartialGameSession.createdAt data)).

Definition updateGameSession (id : Z) (data : PartialGameSession.t) (s : Store)
  : Result GameSession.t * Store :=
  match OMap.get id (gameSessions s) with
  | None => (inl (MkError "Game session not found"), s)
  | Some session =>
      let updatedSession := mergeSession session data in
      (inr updatedSession,
       mkStore (OMap.set id updatedSession (gameSessions s)) (gameSessionId s))
  end.

(** [parseInt(x) || dflt] on a query parameter; [None] is a parameter
    that is absent or does not parse (NaN). *)
Definition number_or (x : option Z) (dflt : Z) : Z :=
  match x with
  | Some n => if decide (n = 0) then dflt else n
  | None => dflt
  end.

(** [GET /api/game/sessions/:userId]; a parameter that does not parse
    gives NaN, which differs from every user id and is answered 403 like
    any other foreign id. *)
Definition sessionsRoute (requestedUserId : Z) (user : User.t) (limit : option Z)
    (s : Store) : Response (list GameSession.t) * Store :=
  let userId := User.id user in
  (* Users can only see their own game sessions *)
  if decide (userId ≠ requestedUserId) then
    (Message 403 "Unauthorized to access these game sessions", s)
  else
    let limit := number_or limit 10 in
    (Json 200 (getGameSessions requestedUserId (Some limit) s), s).

(** [insertGameSessionSchema.parse] on an object whose fields have the
    types of the columns; [None] is a ZodError.  Every column is
    optional; the three integer columns take 32-bit integers. *)
Definition insertGameSessionSchema (data : InsertGameSession.t)
  : option InsertGameSession.t :=
  if decide (nullableInt32 (InsertGameSession.userId data) ∧
             nullableInt32 (InsertGameSession.score data) ∧
             nullableInt32 (InsertGameSession.sanityLeft data))
  then Some data else None.

(** [POST /api/game/sessions]; [{ ...req.body, userId }]. *)
Definition createSessionRoute (user : User.t) (body : InsertGameSession.t) (now : Z)
    (s : Store) : Response GameSession.t * Store :=
  let userId := User.id user in
  match insertGameSessionSchema
          (InsertGameSession.mk (Some userId) (InsertGameSession.score body)
             (InsertGameSession.sanityLeft body) (InsertGameSession.choices body)) with
  | Some sessionData =>
      let '(session, s') := createGameSession sessionData now s in
      (Json 201 session, s')
  | None => (Message 400 "Invalid session data", s)
  end.

(** [PATCH /api/game/sessions/:id] *)
Definition patchSessionRoute (id : Z) (user : User.t) (body : PartialGameSession.t)
    (s : Store) : Response GameSession.t * Store :=
  let userId := User.id user in
  (* First, get the session to check ownership *)
  match getGameSession id s with
  | None => (Message 404 "Game session not found", s)
  | Some existingSession =>
      (* Users can only update their own game sessions *)
      if decide (GameSession.userId existingSession ≠ Some userId) then
        (Message 403 "Unauthorized to update this game session", s)
      else
        match updateGameSession id body s with
        | (inr session, s') => (Json 200 session, s')
        | (inl _, s') => (Message 500 "Failed to update game session", s')
        end
  end.

(** Session requests that write. *)
Inductive Request :=
  | ReqCreate (user : User.t) (body : InsertGameSession.t) (now : Z)
  | ReqPatch (id : Z) (user : User.t) (body : PartialGameSession.t).

Definition serve (s : Store) (r : Request) : Store :=
  match r with
  | ReqCreate user body now => (createSessionRoute user body now s).2
  | ReqPatch id user body => (patchSessionRoute id user body s).2
  end.

Definition serveAll (requests : list Request) (s : Store) : Store :=
  fold_left serve requests s.

(** Every stored key is below the next id to hand out. *)
Definition KeysBelow (s : Store) : Prop :=
  Forall (fun kv => kv.1 < gameSessionId s) (gameSessions s).

End Sessions.

(** ** Newsletter subscribers *)

Module Newsletter.
Section Newsletter.
(** [String.prototype.toLowerCase] *)
Variable toLowerCase : string → string.

(** The [Set] of subscribers, in insertion order. *)
Definition Subscribers := list string.

(** [addNewsletterSubscriber(email)] *)
Definition addNewsletterSubscriber (email : string) (subs : Subscribers)
  : bool * Subscribers :=
  (* Normalize email (lowercase) *)
  let normalizedEmail := toLowerCase email in
  (* Don't add duplicates *)
  if decide (normalizedEmail ∈ subs) then (false, subs)
  else (true, subs ++ [normalizedEmail]).

(** [getNewsletterSubscribers()] *)
Definition getNewsletterSubscribers (subs : Subscribers) : list string := subs.

(** The set after a sequence of sign-ups. *)
Definition subscribeAll (emails : list string) (subs : Subscribers) : Subscribers :=
  fold_left (fun subs email => (addNewsletterSubscriber email subs).2) emails subs.

End Newsletter.
End Newsletter.

(** ** The routes of [registerRoutes] and of the auth router

    Each handler is modelled from the point where its middleware has
    run: [user] is [req.user], the body is the request body with fields
    of the types of the columns, where [None] is a field that the body
    lacks, and what [bcrypt], the token signer and the session login
    return are inputs.  The insert schemas are modelled for such bodies:
    a required field must be there and an integer field must fit 32
    bits.  The register handler is modelled from the point where its
    validation schema has parsed the body.  The WebSocket broadcast after
    a creation does not touch the store and is left out. *)

Module MemeBody.
Record t := mk {
  authorId : option Z;
  imageUrl : option string;
  caption : option string
}.
End MemeBody.

Module CommentBody.
Record t := mk {
  memeId : option Z;
  authorId : option Z;
  body : option string;
  parentId : option Z
}.
End CommentBody.

Module ResourceBody.
Record t := mk {
  title : option string;
  category : option string;
  markdown : option string;
  downloadUrl : option string;
  createdBy : option Z
}.
End ResourceBody.

(** The fields of the register body that the handler reads, after
    [validationSchema.parse]. *)
Module RegisterData.
Record t := mk {
  username : string;
  email : string;
  password : string;
  displayName : option string;
  avatar : option string
}.
End RegisterData.

(** The user object of the register response. *)
Module AccountView.
Record t := mk {
  id : Z;
  username : string;
  email : string;
  avatar : option string;
  displayName : option string;
  level : option Z;
  xp : option Z
}.
End AccountView.

(** The object of the profile response. *)
Module ProfileView.
Record t := mk {
  id : Z;
  username : string;
  email : string;
  displayName : option string;
  avatar : option string;
  level : Z;
  xp : Z
}.
End ProfileView.

Module Facade.
Import MemStorage Queries Accounts.

(** [x || dflt] on a query string. *)
Definition string_or (x : option string) (dflt : string) : string :=
  match x with
  | Some v => if decide (v = EmptyString) then dflt else v
  | None => dflt
  end.

(** [GET /api/memes]; [userId] is [parseInt(req.query.userId)] when the
    parameter is there, and the test [userId ? ... : ...] fails for an
    absent, unparsable or zero value. *)
Definition listMemesRoute (limit offset : option Z) (sort : option string)
    (userId : option Z) (s : Store) : Response (list MemeWithAuthor.t) * Store :=
  let limit := Sessions.number_or limit 10 in
  let offset := Sessions.number_or offset 0 in
  let sortBy := string_or sort "hot" in
  let memes :=
    match userId with
    | Some userId =>
        if decide (userId = 0) then getMemes (Some limit) (Some offset) (Some sortBy) s
        else getMemesByUser userId (Some limit) (Some offset) s
    | None => getMemes (Some limit) (Some offset) (Some sortBy) s
    end in
  (Json 200 memes, s).

(** [GET /api/memes/:id] *)
Definition getMemeRoute (id : Z) (s : Store) : Response MemeWithAuthor.t * Store :=
  match getMeme id s with
  | None => (Message 404 "Meme not found", s)
  | Some meme => (Json 200 meme, s)
  end.

(** [insertMemeSchema.parse]; [None] is a ZodError: no [imageUrl], or
    an [authorId] beyond 32 bits. *)
Definition insertMemeSchema (data : MemeBody.t) : option InsertMeme.t :=
  match MemeBody.imageUrl data with
  | Some imageUrl =>
      if decide (nullableInt32 (MemeBody.authorId data))
      then Some (InsertMeme.mk (MemeBody.authorId data) imageUrl (MemeBody.caption data))
      else None
  | None => None
  end.

(** [POST /api/memes]; [{ ...req.body, authorId: userId }]. *)
Definition createMemeRoute (user : User.t) (body : MemeBody.t) (now : Z) (s : Store)
  : Response Meme.t * Store :=
  let userId := User.id user in
  match insertMemeSchema
          (MemeBody.mk (Some userId) (MemeBody.imageUrl body) (MemeBody.caption body)) with
  | Some memeData =>
      let '(meme, s') := createMeme memeData now s in
      (Json 201 meme, s')
  | None => (Message 400 "Invalid meme data", s)
  end.

(** [GET /api/memes/:memeId/comments] *)
Definition commentsRoute (memeId : Z) (s : Store) : Response (list Comment.t) * Store :=
  (Json 200 (getComments memeId s), s).

(** [insertCommentSchema.parse]; [None] is a ZodError: no [body], or
    a [memeId], [authorId] or [parentId] beyond 32 bits. *)
Definition insertCommentSchema (data : CommentBody.t) : option InsertComment.t :=
  match CommentBody.body data with
  | Some text =>
      if decide (nullableInt32 (CommentBody.memeId data) ∧
                 nullableInt32 (CommentBody.authorId data) ∧
                 nullableInt32 (CommentBody.parentId data))
      then Some (InsertComment.mk (CommentBody.memeId data) (CommentBody.authorId data)
                   text (CommentBody.parentId data))
      else None
  | None => None
  end.

(** [POST /api/comments]; [{ ...req.body, authorId: userId }]. *)
Definition createCommentRoute (user : User.t) (body : CommentBody.t) (now : Z)
    (s : Store) : Response Comment.t * Store :=
  let userId := User.id user in
  match insertCommentSchema
          (CommentBody.mk (CommentBody.memeId body) (Some userId)
             (CommentBody.body body) (CommentBody.parentId body)) with
  | Some commentData =>
      let '(comment, s') := createComment commentData now s in
      (Json 201 comment, s')
  | None => (Message 400 "Invalid comment data", s)
  end.

(** [GET /api/resources] *)
Definition resourcesRoute (category : option string) (s : Store)
  : Response (list Resource.t) * Store :=
  (Json 200 (getResources category s), s).

(** [GET /api/resources/:id] *)
Definition getResourceRoute (id : Z) (s : Store) : Response Resource.t * Store :=
  match getResource id s with
  | None => (Message 404 "Resource not found", s)
  | Some resource => (Json 200 resource, s)
  end.

(** [insertResourceSchema.parse]; [None] is a ZodError: no [title], or
    a [createdBy] beyond 32 bits. *)
Definition insertResourceSchema (data : ResourceBody.t) : option InsertResource.t :=
  match ResourceBody.title data with
  | Some title =>
      if decide (nullableInt32 (ResourceBody.createdBy data))
      then Some (InsertResource.mk title (ResourceBody.category data)
                   (ResourceBody.markdown data) (ResourceBody.downloadUrl data)
                   (ResourceBody.createdBy data))
      else None
  | None => None
  end.

(** [POST /api/resources]; [{ ...req.body, createdBy: userId }]. *)
Definition createResourceRoute (user : User.t) (body : ResourceBody.t) (now : Z)
    (s : Store) : Response Resource.t * Store :=
  let userId := User.id user in
  match insertResourceSchema
          (ResourceBody.mk (ResourceBody.title body) (ResourceBody.category body)
             (ResourceBody.markdown body) (ResourceBody.downloadUrl body)
             (Some userId)) with
  | Some resourceData =>
      let '(resource, s') := createResource resourceData now s in
      (Json 201 resource, s')
  | None => (Message 400 "Invalid resource data", s)
  end.

Definition accountView (user : User.t) : AccountView.t :=
  AccountView.mk (User.id user) (User.username user) (User.email user)
    (User.avatar user) (User.displayName user) (User.level user) (User.xp user).

(** [POST /api/auth/register], after validation, up to the point where
    it awaits [bcrypt.hash]: the two look-ups, which only read the store.
    [Some] is the answer of a handler that returns here, [None] a
    handler that goes on to hash the password. *)
Definition registerLookups (validatedData : RegisterData.t) (s : Store)
  : option (Response (AccountView.t * string)) :=
  (* Check if email already exists *)
  match getUserByEmail (RegisterData.email validatedData) s with
  | Some _ => Some (Message 400 "Email already in use")
  | None =>
      (* Check if username already exists *)
      match getUserByUsername (RegisterData.username validatedData) s with
      | Some _ => Some (Message 400 "Username already taken")
      | None => None
      end
  end.

(** The rest of the handler, which runs once [bcrypt.hash] has
    resolved, on the store as it is by then.  [hashedPassword] is what
    [bcrypt.hash] returned, [token] what [generateToken] returned,
    [loginFails] whether [req.login] reported an error. *)
Definition registerCreate (validatedData : RegisterData.t)
    (hashedPassword token : string) (loginFails : bool) (now : Z) (s : Store)
  : Response (AccountView.t * string) * Store :=
  let '(user, s') :=
    createUser
      (InsertUser.mk (RegisterData.email validatedData)
         (RegisterData.username validatedData)
         (Some hashedPassword)
         (or_else (RegisterData.displayName validatedData)
            (Some (RegisterData.username validatedData)))
         (RegisterData.avatar validatedData)
         (Some "local") None None)
      now s in
  if loginFails then (Message 500 "Login after registration failed", s')
  else (Json 201 (accountView user, token), s').

(** [PATCH /api/auth/profile]: [updateUser(userId, { displayName, bio,
    avatar })].  The three keys are always in the object, with the value
    [undefined] when the body lacks them; [bio] is no field of a user
    and is not kept by the model. *)
Definition profileRoute (user : User.t) (displayName avatar : option string) (now : Z)
    (s : Store) : Response ProfileView.t * Store :=
  let userId := User.id user in
  let data :=
    PartialUser.mk None None None None (Some displayName) (Some avatar)
      None None None None None None None in
  match updateUser userId data now s with
  | (inr updatedUser, s') =>
      (Json 200
         (ProfileView.mk (User.id updatedUser) (User.username updatedUser)
            (User.email updatedUser) (User.displayName updatedUser)
            (User.avatar updatedUser) (level_or_1 (User.level updatedUser))
            (Sessions.number_or (User.xp updatedUser) 0)),
       s')
  | (inl _, s') => (Message 500 "Failed to update profile", s')
  end.

(** The steps of the handlers that write to the store.  Of a
    registration this is the second step, [registerCreate]; its look-ups
    have passed on an earlier store and do not write. *)
Inductive Request :=
  | ReqRegister (validatedData : RegisterData.t) (hashedPassword token : string)
      (loginFails : bool) (now : Z)
  | ReqProfile (user : User.t) (displayName avatar : option string) (now : Z)
  | ReqCreateMeme (user : User.t) (body : MemeBody.t) (now : Z)
  | ReqCreateComment (user : User.t) (body : CommentBody.t) (now : Z)
  | ReqCreateResource (user : User.t) (body : ResourceBody.t) (now : Z)
  | ReqVoteMeme (id : Z) (user : option User.t) (vote : option string)
  | ReqVoteComment (id : Z) (user : User.t) (vote : option string)
  | ReqVoteResource (id : Z) (user : User.t) (vote : option string).

(** The store a step leaves behind. *)
Definition serve (s : Store) (r : Request) : Store :=
  match r with
  | ReqRegister d h t f now => (registerCreate d h t f now s).2
  | ReqProfile u dn av now => (profileRoute u dn av now s).2
  | ReqCreateMeme u b now => (createMemeRoute u b now s).2
  | ReqCreateComment u b now => (createCommentRoute u b now s).2
  | ReqCreateResource u b now => (createResourceRoute u b now s).2
  | ReqVoteMeme id u v => (memeVoteRoute id u v s).2
  | ReqVoteComment id u v => (commentVoteRoute id u v s).2
  | ReqVoteResource id u v => (resourceVoteRoute id u v s).2
  end.

Definition serveAll (requests : list Request) (s : Store) : Store :=
  fold_left serve requests s.

(** The account that [registerCreate] hands to [createUser] and gets
    back. *)
Definition registeredUser (d : RegisterData.t) (hashedPassword : string) (now : Z)
    (s : Store) : User.t :=
  (createUser
     (InsertUser.mk (RegisterData.email d) (RegisterData.username d)
        (Some hashedPassword)
        (or_else (RegisterData.displayName d) (Some (RegisterData.username d)))
        (RegisterData.avatar d) (Some "local") None None)
     now s).1.

(** A step that is not the creation of a registration. *)
Definition notRegister (r : Request) : Prop :=
  match r with
  | ReqRegister _ _ _ _ _ => False
  | _ => True
  end.

End Facade.

(** ** The shape of a store *)

Module Shape.
Import MemStorage.

(** The entries of a map are in ascending key order, every key is
    below the next id to hand out, and each entity carries its key as
    its id. *)
Definition OrderedBelow {V} (idOf : V → Z) (next : Z) (m : OMap.t V) : Prop :=
  StronglySorted Z.lt m.*1 ∧ Forall (fun kv => kv.1 < next ∧ idOf kv.2 = kv.1) m.

Record WellKeyed (s : Store) : Prop := mkWellKeyed {
  wk_users : OrderedBelow User.id (userId s) (users s);
  wk_memes : OrderedBelow Meme.id (memeId s) (memes s);
  wk_comments : OrderedBelow Comment.id (commentId s) (comments s);
  wk_resources : OrderedBelow Resource.id (resourceId s) (resources s)
}.

(** No two accounts share an email or a username. *)
Definition UniqueAccounts (s : Store) : Prop :=
  NoDup (User.email <$> OMap.values (users s)) ∧
  NoDup (User.username <$> OMap.values (users s)).

(** Two memes that differ at most in their counters. *)
Definition sameButCounters (a b : Meme.t) : Prop :=
  Meme.id a = Meme.id b ∧ Meme.authorId a = Meme.authorId b ∧
  Meme.imageUrl a = Meme.imageUrl b ∧ Meme.caption a = Meme.caption b ∧
  Meme.createdAt a = Meme.createdAt b.

Definition sameButUpvotes (a b : Comment.t) : Prop :=
  Comment.id a = Comment.id b ∧ Comment.memeId a = Comment.memeId b ∧
  Comment.authorId a = Comment.authorId b ∧ Comment.body a = Comment.body b ∧
  Comment.parentId a = Comment.parentId b ∧ Comment.createdAt a = Comment.createdAt b.

Definition sameButVotes (a b : Resource.t) : Prop :=
  Resource.id a = Resource.id b ∧ Resource.title a = Resource.title b ∧
  Resource.category a = Resource.category b ∧
  Resource.markdown a = Resource.markdown b ∧
  Resource.downloadUrl a = Resource.downloadUrl b ∧
  Resource.createdBy a = Resource.createdBy b ∧
  Resource.createdAt a = Resource.createdAt b.

(** The store apart from the ledger and one of the entity maps. *)
Definition sameIdCounters (s s' : Store) : Prop :=
  userId s' = userId s ∧ memeId s' = memeId s ∧
  commentId s' = commentId s ∧ resourceId s' = resourceId s.

(** The elements of a list, each once, at the place of its first
    occurrence. *)
Fixpoint firstOccurrences (l : list string) : list string :=
  match l with
  | [] => []
  | x :: l' => x :: filter (fun y => y ≠ x) (firstOccurrences l')
  end.

End Shape.

(** ** More concrete stores *)

Module Scenarios.
Import MemStorage Facade Examples.

(** Memes 1 and 3 are by user 7, meme 2 by user 8 and meme 4 by nobody;
    each is created a second after the one before. *)
Definition authored : Store :=
  run [ OpCreateMeme (InsertMeme.mk (Some 7) "a.png" None) t0;
        OpCreateMeme (InsertMeme.mk (Some 8) "b.png" None) (t0 + 1000);
        OpCreateMeme (InsertMeme.mk (Some 7) "c.png" None) (t0 + 2000);
        OpCreateMeme (InsertMeme.mk None "d.png" None) (t0 + 3000) ]
      (new t0).

Definition aliceData : RegisterData.t :=
  RegisterData.mk "alice" "a@x.org" "Secret123" None None.

(** The same email under another username. *)
Definition aliasData : RegisterData.t :=
  RegisterData.mk "alias" "a@x.org" "Secret456" None None.

(** One registration, from the look-ups to the creation, on a new
    store. *)
Definition registered : Store :=
  serveAll [ReqRegister aliceData "$2a$hash" "tok" false t0] (new t0).

End Scenarios.

(** ** Facts about vote keys *)

Module VoteKeyFacts.
Import VoteKey.

(* stdpp blocks [simpl] on string concatenation; the proofs below
   compute with it on constructor-headed strings. *)
Local Arguments String.append !_ _ / : simpl nomatch.
Local Arguments ascii_dec : simpl never.


Lemma app_assoc_s (a b c : string) : (a +:+ b) +:+ c = a +:+ (b +:+ c).
Proof. induction a as [|x a IH]; simpl; [done|by rewrite IH]. Qed.

Lemma voteKey_prefix k id u : voteKey k id u = subjectPrefix k id +:+ pretty u.
Proof.
  unfold voteKey, subjectPrefix. by rewrite !app_assoc_s.
Qed.

Lemma prefix_app (s t : string) : String.prefix s (s +:+ t) = true.
Proof.
  induction s as [|c s IH]; simpl; [by destruct t|].
  destruct (ascii_dec c c); [done|congruence].
Qed.

Lemma no_colon_app a b : no_colon a = true → no_colon b = true → no_colon (a +:+ b) = true.
Proof.
  induction a as [|c a IH]; simpl; [done|].
  intros [Hc Ha]%andb_prop Hb. rewrite Hc. simpl. auto.
Qed.

Lemma no_colon_pretty_N_go x s : no_colon s = true → no_colon (pretty_N_go x s) = true.
Proof.
  revert s. induction (N.lt_wf_0 x) as [x _ IH]; intros s Hs.
  destruct (decide (x = 0)%N) as [->|Hx]; [by rewrite pretty_N_go_0|].
  rewrite pretty_N_go_step by lia.
  apply IH; [apply N.div_lt; lia|].
  simpl. rewrite Hs, andb_true_r.
  unfold pretty_N_char. by repeat case_match.
Qed.

Lemma no_colon_pretty_N (x : N) : no_colon (pretty x) = true.
Proof.
  unfold pretty, pretty_N. case_decide; [done|].
  by apply no_colon_pretty_N_go.
Qed.

Lemma no_colon_pretty_Z (x : Z) : no_colon (pretty x) = true.
Proof.
  destruct x as [|p|p]; unfold pretty, pretty_Z; simpl; [done|..].
  - apply no_colon_pretty_N.
  - apply (no_colon_pretty_N (N.pos p)).
Qed.

Lemma no_colon_kindName k : no_colon (kindName k) = true.
Proof. by destruct k. Qed.

(** Two colon-free fields followed by a colon: a prefix test has to
    line the two colons up. *)
Lemma prefix_field a b x y :
  no_colon a = true → no_colon b = true →
  String.prefix (a +:+ ":" +:+ x) (b +:+ ":" +:+ y) = true →
  a = b ∧ String.prefix x y = true.
Proof.
  revert b. induction a as [|c a IH]; intros [|d b]; simpl.
  - intros _ _ H. split; [done|]. by destruct (ascii_dec ":"%char ":"%char).
  - intros _ [Hd _]%andb_prop. destruct (ascii_dec ":"%char d) as [<-|]; [|intros [=]].
    vm_compute in Hd. discriminate.
  - intros [Hc _]%andb_prop _. destruct (ascii_dec c ":"%char) as [->|]; [|intros [=]].
    vm_compute in Hc. discriminate.
  - intros [_ Ha]%andb_prop [_ Hb]%andb_prop.
    destruct (ascii_dec c d) as [->|]; [|intros [=]].
    intros H. destruct (IH b Ha Hb H) as [-> ?]. done.
Qed.

Lemma eq_field a b x y :
  no_colon a = true → no_colon b = true →
  a +:+ ":" +:+ x = b +:+ ":" +:+ y → a = b ∧ x = y.
Proof.
  revert b. induction a as [|c a IH]; intros [|d b]; simpl.
  - intros _ _ [= ->]. done.
  - intros _ [Hd _]%andb_prop [= <- _]. vm_compute in Hd. discriminate.
  - intros [Hc _]%andb_prop _ [= -> _]. vm_compute in Hc. discriminate.
  - intros [_ Ha]%andb_prop [_ Hb]%andb_prop [= -> H].
    destruct (IH b Ha Hb H) as [-> ->]. done.
Qed.

Lemma kindName_inj k1 k2 : kindName k1 = kindName k2 → k1 = k2.
Proof. by destruct k1, k2. Qed.

(** A key belongs to a subject exactly when it starts with the
    subject's prefix. *)
Lemma prefix_voteKey k1 i1 k2 i2 u :
  String.prefix (subjectPrefix k1 i1) (voteKey k2 i2 u) = true ↔ k1 = k2 ∧ i1 = i2.
Proof.
  split.
  - unfold subjectPrefix, voteKey. intros H.
    apply prefix_field in H as [Hk H]; auto using no_colon_kindName.
    apply kindName_inj in Hk as ->.
    apply (prefix_field _ _ "user:" ("user:" +:+ pretty u)) in H as [Hi _];
      auto using no_colon_pretty_Z.
    by apply (inj pretty) in Hi as ->.
  - intros [-> ->]. rewrite voteKey_prefix. apply prefix_app.
Qed.

(** The string key is as good as the triple it is built from. *)
Lemma voteKey_inj k1 i1 u1 k2 i2 u2 :
  voteKey k1 i1 u1 = voteKey k2 i2 u2 → k1 = k2 ∧ i1 = i2 ∧ u1 = u2.
Proof.
  unfold voteKey. intros H.
  apply eq_field in H as [Hk H]; auto using no_colon_kindName.
  apply (eq_field _ _ ("user:" +:+ pretty u1) ("user:" +:+ pretty u2)) in H as [Hi Hu];
    auto using no_colon_pretty_Z.
  apply kindName_inj in Hk. apply (inj pretty) in Hi.
  apply (inj (String.app "user:")), (inj pretty) in Hu. done.
Qed.

End VoteKeyFacts.

(** ** Facts about the ordered map *)

Module OMapFacts.
Import OMap.
Section OMapFacts.
Context {V : Type}.
Implicit Types (m : OMap.t V) (v : V).

Lemma get_set_eq k v m : get k (set k v m) = Some v.
Proof.
  induction m as [|[k' v'] m IH]; simpl.
  - by rewrite decide_True.
  - destruct (decide (k = k')) as [->|Hne]; simpl.
    + by rewrite decide_True.
    + by rewrite decide_False.
Qed.

Lemma get_set_ne k k' v m : k ≠ k' → get k' (set k v m) = get k' m.
Proof.
  intros Hne. induction m as [|[k0 v0] m IH]; simpl.
  - by rewrite decide_False.
  - destruct (decide (k = k0)) as [->|Hne0]; simpl.
    + by rewrite !decide_False.
    + by rewrite IH.
Qed.

Lemma get_set k k' v m :
  get k' (set k v m) = if decide (k = k') then Some v else get k' m.
Proof.
  case_decide as H; [subst; apply get_set_eq|by apply get_set_ne].
Qed.

Lemma values_set_new k v m :
  get k m = None → values (set k v m) = values m ++ [v].
Proof.
  unfold values. induction m as [|[k' v'] m IH]; simpl; [done|].
  case_decide; [done|]. intros Hget. simpl. by rewrite IH.
Qed.

End OMapFacts.
End OMapFacts.

(** ** Facts about the sort and the slice *)

Module SortFacts.
Import MemStorage Spec.

Section ByKey.
Context {A : Type} (cmp : A → A → Q) (key : A → Q).
Hypothesis cmp_key : ∀ a b, (cmp a b == key b - key a)%Q.

Lemma cmp_Gt x y : (cmp x y ?= 0)%Q = Gt ↔ (key x < key y)%Q.
Proof.
  rewrite <-Qgt_alt, (cmp_key x y). unfold Qminus.
  symmetry. apply Qlt_minus_iff.
Qed.

Lemma sort_insert_perm x l : sort_insert cmp x l ≡ₚ x :: l.
Proof.
  induction l as [|y l IH]; simpl; [done|].
  destruct (cmp x y ?= 0)%Q; try done.
  rewrite IH. apply perm_swap.
Qed.

Lemma js_sort_perm l : js_sort cmp l ≡ₚ l.
Proof.
  induction l as [|x l IH]; simpl; [done|].
  by rewrite sort_insert_perm, IH.
Qed.

Lemma sort_insert_sorted x l :
  StronglySorted (desc key) l → StronglySorted (desc key) (sort_insert cmp x l).
Proof.
  induction 1 as [|y l Hl IH Hy]; simpl.
  - repeat constructor.
  - destruct (cmp x y ?= 0)%Q eqn:Hc.
    + assert (desc key x y) as Hxy.
      { unfold desc. apply Qnot_lt_le. rewrite <-cmp_Gt. congruence. }
      constructor; [by constructor|]. constructor; [done|].
      eapply Forall_impl; [exact Hy|]. unfold desc. intros z Hz.
      by apply Qle_trans with (key y).
    + assert (desc key x y) as Hxy.
      { unfold desc. apply Qnot_lt_le. rewrite <-cmp_Gt. congruence. }
      constructor; [by constructor|]. constructor; [done|].
      eapply Forall_impl; [exact Hy|]. unfold desc. intros z Hz.
      by apply Qle_trans with (key y).
    + apply cmp_Gt in Hc. constructor; [done|].
      rewrite sort_insert_perm. constructor; [|done].
      unfold desc. by apply Qlt_le_weak.
Qed.

Lemma js_sort_sorted l : StronglySorted (desc key) (js_sort cmp l).
Proof.
  induction l as [|x l IH]; simpl; [constructor|].
  by apply sort_insert_sorted.
Qed.

Lemma sort_insert_filter k x l :
  filter (hasKey key k) (sort_insert cmp x l) = filter (hasKey key k) (x :: l).
Proof.
  induction l as [|y l IH]; simpl; [done|].
  destruct (cmp x y ?= 0)%Q eqn:Hc; try done.
  apply cmp_Gt in Hc.
  rewrite (filter_cons _ y), IH, !filter_cons.
  destruct (decide (hasKey key k x)) as [Hx|Hx], (decide (hasKey key k y)) as [Hy|Hy]; try done.
  unfold hasKey in *. rewrite Hx, Hy in Hc. by apply Qlt_irrefl in Hc.
Qed.

Lemma js_sort_stable k l :
  filter (hasKey key k) (js_sort cmp l) = filter (hasKey key k) l.
Proof.
  induction l as [|x l IH]; simpl; [done|].
  by rewrite sort_insert_filter, !filter_cons, IH.
Qed.

End ByKey.

Lemma byNew_key a b : (byNew a b == newKey b - newKey a)%Q.
Proof.
  unfold byNew, newKey, Z.sub, Qminus.
  by rewrite inject_Z_plus, inject_Z_opp.
Qed.

Lemma byTop_key a b : (byTop a b == topKey b - topKey a)%Q.
Proof.
  unfold byTop, topKey, Qminus.
  rewrite <-inject_Z_opp, <-inject_Z_plus. apply inject_Z_injective. lia.
Qed.

Lemma byHot_key a b : (byHot a b == hotScore b - hotScore a)%Q.
Proof. reflexivity. Qed.

Lemma comparator_key sortBy a b :
  (comparator sortBy a b == sortKey sortBy b - sortKey sortBy a)%Q.
Proof.
  unfold comparator, sortKey. repeat case_decide.
  - apply byNew_key.
  - apply byTop_key.
  - apply byHot_key.
Qed.

Lemma meme_attachAuthor s (l : list Meme.t) :
  MemeWithAuthor.meme <$> (attachAuthor s <$> l) = l.
Proof. induction l as [|x l IH]; csimpl; [done|by rewrite IH]. Qed.

(** What [getMemes] returns, seen as sort-then-slice. *)
Lemma page_sort_slice limit offset sortBy s :
  page limit offset sortBy s =
    js_slice (js_sort (comparator (default "hot" sortBy)) (OMap.values (memes s)))
      (default 0 offset) (default 0 offset + default 10 limit).
Proof.
  unfold page, getMemes, comparator.
  rewrite meme_attachAuthor. by repeat case_decide.
Qed.

Section Slice.
Context {A : Type}.
Implicit Types l : list A.

Lemma js_slice_sublist l start end_ : js_slice l start end_ `sublist_of` l.
Proof.
  unfold js_slice. etrans; [apply sublist_take|apply sublist_drop].
Qed.

Lemma js_slice_past_end l start end_ :
  Z.of_nat (length l) ≤ start → js_slice l start end_ = [].
Proof.
  intros Hge. unfold js_slice.
  destruct (decide (start < 0)) as [?|_]; [lia|].
  rewrite (Z.min_r start) by lia. rewrite Nat2Z.id, drop_ge by lia.
  apply take_nil.
Qed.

Lemma js_slice_all l : js_slice l 0 (0 + Z.of_nat (length l)) = l.
Proof.
  unfold js_slice.
  destruct (decide (0 < 0)) as [?|_]; [lia|].
  destruct (decide (0 + Z.of_nat (length l) < 0)) as [?|_]; [lia|].
  rewrite (Z.min_l 0), Z.min_r by lia. simpl. rewrite drop_0.
  apply take_ge. lia.
Qed.

Lemma StronglySorted_sublist (R : relation A) l1 l2 :
  l1 `sublist_of` l2 → StronglySorted R l2 → StronglySorted R l1.
Proof.
  induction 1 as [|x l1 l2 Hsub IH|x l1 l2 Hsub IH]; intros Hs.
  - constructor.
  - apply StronglySorted_inv in Hs as [Hs Hx].
    constructor; [auto|].
    rewrite Forall_forall in Hx |- *. intros y Hy. apply Hx.
    by eapply sublist_subseteq.
  - apply StronglySorted_inv in Hs as [Hs _]. auto.
Qed.

Lemma filter_sublist (P : A → Prop) `{!∀ x, Decision (P x)} l1 l2 :
  l1 `sublist_of` l2 → filter P l1 `sublist_of` filter P l2.
Proof.
  induction 1 as [|x l1 l2 Hsub IH|x l1 l2 Hsub IH]; [done|..];
    rewrite ?filter_cons; case_decide; auto using sublist_skip, sublist_cons.
Qed.

End Slice.

End SortFacts.

(** ** Facts about the ledger counts *)

Module LedgerFacts.
Import VoteKey MemStorage Spec VoteKeyFacts.

Implicit Types (ledger : gmap string Direction) (d v : Direction).

Lemma size_lookup_pos ledger key v : ledger !! key = Some v → (0 < size ledger)%nat.
Proof.
  intros Hl. destruct (size ledger) eqn:Hs; [|lia].
  apply map_size_empty_inv in Hs. subst. by rewrite lookup_empty in Hl.
Qed.

Lemma ofSubject_voteKey k id d k0 id0 u v :
  ofSubject k id d (voteKey k0 id0 u, v) ↔ k = k0 ∧ id = id0 ∧ v = d.
Proof. unfold ofSubject. simpl. rewrite prefix_voteKey. tauto. Qed.

(** The effect of [ledger.delete(key)] on a count. *)
Lemma activeVotes_delete_key k id d key ledger :
  activeVotes k id d (delete key ledger) =
    activeVotes k id d ledger
    - match ledger !! key with
      | Some v0 => indicator (ofSubject k id d (key, v0))
      | None => 0
      end.
Proof.
  unfold activeVotes, indicator.
  rewrite map_filter_delete, map_size_delete, map_lookup_filter.
  destruct (ledger !! key) as [v0|] eqn:Hl; simpl; [|lia].
  case_guard as HP; simpl.
  - assert (0 < size (filter (ofSubject k id d) ledger))%nat; [|lia].
    eapply size_lookup_pos. apply map_lookup_filter_Some. eauto.
  - lia.
Qed.

(** The effect of [ledger.set(key, v)] on a count. *)
Lemma activeVotes_insert_key k id d key v ledger :
  activeVotes k id d (<[key:=v]> ledger) =
    activeVotes k id d ledger
    - match ledger !! key with
      | Some v0 => indicator (ofSubject k id d (key, v0))
      | None => 0
      end
    + indicator (ofSubject k id d (key, v)).
Proof.
  rewrite <-activeVotes_delete_key.
  rewrite <-(insert_delete_eq ledger).
  assert (delete key ledger !! key = None) as Hnone by apply lookup_delete_eq.
  revert Hnone. generalize (delete key ledger). intros m Hm.
  unfold activeVotes, indicator. rewrite map_filter_insert.
  case_decide.
  - rewrite map_size_insert_None; [lia|].
    apply map_lookup_filter_None. by left.
  - rewrite map_filter_delete, map_size_delete_None; [lia|].
    apply map_lookup_filter_None. by left.
Qed.

Lemma indicator_ofSubject k id d k0 id0 u v :
  indicator (ofSubject k id d (voteKey k0 id0 u, v)) =
    if decide (k = k0 ∧ id = id0) then indicator (v = d) else 0.
Proof.
  unfold indicator. pose proof (ofSubject_voteKey k id d k0 id0 u v).
  repeat case_decide; try done; tauto.
Qed.

(** The same two facts for a vote key: only the counts of the voted
    subject move. *)
Lemma activeVotes_delete k id d k0 id0 u ledger :
  activeVotes k id d (delete (voteKey k0 id0 u) ledger) =
    activeVotes k id d ledger
    - (if decide (k = k0 ∧ id = id0)
       then indicator (ledger !! voteKey k0 id0 u = Some d) else 0).
Proof.
  rewrite activeVotes_delete_key. f_equal.
  destruct (ledger !! voteKey k0 id0 u) as [v0|].
  - rewrite indicator_ofSubject. unfold indicator.
    repeat case_decide; try done; congruence.
  - unfold indicator. by repeat case_decide.
Qed.

Lemma activeVotes_insert k id d k0 id0 u v ledger :
  activeVotes k id d (<[voteKey k0 id0 u:=v]> ledger) =
    activeVotes k id d ledger
    + (if decide (k = k0 ∧ id = id0)
       then indicator (v = d) - indicator (ledger !! voteKey k0 id0 u = Some d)
       else 0).
Proof.
  rewrite activeVotes_insert_key, indicator_ofSubject.
  destruct (ledger !! voteKey k0 id0 u) as [v0|].
  - rewrite indicator_ofSubject. unfold indicator.
    repeat case_decide; try lia; congruence.
  - unfold indicator. repeat case_decide; try lia; congruence.
Qed.

Lemma activeVotes_empty k id d : activeVotes k id d ∅ = 0.
Proof. unfold activeVotes. by rewrite map_filter_empty. Qed.

End LedgerFacts.

(** ** The counters follow the ledger *)

Module InvFacts.
Import VoteKey MemStorage Spec VoteKeyFacts OMapFacts LedgerFacts.

Lemma new_Inv now : Inv (new now).
Proof.
  split; [split; [|split]|..]; simpl.
  - intros id meme [=].
  - intros id comment [=].
  - intros id resource Hg. rewrite !activeVotes_empty.
    repeat (case_decide; [by injection Hg as <-|]). done.
  - intros. apply activeVotes_empty.
  - intros. apply activeVotes_empty.
  - intros. apply activeVotes_empty.
  - done.
  - done.
  - intros id Hle. rewrite !decide_False by lia. done.
Qed.

Lemma createUser_Inv insertUser now s : Inv s → Inv (createUser insertUser now s).2.
Proof. by intros []. Qed.

Lemma createMeme_Inv insertMeme now s : Inv s → Inv (createMeme insertMeme now s).2.
Proof.
  intros [(Hm & Hc & Hr) Hma Hca Hra Hmi Hci Hri].
  split; [split; [|split]|..]; simpl; try done.
  - intros id meme. rewrite get_set. case_decide as Hid; [|by apply Hm].
    intros [= <-]. subst id. simpl. rewrite !Hma; auto with lia.
  - intros id d. rewrite get_set. case_decide; [done|]. apply Hma.
  - intros id Hle. rewrite get_set, decide_False by lia. apply Hmi. lia.
Qed.

Lemma createComment_Inv insertComment now s :
  Inv s → Inv (createComment insertComment now s).2.
Proof.
  intros [(Hm & Hc & Hr) Hma Hca Hra Hmi Hci Hri].
  split; [split; [|split]|..]; simpl; try done.
  - intros id comment. rewrite get_set. case_decide as Hid; [|by apply Hc].
    intros [= <-]. subst id. simpl. rewrite !Hca; auto with lia.
  - intros id d. rewrite get_set. case_decide; [done|]. apply Hca.
  - intros id Hle. rewrite get_set, decide_False by lia. apply Hci. lia.
Qed.

Lemma createResource_Inv insertResource now s :
  Inv s → Inv (createResource insertResource now s).2.
Proof.
  intros [(Hm & Hc & Hr) Hma Hca Hra Hmi Hci Hri].
  split; [split; [|split]|..]; simpl; try done.
  - intros id resource. rewrite get_set. case_decide as Hid; [|by apply Hr].
    intros [= <-]. subst id. simpl. rewrite !Hra; auto with lia.
  - intros id d. rewrite get_set. case_decide; [done|]. apply Hra.
  - intros id Hle. rewrite get_set, decide_False by lia. apply Hri. lia.
Qed.

(** Rewrites the counts of an updated ledger to the counts of the old
    one, and settles which subject was voted on. *)
Ltac recount He :=
  rewrite ?activeVotes_insert, ?activeVotes_delete;
  unfold indicator; rewrite ?He;
  repeat case_decide; destruct_and?; simplify_eq; try tauto; try lia.

Lemma voteMeme_Inv id userId vote s : Inv s → Inv (voteMeme id userId vote s).2.
Proof.
  intros [(Hm & Hc & Hr) Hma Hca Hra Hmi Hci Hri]. unfold voteMeme.
  destruct (OMap.get id (memes s)) as [meme|] eqn:Hg; [|by split].
  destruct (Hm _ _ Hg) as [Hup Hdown].
  destruct (userVotes s !! voteKey KMeme id userId) as [[|]|] eqn:He, vote; simpl;
    (split; [split; [|split]|..]; simpl; try done;
     [ intros id' meme'; rewrite get_set; case_decide as Hid;
       [ intros [= <-]; subst id'; simpl; recount He
       | intros Hg'; destruct (Hm _ _ Hg'); recount He ]
     | intros id' c Hg'; specialize (Hc _ _ Hg'); recount He
     | intros id' r Hg'; specialize (Hr _ _ Hg'); recount He
     | intros id' d; rewrite get_set; case_decide; [done|];
       intros Hg'; specialize (Hma _ d Hg'); recount He
     | intros id' d Hg'; specialize (Hca _ d Hg'); recount He
     | intros id' d Hg'; specialize (Hra _ d Hg'); recount He
     | intros id' Hle; rewrite get_set; case_decide; [|by auto];
       subst id'; by rewrite Hmi in Hg ]).
Qed.

Lemma voteComment_Inv id userId s : Inv s → Inv (voteComment id userId Up s).2.
Proof.
  intros [(Hm & Hc & Hr) Hma Hca Hra Hmi Hci Hri]. unfold voteComment.
  destruct (OMap.get id (comments s)) as [comment|] eqn:Hg; [|by split].
  pose proof (Hc _ _ Hg) as Hup.
  destruct (userVotes s !! voteKey KComment id userId) as [[|]|] eqn:He; simpl;
    (split; [split; [|split]|..]; simpl; try done;
     [ intros id' m Hg'; destruct (Hm _ _ Hg'); recount He
     | intros id' c; rewrite get_set; case_decide as Hid;
       [ intros [= <-]; subst id'; simpl; recount He
       | intros Hg'; specialize (Hc _ _ Hg'); recount He ]
     | intros id' r Hg'; specialize (Hr _ _ Hg'); recount He
     | intros id' d Hg'; specialize (Hma _ d Hg'); recount He
     | intros id' d; rewrite get_set; case_decide; [done|];
       intros Hg'; specialize (Hca _ d Hg'); recount He
     | intros id' d Hg'; specialize (Hra _ d Hg'); recount He
     | intros id' Hle; rewrite get_set; case_decide; [|by auto];
       subst id'; by rewrite Hci in Hg ]).
Qed.

Lemma voteResource_Inv id userId vote s : Inv s → Inv (voteResource id userId vote s).2.
Proof.
  intros [(Hm & Hc & Hr) Hma Hca Hra Hmi Hci Hri]. unfold voteResource.
  destruct (OMap.get id (resources s)) as [resource|] eqn:Hg; [|by split].
  pose proof (Hr _ _ Hg) as Hvotes.
  destruct (userVotes s !! voteKey KResource id userId) as [[|]|] eqn:He, vote; simpl;
    (split; [split; [|split]|..]; simpl; try done;
     [ intros id' m Hg'; destruct (Hm _ _ Hg'); recount He
     | intros id' c Hg'; specialize (Hc _ _ Hg'); recount He
     | intros id' r; rewrite get_set; case_decide as Hid;
       [ intros [= <-]; subst id'; simpl; recount He
       | intros Hg'; specialize (Hr _ _ Hg'); recount He ]
     | intros id' d Hg'; specialize (Hma _ d Hg'); recount He
     | intros id' d Hg'; specialize (Hca _ d Hg'); recount He
     | intros id' d; rewrite get_set; case_decide; [done|];
       intros Hg'; specialize (Hra _ d Hg'); recount He
     | intros id' Hle; rewrite get_set; case_decide; [|by auto];
       subst id'; by rewrite Hri in Hg ]).
Qed.

(** What one call can do to the ledger. *)
Lemma step_userVotes s o :
  userVotes (step s o) = userVotes s ∨
  (∃ k id userId v, userVotes (step s o) = <[voteKey k id userId:=v]> (userVotes s)) ∨
  (∃ key, userVotes (step s o) = delete key (userVotes s)).
Proof.
  destruct o as [| | | |id u v|id u|id u v]; simpl; auto.
  - unfold voteMeme. destruct (OMap.get id (memes s)); [|by left].
    destruct (userVotes s !! voteKey KMeme id u) as [[|]|], v; simpl; eauto 10.
  - unfold voteComment. destruct (OMap.get id (comments s)); [|by left].
    destruct (userVotes s !! voteKey KComment id u) as [[|]|]; simpl; eauto 10.
  - unfold voteResource. destruct (OMap.get id (resources s)); [|by left].
    destruct (userVotes s !! voteKey KResource id u) as [[|]|], v; simpl; eauto 10.
Qed.

Lemma step_KeysWellFormed s o : KeysWellFormed s → KeysWellFormed (step s o).
Proof.
  intros Hs key v.
  destruct (step_userVotes s o) as [-> | [(k & id & u & v' & ->) | (key' & ->)]].
  - apply Hs.
  - rewrite lookup_insert_Some. intros [[<- _] | [_ Hl]]; eauto.
  - rewrite lookup_delete_Some. intros [_ Hl]. eauto.
Qed.

Lemma run_KeysWellFormed ops s : KeysWellFormed s → KeysWellFormed (run ops s).
Proof.
  revert s. induction ops as [|o ops IH]; intros s Hs; simpl; [done|].
  by apply IH, step_KeysWellFormed.
Qed.

Lemma new_KeysWellFormed now : KeysWellFormed (new now).
Proof. intros key v. simpl. by rewrite lookup_empty. Qed.

(** In a well-formed ledger the entries with a subject's prefix are the
    records of that subject. *)
Lemma ofSubject_record s k id d key v :
  KeysWellFormed s → userVotes s !! key = Some v →
  ofSubject k id d (key, v) ↔ (∃ userId, key = voteKey k id userId) ∧ v = d.
Proof.
  intros Hwf Hl. destruct (Hwf _ _ Hl) as (k0 & id0 & u0 & ->).
  rewrite ofSubject_voteKey. split.
  - intros (-> & -> & ->). eauto.
  - intros [[u Hkey] ->]. apply voteKey_inj in Hkey as (-> & -> & _). done.
Qed.

Lemma step_Inv s o : Inv s → Inv (step s o).
Proof.
  intros Hs. destruct o; unfold step.
  - by apply createUser_Inv.
  - by apply createMeme_Inv.
  - by apply createComment_Inv.
  - by apply createResource_Inv.
  - by apply voteMeme_Inv.
  - by apply voteComment_Inv.
  - by apply voteResource_Inv.
Qed.

Lemma run_Inv ops s : Inv s → Inv (run ops s).
Proof.
  revert s. induction ops as [|o ops IH]; intros s Hs; simpl; [done|].
  by apply IH, step_Inv.
Qed.

End InvFacts.

(** ** The feed ranking *)

Import VoteKey MemStorage Spec Examples.
Import VoteKeyFacts OMapFacts SortFacts LedgerFacts InvFacts.

Lemma page_sorted limit offset sortBy s :
  StronglySorted (desc (sortKey (default "hot" sortBy))) (page limit offset sortBy s).
Proof.
  rewrite page_sort_slice.
  eapply StronglySorted_sublist; [apply js_slice_sublist|].
  apply js_sort_sorted, comparator_key.
Qed.

Lemma page_whole sortBy s :
  page (Some (memeCount s)) (Some 0) sortBy s =
    js_sort (comparator (default "hot" sortBy)) (OMap.values (memes s)).
Proof.
  rewrite page_sort_slice. simpl. unfold memeCount.
  rewrite <-(Permutation_length (js_sort_perm (comparator (default "hot" sortBy)) _)).
  apply js_slice_all.
Qed.

(** C1, as the code has it: under the 'hot' policy (the default) every
    page of [getMemes] is in descending order of
    (upvotes - downvotes) + creationTimestampMilliseconds / 1_000_000,
    and the page that spans the whole collection is a permutation of
    the stored memes. *)
Theorem getMemes_hot_descending s limit offset sortBy :
  sortBy = None ∨ sortBy = Some "hot" →
  StronglySorted (desc hotScore) (page limit offset sortBy s) ∧
  page (Some (memeCount s)) (Some 0) sortBy s ≡ₚ OMap.values (memes s).
Proof.
  intros Hhot. split.
  - pose proof (page_sorted limit offset sortBy s) as Hs.
    by destruct Hhot as [-> | ->].
  - rewrite page_whole. apply js_sort_perm.
Qed.

Lemma getMemes_hot_descending_witness :
  (@None string = None ∨ None = Some "hot") ∧
  StronglySorted (desc hotScore) (page None None None feedExample) ∧
  page (Some (memeCount feedExample)) (Some 0) None feedExample
    ≡ₚ OMap.values (memes feedExample).
Proof.
  split; [by left|]. apply (getMemes_hot_descending feedExample None None None).
  by left.
Defined.

(** C1, as the spec words it, fails: with the creation time in seconds
    the meme with one up-vote would outrank the meme created 2000
    seconds later; the code puts the later meme first. *)
Lemma hot_seconds_counterexample :
  Meme.id <$> page None None None feedExample = [2; 1] ∧
  ¬ StronglySorted (desc hotScoreSeconds) (page None None None feedExample).
Proof.
  split; [by vm_compute|].
  intros Hs. apply StronglySorted_inv in Hs as [_ Hall].
  apply Forall_inv in Hall. vm_compute in Hall. by apply Hall.
Qed.

(** ** The ledger and the counters *)

(** C2: after any sequence of create and vote calls on a newly
    constructed store (a call that throws leaves the store as it was),
    every meme's upvotes and downvotes are the numbers of its active up
    and down records, every comment's upvotes is the number of its
    active up records, and every resource's votes is the number of its
    active up records minus the number of its active down records; the
    records are the ledger entries, each keyed by a (kind, id, user)
    triple. *)
Theorem counters_follow_ledger now ops :
  Consistent (run ops (new now)) ∧ KeysWellFormed (run ops (new now)).
Proof.
  split.
  - apply inv_consistent, run_Inv, new_Inv.
  - apply run_KeysWellFormed, new_KeysWellFormed.
Qed.

(** C3: [voteMeme] on a stored meme follows the toggle/switch state
    machine (no prior record: record [d], [d] counter plus 1; prior
    record [d]: delete it, [d] counter minus 1; prior record of the
    other direction: overwrite it, old counter minus 1, [d] counter plus
    1), and on a meme with counters (0,0): user 1 up gives (1,0), up
    again (0,0), down (0,1), then user 2 up (1,1). *)
Theorem voteMeme_state_machine s id userId d meme :
  OMap.get id (memes s) = Some meme →
  (∃ meme',
     let s' := (voteMeme id userId d s).2 in
     let key := voteKey KMeme id userId in
     (voteMeme id userId d s).1 = inr meme' ∧
     OMap.get id (memes s') = Some meme' ∧
     match userVotes s !! key with
     | None =>
         userVotes s' = <[key:=d]> (userVotes s) ∧
         counter d meme' = counter d meme + 1 ∧
         counter (opposite d) meme' = counter (opposite d) meme
     | Some d' =>
         if decide (d' = d) then
           userVotes s' = delete key (userVotes s) ∧
           counter d meme' = counter d meme - 1 ∧
           counter (opposite d) meme' = counter (opposite d) meme
         else
           userVotes s' = <[key:=d]> (userVotes s) ∧
           counter d' meme' = counter d' meme - 1 ∧
           counter d meme' = counter d meme + 1
     end) ∧
  (memeCounters 1 memeA = Some (0, 0) ∧
   memeCounters 1 (run [OpVoteMeme 1 1 Up] memeA) = Some (1, 0) ∧
   memeCounters 1 (run [OpVoteMeme 1 1 Up; OpVoteMeme 1 1 Up] memeA) = Some (0, 0) ∧
   memeCounters 1
     (run [OpVoteMeme 1 1 Up; OpVoteMeme 1 1 Up; OpVoteMeme 1 1 Down] memeA)
     = Some (0, 1) ∧
   memeCounters 1
     (run [OpVoteMeme 1 1 Up; OpVoteMeme 1 1 Up; OpVoteMeme 1 1 Down;
           OpVoteMeme 1 2 Up] memeA)
     = Some (1, 1)).
Proof.
  intros Hg. split; [|by vm_compute].
  unfold voteMeme. rewrite Hg.
  destruct (userVotes s !! voteKey KMeme id userId) as [[|]|] eqn:He, d; simpl;
    eexists; (split; [reflexivity|]); rewrite get_set_eq;
    (split; [reflexivity|]); simpl; repeat split; lia.
Qed.

Lemma voteMeme_state_machine_witness :
  OMap.get 1 (memes memeA) = Some (Meme.mk 1 None "a.png" None 0 0 t0) ∧
  memeCounters 1 (voteMeme 1 1 Up memeA).2 = Some (1, 0).
Proof.
  split; [reflexivity|].
  destruct (voteMeme_state_machine memeA 1 1 Up (Meme.mk 1 None "a.png" None 0 0 t0)
              eq_refl) as [_ (_ & H & _)].
  exact H.
Defined.

(** C4: [voteResource] on a stored resource changes [votes] by the
    signed value of the record it leaves (up +1, down -1, none 0) minus
    the signed value of the record it found; and a resource at 0 goes
    to 1, -1, 0 when one user votes up, down, down. *)
Theorem voteResource_signed_delta s id userId d resource :
  OMap.get id (resources s) = Some resource →
  (∃ resource',
     let s' := (voteResource id userId d s).2 in
     let key := voteKey KResource id userId in
     let origin := userVotes s !! key in
     let destination := userVotes s' !! key in
     (voteResource id userId d s).1 = inr resource' ∧
     OMap.get id (resources s') = Some resource' ∧
     destination = (if decide (origin = Some d) then None else Some d) ∧
     Resource.votes resource' =
       Resource.votes resource + (signed destination - signed origin)) ∧
  (resourceVotes 1 (new t0) = Some 0 ∧
   resourceVotes 1 (run [OpVoteResource 1 1 Up] (new t0)) = Some 1 ∧
   resourceVotes 1 (run [OpVoteResource 1 1 Up; OpVoteResource 1 1 Down] (new t0))
     = Some (-1) ∧
   resourceVotes 1
     (run [OpVoteResource 1 1 Up; OpVoteResource 1 1 Down; OpVoteResource 1 1 Down]
        (new t0))
     = Some 0).
Proof.
  intros Hg. split; [|by vm_compute].
  unfold voteResource. rewrite Hg.
  destruct (userVotes s !! voteKey KResource id userId) as [[|]|] eqn:He, d; simpl;
    eexists; (split; [reflexivity|]); rewrite get_set_eq;
    (split; [reflexivity|]); simpl;
    rewrite ?lookup_insert_eq, ?lookup_delete_eq; simpl; split; (done || lia).
Qed.

Lemma voteResource_signed_delta_witness :
  resourceVotes 1 (new t0) = Some 0 ∧
  resourceVotes 1 (run [OpVoteResource 1 1 Up] (new t0)) = Some 1.
Proof.
  split; [reflexivity|].
  destruct (voteResource_signed_delta (new t0) 1 1 Up
              (newResource (hd (InsertResource.mk "" None None None None) seeds) 1 t0)
              eq_refl) as [_ (_ & H & _)].
  exact H.
Defined.

(** C5: a vote on an id that is not in the store throws the not-found
    error before anything is written: the store that is left, with its
    ledger and every counter, is the store that was there. *)
Theorem vote_not_found s id userId d :
  (OMap.get id (memes s) = None →
   voteMeme id userId d s = (inl (MkError "Meme not found"), s)) ∧
  (OMap.get id (comments s) = None →
   voteComment id userId d s = (inl (MkError "Comment not found"), s)) ∧
  (OMap.get id (resources s) = None →
   voteResource id userId d s = (inl (MkError "Resource not found"), s)).
Proof.
  unfold voteMeme, voteComment, voteResource.
  repeat split; intros ->; reflexivity.
Qed.

Lemma vote_not_found_witness :
  voteMeme 99 7 Up memeA = (inl (MkError "Meme not found"), memeA) ∧
  voteComment 99 7 Up memeA = (inl (MkError "Comment not found"), memeA) ∧
  voteResource 99 7 Down memeA = (inl (MkError "Resource not found"), memeA).
Proof.
  destruct (vote_not_found memeA 99 7 Up) as (Hm & Hc & _).
  destruct (vote_not_found memeA 99 7 Down) as (_ & _ & Hr).
  split; [apply Hm; reflexivity|].
  split; [apply Hc; reflexivity|apply Hr; reflexivity].
Defined.

(** ** Directions the subject does not take *)

(** C6, as the spec words it, fails: a 'down' on a comment is not
    rejected.  [voteComment] called with [Down] returns the comment with
    its counter raised and stores the record, and the comment route
    answers a request for 'down' with status 200 after casting 'up'. *)
Lemma comment_down_counterexample :
  (∃ comment,
     (voteComment 1 7 Down memeA).1 = inr comment ∧
     Comment.upvotes comment = 1 ∧
     userVotes memeA !! voteKey KComment 1 7 = None ∧
     userVotes (voteComment 1 7 Down memeA).2 !! voteKey KComment 1 7 = Some Down) ∧
  (∃ comment,
     (commentVoteRoute 1 alice (Some "down") memeA).1 = Json 200 comment ∧
     Comment.upvotes comment = 1 ∧
     userVotes (commentVoteRoute 1 alice (Some "down") memeA).2
       !! voteKey KComment 1 7 = Some Up).
Proof. split; eexists; by vm_compute. Qed.

(** C6, as the code has it: there is no invalid-direction error.  The
    comment route ignores the direction in the request and casts 'up':
    on a stored comment it answers 200 and toggles the user's up record
    (plus 1 when there was none, minus 1 when there was one).  The meme
    and resource routes answer a vote that is neither 'up' nor 'down'
    with status 400 and leave the store as it was. *)
Theorem illegal_direction_handling s id user vote :
  (∀ comment, OMap.get id (comments s) = Some comment →
     ∃ comment',
       let s' := (commentVoteRoute id user vote s).2 in
       let key := voteKey KComment id (User.id user) in
       (commentVoteRoute id user vote s).1 = Json 200 comment' ∧
       OMap.get id (comments s') = Some comment' ∧
       if decide (userVotes s !! key = Some Up) then
         userVotes s' = delete key (userVotes s) ∧
         Comment.upvotes comment' = Comment.upvotes comment - 1
       else
         userVotes s' = <[key:=Up]> (userVotes s) ∧
         Comment.upvotes comment' = Comment.upvotes comment + 1) ∧
  (vote ≠ Some "up" → vote ≠ Some "down" →
   memeVoteRoute id (Some user) vote s = (Message 400 "Invalid vote type", s) ∧
   resourceVoteRoute id user vote s = (Message 400 "Invalid vote data", s)).
Proof.
  split.
  - intros comment Hg. unfold commentVoteRoute, voteComment. rewrite Hg.
    case_decide; simpl; eexists; (split; [reflexivity|]);
      rewrite get_set_eq; done.
  - intros Hup Hdown.
    assert (parseVote vote = None) as Hp.
    { unfold parseVote. destruct vote as [v|]; [|done].
      repeat case_decide; congruence. }
    unfold memeVoteRoute, resourceVoteRoute. by rewrite Hp.
Qed.

Lemma illegal_direction_handling_witness :
  (∃ comment',
     (commentVoteRoute 1 alice (Some "down") memeA).1 = Json 200 comment' ∧
     Comment.upvotes comment' = 1) ∧
  memeVoteRoute 1 (Some alice) (Some "sideways") memeA
    = (Message 400 "Invalid vote type", memeA) ∧
  resourceVoteRoute 1 alice (Some "sideways") memeA
    = (Message 400 "Invalid vote data", memeA).
Proof.
  destruct (illegal_direction_handling memeA 1 alice (Some "down")) as [Hc _].
  destruct (illegal_direction_handling memeA 1 alice (Some "sideways")) as [_ Hr].
  split.
  - destruct (Hc (Comment.mk 1 (Some 1) None "first" None 0 t0) eq_refl)
      as (comment' & H1 & _ & H2).
    exists comment'. split; [exact H1|]. apply H2.
  - apply Hr; discriminate.
Defined.

(** ** Voting twice *)

Lemma set_set_same {V} k (v v' : V) (m : OMap.t V) :
  OMap.get k m = Some v → OMap.set k v (OMap.set k v' m) = m.
Proof.
  induction m as [|[k0 v0] m IH]; simpl; [done|].
  destruct (decide (k = k0)) as [->|Hne]; simpl.
  - intros [= ->]. by rewrite decide_True.
  - intros Hg. by rewrite decide_False, IH.
Qed.

Lemma fresh_no_record k id userId s :
  Fresh k id s → userVotes s !! voteKey k id userId = None.
Proof.
  intros Hfresh.
  destruct (userVotes s !! voteKey k id userId) as [v|] eqn:He; [|done].
  specialize (Hfresh v). unfold activeVotes in Hfresh.
  assert (0 < size (filter (ofSubject k id v) (userVotes s)))%nat; [|lia].
  eapply size_lookup_pos, map_lookup_filter_Some. split; [exact He|].
  by apply ofSubject_voteKey.
Qed.

(** Closes either goal left when a store is compared field by field
    after a vote and its undoing: the ledger, or the entity map. *)
Ltac restored :=
  first
    [ by apply delete_insert_id
    | (etrans; [|by apply set_set_same]); do 2 f_equal;
      unfold Meme.with_upvotes, Meme.with_downvotes, Comment.with_upvotes,
        Resource.with_votes;
      simpl; f_equal; lia ].

Lemma voteMeme_twice s id userId d meme :
  OMap.get id (memes s) = Some meme →
  userVotes s !! voteKey KMeme id userId = None →
  (voteMeme id userId d (voteMeme id userId d s).2).2 = s.
Proof.
  intros Hg He. unfold voteMeme at 2. rewrite Hg, He.
  destruct d; simpl; unfold voteMeme; simpl;
    rewrite get_set_eq, lookup_insert_eq; simpl;
    destruct s, meme; unfold with_memes, with_userVotes; simpl in *; f_equal;
    restored.
Qed.

Lemma voteComment_twice s id userId d comment :
  OMap.get id (comments s) = Some comment →
  userVotes s !! voteKey KComment id userId = None →
  (voteComment id userId d (voteComment id userId d s).2).2 = s.
Proof.
  intros Hg He. unfold voteComment at 2. rewrite Hg, He. simpl.
  unfold voteComment; simpl.
  rewrite get_set_eq, lookup_insert_eq, decide_True by done. simpl.
  destruct s, comment; unfold with_comments, with_userVotes; simpl in *; f_equal;
    restored.
Qed.

Lemma voteResource_twice s id userId d resource :
  OMap.get id (resources s) = Some resource →
  userVotes s !! voteKey KResource id userId = None →
  (voteResource id userId d (voteResource id userId d s).2).2 = s.
Proof.
  intros Hg He. unfold voteResource at 2. rewrite Hg, He.
  destruct d; simpl; unfold voteResource; simpl;
    rewrite get_set_eq, lookup_insert_eq; simpl;
    destruct s, resource; unfold with_resources, with_userVotes; simpl in *; f_equal;
    restored.
Qed.

(** C7: on a stored subject without any active vote record, the same
    vote cast twice by one user (either direction on a meme or a
    resource, 'up' on a comment) gives back the subject with its
    original counters, leaves no record for that subject and user, and
    leaves the subject without any active record. *)
Theorem double_vote_restores s id userId d :
  (∀ meme, OMap.get id (memes s) = Some meme → Fresh KMeme id s →
     let s2 := (voteMeme id userId d (voteMeme id userId d s).2).2 in
     OMap.get id (memes s2) = Some meme ∧
     userVotes s2 !! voteKey KMeme id userId = None ∧
     Fresh KMeme id s2) ∧
  (∀ comment, OMap.get id (comments s) = Some comment → Fresh KComment id s →
     let s2 := (voteComment id userId Up (voteComment id userId Up s).2).2 in
     OMap.get id (comments s2) = Some comment ∧
     userVotes s2 !! voteKey KComment id userId = None ∧
     Fresh KComment id s2) ∧
  (∀ resource, OMap.get id (resources s) = Some resource → Fresh KResource id s →
     let s2 := (voteResource id userId d (voteResource id userId d s).2).2 in
     OMap.get id (resources s2) = Some resource ∧
     userVotes s2 !! voteKey KResource id userId = None ∧
     Fresh KResource id s2).
Proof.
  split; [|split]; intros x Hg Hfresh; simpl;
    pose proof (fresh_no_record _ _ userId _ Hfresh) as He.
  - by rewrite (voteMeme_twice _ _ _ _ _ Hg He).
  - by rewrite (voteComment_twice _ _ _ _ _ Hg He).
  - by rewrite (voteResource_twice _ _ _ _ _ Hg He).
Qed.

Lemma fresh_memeA k id : Fresh k id memeA.
Proof. intros d. apply activeVotes_empty. Qed.

Lemma double_vote_restores_witness :
  memeCounters 1 (voteMeme 1 7 Down (voteMeme 1 7 Down memeA).2).2 = Some (0, 0) ∧
  userVotes (voteComment 1 7 Up (voteComment 1 7 Up memeA).2).2
    !! voteKey KComment 1 7 = None ∧
  resourceVotes 2 (voteResource 2 7 Down (voteResource 2 7 Down memeA).2).2 = Some 0.
Proof.
  destruct (double_vote_restores memeA 1 7 Down) as (Hm & Hc & _).
  destruct (double_vote_restores memeA 2 7 Down) as (_ & _ & Hr).
  destruct (Hm _ eq_refl (fresh_memeA _ _)) as (Hm1 & _).
  destruct (Hc _ eq_refl (fresh_memeA _ _)) as (_ & Hc2 & _).
  destruct (Hr _ eq_refl (fresh_memeA _ _)) as (Hr1 & _).
  unfold memeCounters, resourceVotes.
  split; [by rewrite Hm1|]. split; [exact Hc2|by rewrite Hr1].
Defined.

(** ** Stability, pagination and the default policy *)

Module Binary64Facts.
Import MemStorage SortFacts.
Import Floats.PrimFloat Floats.SpecFloat Floats.FloatOps.

(** Two spec floats that compare equal are both zero, the same
    infinity or the same finite float. *)
Lemma SFeqb_inv x y :
  SFeqb x y = true →
  match x, y with
  | S754_zero _, S754_zero _ => True
  | S754_infinity sx, S754_infinity sy => sx = sy
  | S754_finite sx mx ex, S754_finite sy my ey => sx = sy ∧ mx = my ∧ ex = ey
  | _, _ => False
  end.
Proof.
  unfold SFeqb.
  destruct x as [sx|sx| |sx mx ex], y as [sy|sy| |sy my ey]; simpl; try done;
    try (by destruct sx, sy); try (by destruct sx); try (by destruct sy).
  intros Heq.
  destruct sx, sy; try done; destruct (ex ?= ey) eqn:He; try done;
    apply Z.compare_eq in He as ->;
    destruct (Pos.compare_cont Eq mx my) eqn:Hm; try done;
    by apply Pos.compare_eq in Hm as ->.
Qed.

(** The difference of two equal doubles is not positive: it is 0, or
    NaN for two infinities. *)
Lemma sub_eq_not_pos (x y : float) :
  (x =? y)%float = true → (0 <? y - x)%float = false.
Proof.
  rewrite FloatAxioms.eqb_spec, FloatAxioms.ltb_spec, FloatAxioms.sub_spec.
  intros Heq%SFeqb_inv. unfold SFltb, FloatAxioms.SF64sub.
  change (Prim2SF 0) with (S754_zero false).
  destruct (Prim2SF x) as [sx|sx| |sx mx ex], (Prim2SF y) as [sy|sy| |sy my ey];
    try done.
  - by destruct sx, sy.
  - subst sy. by destruct sx.
  - destruct Heq as (-> & -> & ->). simpl. by rewrite Z.sub_diag.
Qed.

Lemma eqb_same_key (x y k : float) :
  (x =? k)%float = true → (y =? k)%float = true → (x =? y)%float = true.
Proof.
  rewrite !FloatAxioms.eqb_spec. intros Hx%SFeqb_inv Hy%SFeqb_inv.
  destruct (Prim2SF x) as [sx|sx| |sx mx ex], (Prim2SF y) as [sy|sy| |sy my ey],
    (Prim2SF k) as [sk|sk| |sk mk ek]; try done.
  - subst. unfold SFeqb. simpl. by destruct sk.
  - destruct Hx as (-> & -> & ->), Hy as (-> & -> & ->).
    unfold SFeqb. simpl. rewrite Z.compare_refl, Pos.compare_cont_refl.
    by destruct sk.
Qed.

Lemma sign_Gt v : (Binary64.sign v ?= 0)%Q = Gt → (0 <? v)%float = true.
Proof.
  unfold Binary64.sign. destruct (0 <? v)%float; [done|].
  by destruct (v <? 0)%float.
Qed.

(** A sort is stable on every set of elements that the comparator does
    not tell apart. *)
Section StableOn.
Context {A : Type} (cmp : A → A → Q) (P : A → Prop) `{!∀ a, Decision (P a)}.
Hypothesis cmp_P : ∀ x y, P x → P y → (cmp x y ?= 0)%Q ≠ Gt.

Lemma sort_insert_stable_on x l :
  filter P (sort_insert cmp x l) = filter P (x :: l).
Proof.
  induction l as [|y l IH]; simpl; [done|].
  destruct (cmp x y ?= 0)%Q eqn:Hc; try done.
  rewrite (filter_cons _ y), IH, !filter_cons.
  destruct (decide (P x)) as [Hx|Hx], (decide (P y)) as [Hy|Hy]; try done.
  by destruct (cmp_P x y Hx Hy).
Qed.

Lemma js_sort_stable_on l : filter P (js_sort cmp l) = filter P l.
Proof.
  induction l as [|x l IH]; simpl; [done|].
  by rewrite sort_insert_stable_on, !filter_cons, IH.
Qed.

End StableOn.

Lemma comparator64_key sortBy a b :
  Binary64.comparator sortBy a b
  = (Binary64.sortKey sortBy b - Binary64.sortKey sortBy a)%float.
Proof. unfold Binary64.comparator, Binary64.sortKey. by repeat case_decide. Qed.

Lemma comparator_ties sortBy k x y :
  Binary64.hasKey (Binary64.sortKey sortBy) k x →
  Binary64.hasKey (Binary64.sortKey sortBy) k y →
  (Binary64.sign (Binary64.comparator sortBy x y) ?= 0)%Q ≠ Gt.
Proof.
  unfold Binary64.hasKey. intros Hx Hy Hgt%sign_Gt.
  rewrite comparator64_key, sub_eq_not_pos in Hgt; [done|].
  by apply eqb_same_key with k.
Qed.

(** What [getMemes] returns, seen as sort-then-slice. *)
Lemma page64_sort_slice limit offset sortBy s :
  Binary64.page limit offset sortBy s =
    js_slice
      (js_sort (fun a b => Binary64.sign (Binary64.comparator (default "hot" sortBy) a b))
         (OMap.values (memes s)))
      (default 0 offset) (default 0 offset + default 10 limit).
Proof.
  unfold Binary64.page, Binary64.getMemes, Binary64.comparator.
  rewrite meme_attachAuthor. by repeat case_decide.
Qed.

Lemma page64_whole sortBy s :
  Binary64.page (Some (Spec.memeCount s)) (Some 0) sortBy s =
    js_sort (fun a b => Binary64.sign (Binary64.comparator (default "hot" sortBy) a b))
      (OMap.values (memes s)).
Proof.
  rewrite page64_sort_slice. simpl. unfold Spec.memeCount.
  rewrite <-(Permutation_length
               (js_sort_perm
                  (fun a b => Binary64.sign (Binary64.comparator (default "hot" sortBy) a b))
                  (OMap.values (memes s)))).
  apply js_slice_all.
Qed.

Lemma page_ties_sublist limit offset sortBy k s :
  filter (Binary64.hasKey (Binary64.sortKey (default "hot" sortBy)) k)
    (Binary64.page limit offset sortBy s)
  `sublist_of` filter (Binary64.hasKey (Binary64.sortKey (default "hot" sortBy)) k)
                 (OMap.values (memes s)).
Proof.
  rewrite page64_sort_slice.
  rewrite <-(js_sort_stable_on _ _ (comparator_ties (default "hot" sortBy) k)
               (OMap.values (memes s))).
  apply filter_sublist, js_slice_sublist.
Qed.

(** Two comparators with the same signs on the elements of a list sort
    it alike. *)
Lemma sort_insert_ext {A} (cmp cmp' : A → A → Q) x l :
  (∀ y, y ∈ l → (cmp x y ?= 0)%Q = (cmp' x y ?= 0)%Q) →
  sort_insert cmp x l = sort_insert cmp' x l.
Proof.
  induction l as [|y l IH]; intros Hsame; simpl; [done|].
  rewrite <-(Hsame y) by apply list_elem_of_here.
  destruct (cmp x y ?= 0)%Q; try done.
  f_equal. apply IH. intros z Hz. apply Hsame. by apply list_elem_of_further.
Qed.

Lemma js_sort_ext {A} (cmp cmp' : A → A → Q) l :
  (∀ x y, x ∈ l → y ∈ l → (cmp x y ?= 0)%Q = (cmp' x y ?= 0)%Q) →
  js_sort cmp l = js_sort cmp' l.
Proof.
  induction l as [|x l IH]; intros Hsame; simpl; [done|].
  rewrite <-IH.
  - apply sort_insert_ext. intros y Hy. rewrite js_sort_perm in Hy.
    apply Hsame; [apply list_elem_of_here|by apply list_elem_of_further].
  - intros y z Hy Hz. apply Hsame; by apply list_elem_of_further.
Qed.

(** On a store where the two comparators of the policy have the same
    signs on the stored memes, the feed in exact arithmetic is the feed
    in binary64. *)
Lemma getMemes_exact limit offset sortBy s :
  Binary64.sameSigns (default "hot" sortBy) (OMap.values (memes s)) = true →
  Binary64.getMemes limit offset sortBy s = getMemes limit offset sortBy s.
Proof.
  intros Hsame.
  assert (js_sort (Spec.comparator (default "hot" sortBy)) (OMap.values (memes s))
          = js_sort
              (fun a b => Binary64.sign (Binary64.comparator (default "hot" sortBy) a b))
              (OMap.values (memes s))) as Hsort.
  { apply js_sort_ext. intros x y Hx Hy.
    unfold Binary64.sameSigns in Hsame. rewrite forallb_forall in Hsame.
    apply list_elem_of_In, Hsame in Hx. rewrite forallb_forall in Hx.
    apply list_elem_of_In, Hx in Hy. by apply bool_decide_eq_true_1 in Hy. }
  revert Hsort. unfold Binary64.getMemes, getMemes, Spec.comparator, Binary64.comparator.
  repeat case_decide; by intros ->.
Qed.

(** On such a store every page of the feed in binary64 is in
    descending order of the exact key of the policy. *)
Lemma page64_sorted limit offset sortBy s :
  Binary64.sameSigns (default "hot" sortBy) (OMap.values (memes s)) = true →
  StronglySorted (Spec.desc (Spec.sortKey (default "hot" sortBy)))
    (Binary64.page limit offset sortBy s).
Proof.
  intros Hsame. unfold Binary64.page. rewrite getMemes_exact by done.
  apply page_sorted.
Qed.

(** The stores of the examples are such stores. *)
Lemma examples_exact :
  Binary64.sameSigns "hot" (OMap.values (memes Examples.feedExample)) = true ∧
  Binary64.sameSigns "new" (OMap.values (memes Examples.feedExample)) = true ∧
  Binary64.sameSigns "top" (OMap.values (memes Examples.feedExample)) = true ∧
  Binary64.sameSigns "hot" (OMap.values (memes Binary64.sameInstant)) = true.
Proof. by vm_compute. Qed.

(** The store [straddle] is not: the two exact hot scores are equal
    and the two doubles are not, so the exact comparator leaves the
    memes in stored order where the code puts the later meme first. *)
Lemma straddle_pages :
  Binary64.sameSigns "hot" (OMap.values (memes Binary64.straddle)) = false ∧
  Meme.id <$> Binary64.page None None None Binary64.straddle = [2; 1] ∧
  Meme.id <$> Spec.page None None None Binary64.straddle = [1; 2].
Proof. by vm_compute. Qed.

End Binary64Facts.

(** C8, on the comparators in binary64: under every policy the memes
    whose sort keys are equal (under 'hot', whose hot scores are equal
    doubles) keep the order they have in the store: on any page they
    form a subsequence of the stored memes of that key, and on the page
    that spans the whole collection they are exactly those, in the same
    order. *)
Theorem getMemes_stable s limit offset sortBy k :
  let key := Binary64.sortKey (default "hot" sortBy) in
  filter (Binary64.hasKey key k) (Binary64.page limit offset sortBy s)
    `sublist_of` filter (Binary64.hasKey key k) (OMap.values (memes s)) ∧
  filter (Binary64.hasKey key k) (Binary64.page (Some (memeCount s)) (Some 0) sortBy s)
    = filter (Binary64.hasKey key k) (OMap.values (memes s)).
Proof.
  intros key. split.
  - apply Binary64Facts.page_ties_sublist.
  - rewrite Binary64Facts.page64_whole.
    apply Binary64Facts.js_sort_stable_on, Binary64Facts.comparator_ties.
Qed.

(** On the store [sameInstant] memes 1 and 3 have equal keys under
    'hot' and 'new' and stay in stored order around meme 2; under 'top'
    all three keys are equal. *)
Lemma sameInstant_pages :
  Meme.id <$> Binary64.page None None None Binary64.sameInstant = [1; 3; 2] ∧
  Meme.id <$> Binary64.page None None (Some "new") Binary64.sameInstant = [1; 3; 2] ∧
  Meme.id <$> Binary64.page None None (Some "top") Binary64.sameInstant = [1; 2; 3] ∧
  Meme.id <$>
    filter (Binary64.hasKey Binary64.hotScore
              (Binary64.hotScore (Meme.mk 1 None "a.png" None 0 0 1700000001000)))
      (Binary64.page None None None Binary64.sameInstant) = [1; 3].
Proof. by vm_compute. Qed.

(** C9, as the spec words it, fails for a negative offset: on one
    stored meme, offset -1 with limit 10 returns that meme. *)
Lemma negative_offset_counterexample :
  memeCount (run [OpCreateMeme (InsertMeme.mk None "a.png" None) t0] (new t0)) = 1 ∧
  Meme.id <$> page (Some 10) (Some (-1)) (Some "new")
                (run [OpCreateMeme (InsertMeme.mk None "a.png" None) t0] (new t0))
    = [1].
Proof. by vm_compute. Qed.

(** C9, as the code has it: [getMemes] sorts the whole collection and
    slices afterwards; an offset at or past the number of memes gives
    the empty list, whatever the policy and the limit; in particular
    policy 'new' with offset the number of memes and limit 10 gives the
    empty list.  Nothing throws. *)
Theorem getMemes_pagination s limit offset sortBy :
  page limit offset sortBy s =
    js_slice (js_sort (comparator (default "hot" sortBy)) (OMap.values (memes s)))
      (default 0 offset) (default 0 offset + default 10 limit) ∧
  (memeCount s ≤ default 0 offset → getMemes limit offset sortBy s = []) ∧
  getMemes (Some 10) (Some (memeCount s)) (Some "new") s = [].
Proof.
  assert (∀ limit offset sortBy,
            memeCount s ≤ default 0 offset → getMemes limit offset sortBy s = [])
    as Hpast.
  { intros l o sb Hle.
    apply (fmap_nil_inv MemeWithAuthor.meme). fold (page l o sb s).
    rewrite page_sort_slice. apply js_slice_past_end.
    rewrite (Permutation_length (js_sort_perm _ _)). exact Hle. }
  split; [apply page_sort_slice|]. split; [apply Hpast|].
  apply Hpast. simpl. lia.
Qed.

Lemma getMemes_pagination_witness :
  memeCount feedExample ≤ 2 ∧ getMemes (Some 5) (Some 2) (Some "top") feedExample = [].
Proof.
  split; [by vm_compute|].
  destruct (getMemes_pagination feedExample (Some 5) (Some 2) (Some "top"))
    as (_ & H & _).
  apply H. by vm_compute.
Defined.

(** C10: a [sortBy] other than 'new' and 'top' is never rejected and
    gives what 'hot' gives, and so does an omitted [sortBy]. *)
Theorem unknown_policy_is_hot s limit offset sortBy :
  sortBy ≠ "new" → sortBy ≠ "top" →
  getMemes limit offset (Some sortBy) s = getMemes limit offset (Some "hot") s ∧
  getMemes limit offset None s = getMemes limit offset (Some "hot") s.
Proof.
  intros Hnew Htop. split; [|reflexivity].
  unfold getMemes. simpl. by rewrite !decide_False.
Qed.

Lemma unknown_policy_is_hot_witness :
  "trending" ≠ "new" ∧ "trending" ≠ "top" ∧
  getMemes None None (Some "trending") feedExample
    = getMemes None None (Some "hot") feedExample.
Proof.
  split; [discriminate|]. split; [discriminate|].
  exact (proj1 (unknown_policy_is_hot feedExample None None "trending"
                  ltac:(discriminate) ltac:(discriminate))).
Defined.

(** * Further properties of the code *)

(** ** Keys, ids and insertion order *)

Module ShapeFacts.
Import MemStorage Queries Accounts Facade Shape OMapFacts.

Section Ordered.
Context {V : Type} (idOf : V → Z).
Implicit Types (m : OMap.t V) (v : V).

Lemma get_elem_of k v m : OMap.get k m = Some v → (k, v) ∈ m.
Proof.
  induction m as [|[k0 v0] m IH]; simpl; [done|].
  case_decide as Hk.
  - intros [= ->]. subst. apply list_elem_of_here.
  - intros Hg. apply list_elem_of_further. auto.
Qed.

Lemma get_None_keys k m : OMap.get k m = None ↔ k ∉ m.*1.
Proof.
  induction m as [|[k0 v0] m IH]; simpl.
  - split; [intros _; apply not_elem_of_nil|done].
  - rewrite not_elem_of_cons. case_decide as Hk.
    + split; [done|]. by intros [? _].
    + rewrite IH. tauto.
Qed.

Lemma elem_of_get k v m : NoDup m.*1 → (k, v) ∈ m → OMap.get k m = Some v.
Proof.
  induction m as [|[k0 v0] m IH]; simpl; [by intros _ ?%elem_of_nil|].
  intros [Hk0 Hnd]%NoDup_cons [Heq|Hin]%elem_of_cons.
  - injection Heq as -> ->. by rewrite decide_True.
  - case_decide as Hk; [|auto]. subst k0. destruct Hk0.
    apply list_elem_of_fmap. by exists (k, v).
Qed.

Lemma set_new k v m : OMap.get k m = None → OMap.set k v m = m ++ [(k, v)].
Proof.
  induction m as [|[k0 v0] m IH]; simpl; [done|].
  case_decide; [done|]. intros Hg. by rewrite IH.
Qed.

Lemma keys_set_existing k v m :
  is_Some (OMap.get k m) → (OMap.set k v m).*1 = m.*1.
Proof.
  induction m as [|[k0 v0] m IH]; simpl; [by intros [? [=]]|].
  case_decide as Hk; [by subst|]. intros Hg. csimpl. by rewrite IH.
Qed.

Lemma elem_of_set_existing k v m kv :
  kv ∈ OMap.set k v m → kv = (k, v) ∨ kv ∈ m.
Proof.
  induction m as [|[k0 v0] m IH]; simpl.
  - intros ->%list_elem_of_singleton. by left.
  - case_decide as Hk.
    + intros [->|Hin]%elem_of_cons; [by left|]. right. by apply list_elem_of_further.
    + intros [->|Hin]%elem_of_cons; [right; apply list_elem_of_here|].
      destruct (IH Hin) as [->|?]; [by left|]. right. by apply list_elem_of_further.
Qed.

Lemma sorted_keys_NoDup (l : list Z) : StronglySorted Z.lt l → NoDup l.
Proof.
  induction 1 as [|x l _ IH Hx]; constructor; [|done].
  intros Hin. rewrite Forall_forall in Hx. specialize (Hx _ Hin). lia.
Qed.

Lemma sorted_snoc (l : list Z) k :
  StronglySorted Z.lt l → Forall (fun x => x < k) l → StronglySorted Z.lt (l ++ [k]).
Proof.
  induction 1 as [|x l Hl IH Hx]; simpl; intros Hall.
  - repeat constructor.
  - apply Forall_cons in Hall as [Hxk Hall]. constructor; [auto|].
    apply Forall_app. split; [done|]. by constructor.
Qed.

Lemma OrderedBelow_get next m k v :
  OrderedBelow idOf next m → OMap.get k m = Some v → k < next ∧ idOf v = k.
Proof.
  intros [_ Hall] Hg. apply get_elem_of in Hg.
  rewrite Forall_forall in Hall. apply (Hall _ Hg).
Qed.

Lemma OrderedBelow_fresh next m k :
  OrderedBelow idOf next m → next ≤ k → OMap.get k m = None.
Proof.
  intros Hm Hle. destruct (OMap.get k m) as [v|] eqn:Hg; [|done].
  apply (OrderedBelow_get _ _ _ _ Hm) in Hg. lia.
Qed.

Lemma OrderedBelow_update next m k v v' :
  OrderedBelow idOf next m → OMap.get k m = Some v → idOf v' = k →
  OrderedBelow idOf next (OMap.set k v' m).
Proof.
  intros [Hs Hall] Hg Hid. split.
  - by rewrite keys_set_existing.
  - apply Forall_forall. intros kv [->|Hin]%elem_of_set_existing.
    + simpl. split; [|done].
      by apply (OrderedBelow_get next m k v).
    + rewrite Forall_forall in Hall. auto.
Qed.

Lemma OrderedBelow_create next m v :
  OrderedBelow idOf next m → idOf v = next →
  OrderedBelow idOf (next + 1) (OMap.set next v m).
Proof.
  intros Hm Hid. pose proof (OrderedBelow_fresh next m next Hm ltac:(lia)) as Hnone.
  destruct Hm as [Hs Hall]. rewrite set_new by done. split.
  - rewrite fmap_app. simpl. apply sorted_snoc; [done|].
    apply Forall_fmap. eapply Forall_impl; [exact Hall|]. simpl. tauto.
  - apply Forall_app. split.
    + eapply Forall_impl; [exact Hall|]. simpl. intros ? [? ?]. split; [lia|done].
    + repeat constructor; simpl; [lia|done].
Qed.

Lemma OrderedBelow_values_sorted next m :
  OrderedBelow idOf next m →
  StronglySorted (fun a b => idOf a < idOf b) (OMap.values m).
Proof.
  intros [Hs Hall]. unfold OMap.values.
  induction m as [|[k v] m IH]; [constructor|].
  rewrite fmap_cons in Hs. apply StronglySorted_inv in Hs as [Hs Hk].
  apply Forall_cons in Hall as [[_ Hv] Hall].
  rewrite map_cons. constructor; [auto|].
  apply Forall_forall. intros b [[k' b'] [-> Hin]]%list_elem_of_fmap.
  rewrite Forall_forall in Hall. destruct (Hall _ Hin) as [_ Hb'].
  rewrite Forall_forall in Hk.
  assert (k' ∈ m.*1) as Hk' by (apply list_elem_of_fmap; by exists (k', b')).
  specialize (Hk _ Hk'). simpl in *. lia.
Qed.

Lemma values_elem_of m v : v ∈ OMap.values m → ∃ k, (k, v) ∈ m.
Proof.
  unfold OMap.values. intros [[k v'] [-> Hin]]%list_elem_of_fmap. eauto.
Qed.

End Ordered.

Lemma new_WellKeyed now : WellKeyed (new now).
Proof.
  split; simpl; (split; [|repeat constructor; simpl; lia]); repeat constructor; lia.
Qed.

Lemma createUser_WellKeyed insertUser now s :
  WellKeyed s → WellKeyed (createUser insertUser now s).2.
Proof.
  intros [Hu Hm Hc Hr]. split; simpl; try done.
  by apply OrderedBelow_create.
Qed.

Lemma createMeme_WellKeyed insertMeme now s :
  WellKeyed s → WellKeyed (createMeme insertMeme now s).2.
Proof.
  intros [Hu Hm Hc Hr]. split; simpl; try done.
  by apply OrderedBelow_create.
Qed.

Lemma createComment_WellKeyed insertComment now s :
  WellKeyed s → WellKeyed (createComment insertComment now s).2.
Proof.
  intros [Hu Hm Hc Hr]. split; simpl; try done.
  by apply OrderedBelow_create.
Qed.

Lemma createResource_WellKeyed insertResource now s :
  WellKeyed s → WellKeyed (createResource insertResource now s).2.
Proof.
  intros [Hu Hm Hc Hr]. split; simpl; try done.
  by apply OrderedBelow_create.
Qed.

Lemma voteMeme_WellKeyed id userId vote s :
  WellKeyed s → WellKeyed (voteMeme id userId vote s).2.
Proof.
  intros [Hu Hm Hc Hr]. unfold voteMeme.
  destruct (OMap.get id (memes s)) as [meme|] eqn:Hg; [|by split].
  pose proof (OrderedBelow_get _ _ _ _ _ Hm Hg) as [_ Hid].
  destruct (userVotes s !! voteKey _ id userId) as [[|]|], vote; simpl;
    (split; simpl; try done; by eapply OrderedBelow_update).
Qed.

Lemma voteComment_WellKeyed id userId vote s :
  WellKeyed s → WellKeyed (voteComment id userId vote s).2.
Proof.
  intros [Hu Hm Hc Hr]. unfold voteComment.
  destruct (OMap.get id (comments s)) as [comment|] eqn:Hg; [|by split].
  pose proof (OrderedBelow_get _ _ _ _ _ Hc Hg) as [_ Hid].
  case_decide; simpl; (split; simpl; try done; by eapply OrderedBelow_update).
Qed.

Lemma voteResource_WellKeyed id userId vote s :
  WellKeyed s → WellKeyed (voteResource id userId vote s).2.
Proof.
  intros [Hu Hm Hc Hr]. unfold voteResource.
  destruct (OMap.get id (resources s)) as [resource|] eqn:Hg; [|by split].
  pose proof (OrderedBelow_get _ _ _ _ _ Hr Hg) as [_ Hid].
  repeat case_decide; simpl; (split; simpl; try done; by eapply OrderedBelow_update).
Qed.

Lemma updateUser_WellKeyed id data now s :
  PartialUser.id data = None → WellKeyed s → WellKeyed (updateUser id data now s).2.
Proof.
  intros Hdata [Hu Hm Hc Hr]. unfold updateUser, getUser.
  destruct (OMap.get id (users s)) as [user|] eqn:Hg; [|by split].
  pose proof (OrderedBelow_get _ _ _ _ _ Hu Hg) as [_ Hid].
  split; simpl; try done. eapply OrderedBelow_update; [done..|].
  simpl. by rewrite Hdata.
Qed.

Lemma step_WellKeyed s o : WellKeyed s → WellKeyed (step s o).
Proof.
  intros Hs. destruct o; unfold step.
  - by apply createUser_WellKeyed.
  - by apply createMeme_WellKeyed.
  - by apply createComment_WellKeyed.
  - by apply createResource_WellKeyed.
  - by apply voteMeme_WellKeyed.
  - by apply voteComment_WellKeyed.
  - by apply voteResource_WellKeyed.
Qed.

Lemma run_WellKeyed ops s : WellKeyed s → WellKeyed (run ops s).
Proof.
  revert s. induction ops as [|o ops IH]; intros s Hs; simpl; [done|].
  by apply IH, step_WellKeyed.
Qed.

End ShapeFacts.

Import Queries Accounts Facade Shape ShapeFacts.

(** X1: in every store reached from the constructor by create and vote
    calls, what a lookup by id returns carries that id: users, memes
    (with the author attached), comments and resources. *)
Theorem lookup_returns_that_id now ops id :
  let s := run ops (new now) in
  (∀ user, getUser id s = Some user → User.id user = id) ∧
  (∀ meme, getMeme id s = Some meme → Meme.id (MemeWithAuthor.meme meme) = id) ∧
  (∀ comment, OMap.get id (comments s) = Some comment → Comment.id comment = id) ∧
  (∀ resource, getResource id s = Some resource → Resource.id resource = id).
Proof.
  intros s. destruct (run_WellKeyed ops (new now) (new_WellKeyed now))
    as [Hu Hm Hc Hr]. fold s in Hu, Hm, Hc, Hr.
  repeat split.
  - intros user Hg. by apply (OrderedBelow_get _ _ _ _ _ Hu Hg).
  - intros meme. unfold getMeme.
    destruct (OMap.get id (memes s)) as [m|] eqn:Hg; [|done].
    intros [= <-]. simpl. by apply (OrderedBelow_get _ _ _ _ _ Hm Hg).
  - intros comment Hg. by apply (OrderedBelow_get _ _ _ _ _ Hc Hg).
  - intros resource Hg. by apply (OrderedBelow_get _ _ _ _ _ Hr Hg).
Qed.

Lemma lookup_returns_that_id_witness :
  getResource 2 (run [OpVoteResource 2 7 Up] (new t0)) ≠ None ∧
  Resource.id <$> getResource 2 (run [OpVoteResource 2 7 Up] (new t0)) = Some 2.
Proof.
  split; [by vm_compute|].
  destruct (lookup_returns_that_id t0 [OpVoteResource 2 7 Up] 2) as (_ & _ & _ & H).
  destruct (getResource 2 (run [OpVoteResource 2 7 Up] (new t0))) as [r|] eqn:Hg;
    [|by vm_compute in Hg].
  simpl. f_equal. by apply H.
Defined.

(** X2: in every such store a creation hands out an id that no stored
    entity of the kind has and that is above all of them, stores the
    new entity under it with zeroed counters, appends it to the
    iteration order and keeps every entity that was stored. *)
Theorem create_hands_out_fresh_id now ops t insertMeme insertComment insertResource insertUser :
  let s := run ops (new now) in
  (let '(meme, s') := createMeme insertMeme t s in
   OMap.get (Meme.id meme) (memes s) = None ∧
   OMap.get (Meme.id meme) (memes s') = Some meme ∧
   Meme.upvotes meme = 0 ∧ Meme.downvotes meme = 0 ∧
   OMap.values (memes s') = OMap.values (memes s) ++ [meme] ∧
   ∀ id m, OMap.get id (memes s) = Some m →
     id < Meme.id meme ∧ OMap.get id (memes s') = Some m) ∧
  (let '(comment, s') := createComment insertComment t s in
   OMap.get (Comment.id comment) (comments s) = None ∧
   OMap.get (Comment.id comment) (comments s') = Some comment ∧
   Comment.upvotes comment = 0 ∧
   OMap.values (comments s') = OMap.values (comments s) ++ [comment] ∧
   ∀ id c, OMap.get id (comments s) = Some c →
     id < Comment.id comment ∧ OMap.get id (comments s') = Some c) ∧
  (let '(resource, s') := createResource insertResource t s in
   OMap.get (Resource.id resource) (resources s) = None ∧
   OMap.get (Resource.id resource) (resources s') = Some resource ∧
   Resource.votes resource = 0 ∧
   OMap.values (resources s') = OMap.values (resources s) ++ [resource] ∧
   ∀ id r, OMap.get id (resources s) = Some r →
     id < Resource.id resource ∧ OMap.get id (resources s') = Some r) ∧
  (let '(user, s') := createUser insertUser t s in
   getUser (User.id user) s = None ∧
   getUser (User.id user) s' = Some user ∧
   OMap.values (users s') = OMap.values (users s) ++ [user] ∧
   ∀ id u, getUser id s = Some u →
     id < User.id user ∧ getUser id s' = Some u).
Proof.
  intros s. destruct (run_WellKeyed ops (new now) (new_WellKeyed now))
    as [Hu Hm Hc Hr]. fold s in Hu, Hm, Hc, Hr.
  assert (∀ {V} (idOf : V → Z) next (m : OMap.t V) v,
            OrderedBelow idOf next m →
            OMap.get next m = None ∧ OMap.get next (OMap.set next v m) = Some v ∧
            OMap.values (OMap.set next v m) = OMap.values m ++ [v] ∧
            ∀ id x, OMap.get id m = Some x →
              id < next ∧ OMap.get id (OMap.set next v m) = Some x) as Hgen.
  { intros V idOf next m v Hob.
    pose proof (OrderedBelow_fresh idOf next m next Hob ltac:(lia)) as Hnone.
    split; [done|]. split; [apply get_set_eq|]. split; [by apply values_set_new|].
    intros id x Hg. pose proof (OrderedBelow_get idOf _ _ _ _ Hob Hg) as [Hlt _].
    split; [done|]. rewrite get_set_ne by lia. done. }
  unfold getUser. simpl. split; [|split; [|split]].
  - destruct (Hgen _ _ _ _ (Meme.mk (memeId s) (InsertMeme.authorId insertMeme)
      (InsertMeme.imageUrl insertMeme) (InsertMeme.caption insertMeme) 0 0 t) Hm)
      as (? & ? & ? & ?). done.
  - destruct (Hgen _ _ _ _ (Comment.mk (commentId s) (InsertComment.memeId insertComment)
      (InsertComment.authorId insertComment) (InsertComment.body insertComment)
      (InsertComment.parentId insertComment) 0 t) Hc) as (? & ? & ? & ?). done.
  - destruct (Hgen _ _ _ _ (newResource insertResource (resourceId s) t) Hr)
      as (? & ? & ? & ?). done.
  - destruct (Hgen _ _ _ _ (createUser insertUser t s).1 Hu) as (? & ? & ? & ?). done.
Qed.

(** X3: in every such store no counter of a meme or of a comment is
    negative. *)
Theorem counters_never_negative now ops id :
  let s := run ops (new now) in
  (∀ meme, OMap.get id (memes s) = Some meme →
     0 ≤ Meme.upvotes meme ∧ 0 ≤ Meme.downvotes meme) ∧
  (∀ comment, OMap.get id (comments s) = Some comment →
     0 ≤ Comment.upvotes comment).
Proof.
  intros s.
  destruct (inv_consistent _ (run_Inv ops _ (new_Inv now))) as (Hm & Hc & _).
  split.
  - intros meme Hg. destruct (Hm _ _ Hg) as [-> ->]. unfold activeVotes. lia.
  - intros comment Hg. rewrite (Hc _ _ Hg). unfold activeVotes. lia.
Qed.

Lemma counters_never_negative_witness :
  memeCounters 1 (run [OpVoteMeme 1 1 Down; OpVoteMeme 1 1 Up] memeA) = Some (1, 0) ∧
  0 ≤ 1 ∧ 0 ≤ 0.
Proof.
  split; [by vm_compute|].
  destruct (counters_never_negative t0
    [ OpCreateMeme (InsertMeme.mk None "a.png" None) t0;
      OpCreateComment (InsertComment.mk (Some 1) None "first" None) t0;
      OpVoteMeme 1 1 Down; OpVoteMeme 1 1 Up ] 1) as [H _].
  apply (H (Meme.mk 1 None "a.png" None 1 0 t0)). by vm_compute.
Defined.

Lemma create_hands_out_fresh_id_witness :
  let s := run [OpCreateMeme (InsertMeme.mk None "a.png" None) t0] (new t0) in
  let created := createMeme (InsertMeme.mk None "b.png" None) t0 s in
  OMap.get 1 (memes s) = Some (Meme.mk 1 None "a.png" None 0 0 t0) ∧
  1 < Meme.id created.1 ∧
  OMap.get 1 (memes created.2) = Some (Meme.mk 1 None "a.png" None 0 0 t0).
Proof.
  intros s created.
  assert (OMap.get 1 (memes s) = Some (Meme.mk 1 None "a.png" None 0 0 t0)) as Hg
    by (by vm_compute).
  split; [exact Hg|].
  pose proof (create_hands_out_fresh_id t0
    [OpCreateMeme (InsertMeme.mk None "a.png" None) t0] t0
    (InsertMeme.mk None "b.png" None) (InsertComment.mk None None "" None)
    (InsertResource.mk "" None None None None)
    (InsertUser.mk "" "" None None None None None None)) as [H _].
  fold s in H. fold created in H. destruct created as [meme s'].
  destruct H as (_ & _ & _ & _ & _ & H). exact (H _ _ Hg).
Defined.

(** ** What a vote leaves alone *)

(** X4: a vote writes to one subject and one ledger entry.  [voteMeme]
    leaves users, comments, resources and the id counters as they are,
    leaves every other meme as it is, changes at most the two counters of
    the voted meme, and leaves every ledger entry but the voter's entry
    for that meme as it is; likewise [voteComment] and [voteResource]. *)
Theorem vote_writes_one_subject s id userId d :
  (let s' := (voteMeme id userId d s).2 in
   users s' = users s ∧ comments s' = comments s ∧ resources s' = resources s ∧
   sameIdCounters s s' ∧
   (∀ id', id' ≠ id → OMap.get id' (memes s') = OMap.get id' (memes s)) ∧
   (∀ meme, OMap.get id (memes s) = Some meme →
      ∃ meme', OMap.get id (memes s') = Some meme' ∧ sameButCounters meme meme') ∧
   (∀ key, key ≠ voteKey KMeme id userId → userVotes s' !! key = userVotes s !! key)) ∧
  (let s' := (voteComment id userId d s).2 in
   users s' = users s ∧ memes s' = memes s ∧ resources s' = resources s ∧
   sameIdCounters s s' ∧
   (∀ id', id' ≠ id → OMap.get id' (comments s') = OMap.get id' (comments s)) ∧
   (∀ comment, OMap.get id (comments s) = Some comment →
      ∃ comment', OMap.get id (comments s') = Some comment' ∧
        sameButUpvotes comment comment') ∧
   (∀ key, key ≠ voteKey KComment id userId →
      userVotes s' !! key = userVotes s !! key)) ∧
  (let s' := (voteResource id userId d s).2 in
   users s' = users s ∧ memes s' = memes s ∧ comments s' = comments s ∧
   sameIdCounters s s' ∧
   (∀ id', id' ≠ id → OMap.get id' (resources s') = OMap.get id' (resources s)) ∧
   (∀ resource, OMap.get id (resources s) = Some resource →
      ∃ resource', OMap.get id (resources s') = Some resource' ∧
        sameButVotes resource resource') ∧
   (∀ key, key ≠ voteKey KResource id userId →
      userVotes s' !! key = userVotes s !! key)).
Proof.
  split; [|split].
  - unfold voteMeme. destruct (OMap.get id (memes s)) as [meme|] eqn:Hg; simpl.
    2: (repeat split; done).
    destruct (userVotes s !! voteKey KMeme id userId) as [[|]|], d; simpl;
      (repeat split; try done;
       [ intros id' Hne; by rewrite get_set_ne
       | intros ? [= <-]; eexists; split; [apply get_set_eq|done]
       | intros key Hne; by rewrite ?lookup_insert_ne, ?lookup_delete_ne ]).
  - unfold voteComment. destruct (OMap.get id (comments s)) as [comment|] eqn:Hg; simpl.
    2: (repeat split; done).
    case_decide; simpl;
      (repeat split; try done;
       [ intros id' Hne; by rewrite get_set_ne
       | intros ? [= <-]; eexists; split; [apply get_set_eq|done]
       | intros key Hne; by rewrite ?lookup_insert_ne, ?lookup_delete_ne ]).
  - unfold voteResource. destruct (OMap.get id (resources s)) as [resource|] eqn:Hg; simpl.
    2: (repeat split; done).
    repeat case_decide; simpl;
      (repeat split; try done;
       [ intros id' Hne; by rewrite get_set_ne
       | intros ? [= <-]; eexists; split; [apply get_set_eq|done]
       | intros key Hne; by rewrite ?lookup_insert_ne, ?lookup_delete_ne ]).
Qed.

Lemma vote_writes_one_subject_witness :
  (2 : Z) ≠ 1 ∧
  OMap.get 2 (memes (voteMeme 1 7 Up feedExample).2) = OMap.get 2 (memes feedExample).
Proof.
  split; [done|].
  destruct (vote_writes_one_subject feedExample 1 7 Up) as [(_ & _ & _ & _ & H & _) _].
  by apply H.
Defined.

(** ** More on the feed *)

Module FeedFacts.
Import MemStorage Spec SortFacts.

Lemma js_slice_length {A} (l : list A) start end_ :
  start ≤ end_ →
  (length (js_slice l start end_) ≤ Z.to_nat (end_ - start))%nat.
Proof.
  intros Hle. unfold js_slice. rewrite length_take.
  etrans; [apply Nat.le_min_l|].
  repeat case_decide; lia.
Qed.

Lemma StronglySorted_impl {A} (R1 R2 : A → A → Prop) l :
  (∀ a b, R1 a b → R2 a b) → StronglySorted R1 l → StronglySorted R2 l.
Proof.
  intros HR. induction 1 as [|x l _ IH Hx]; constructor; [done|].
  eapply Forall_impl; [exact Hx|]. auto.
Qed.

Section Related.
Context {A : Type} (cmp : A → A → Q) (R : A → A → Prop).
Hypothesis cmp_R : ∀ a a' b b', R a a' → R b b' → cmp a b = cmp a' b'.

Lemma sort_insert_Forall2 x x' l l' :
  R x x' → Forall2 R l l' →
  Forall2 R (sort_insert cmp x l) (sort_insert cmp x' l').
Proof.
  intros Hx. induction 1 as [|y y' l l' Hy Hl IH]; simpl.
  - by repeat constructor.
  - rewrite (cmp_R x x' y y' Hx Hy).
    destruct (cmp x' y' ?= 0)%Q; repeat (constructor; try done).
Qed.

Lemma js_sort_Forall2 l l' :
  Forall2 R l l' → Forall2 R (js_sort cmp l) (js_sort cmp l').
Proof.
  induction 1 as [|x x' l l' Hx Hl IH]; simpl; [constructor|].
  by apply sort_insert_Forall2.
Qed.

Lemma js_slice_Forall2 l l' start end_ :
  Forall2 R l l' → Forall2 R (js_slice l start end_) (js_slice l' start end_).
Proof.
  intros Hl. unfold js_slice. rewrite <-(Forall2_length _ _ _ Hl).
  by apply Forall2_take, Forall2_drop.
Qed.

End Related.

Lemma set_values_Forall2 {V} (R : V → V → Prop) k v v' (m : OMap.t V) :
  (∀ x, R x x) → OMap.get k m = Some v → R v v' →
  Forall2 R (OMap.values m) (OMap.values (OMap.set k v' m)).
Proof.
  intros Hrefl. unfold OMap.values.
  induction m as [|[k0 v0] m IH]; simpl; [done|].
  case_decide as Hk.
  - intros [= ->] Hv. constructor; [done|]. by apply Forall_Forall2_diag, Forall_true.
  - intros Hg Hv. constructor; [apply Hrefl|auto].
Qed.

Lemma other_votes_keep_memes s id userId d :
  users (voteComment id userId d s).2 = users s ∧
  memes (voteComment id userId d s).2 = memes s ∧
  users (voteResource id userId d s).2 = users s ∧
  memes (voteResource id userId d s).2 = memes s.
Proof.
  unfold voteComment, voteResource.
  destruct (OMap.get id (comments s)), (OMap.get id (resources s));
    repeat case_decide; done.
Qed.

Lemma sameButCounters_ids (l l' : list Meme.t) :
  Forall2 Shape.sameButCounters l l' → Meme.id <$> l = Meme.id <$> l'.
Proof.
  induction 1 as [|a b l l' [Hab _] _ IH]; csimpl; [done|]. by rewrite Hab, IH.
Qed.

Lemma page_stored limit offset sortBy s m :
  m ∈ page limit offset sortBy s → m ∈ OMap.values (memes s).
Proof.
  rewrite page_sort_slice. intros Hin.
  rewrite <-(js_sort_perm (comparator (default "hot" sortBy))).
  eapply elem_of_sublist; [exact Hin|apply js_slice_sublist].
Qed.

End FeedFacts.

Import FeedFacts.

(** X5: with a limit that is not negative (10 when it is omitted) a
    page of [getMemes] holds at most [limit] memes, whatever the offset;
    and under any limit each meme of a page is a meme of the store. *)
Theorem getMemes_page_bounded s limit offset sortBy :
  (0 ≤ default 10 limit →
   (length (getMemes limit offset sortBy s) ≤ Z.to_nat (default 10%Z limit))%nat) ∧
  ∀ m, m ∈ page limit offset sortBy s → m ∈ OMap.values (memes s).
Proof.
  split; [|intros m; apply page_stored].
  intros Hlimit.
  rewrite <-(length_fmap MemeWithAuthor.meme). fold (page limit offset sortBy s).
  rewrite page_sort_slice. etrans; [apply js_slice_length; lia|]. lia.
Qed.

Lemma getMemes_page_bounded_witness :
  Meme.mk 1 None "a.png" None 1 0 t0 ∈ page (Some 1) (Some 1) None feedExample ∧
  Meme.mk 1 None "a.png" None 1 0 t0 ∈ OMap.values (memes feedExample).
Proof.
  assert (Meme.mk 1 None "a.png" None 1 0 t0 ∈ page (Some 1) (Some 1) None feedExample)
    as Hin by (vm_compute; apply list_elem_of_here).
  split; [exact Hin|].
  exact (proj2 (getMemes_page_bounded feedExample (Some 1) (Some 1) None) _ Hin).
Defined.

(** X6: under 'new' every page is in descending order of creation
    time, under 'top' in descending order of upvotes minus downvotes, and
    under every policy the page that spans the collection is a
    permutation of the stored memes. *)
Theorem getMemes_new_top_descending s limit offset sortBy :
  StronglySorted (fun a b => Meme.createdAt b ≤ Meme.createdAt a)
    (page limit offset (Some "new") s) ∧
  StronglySorted
    (fun a b => Meme.upvotes b - Meme.downvotes b ≤ Meme.upvotes a - Meme.downvotes a)
    (page limit offset (Some "top") s) ∧
  page (Some (memeCount s)) (Some 0) sortBy s ≡ₚ OMap.values (memes s).
Proof.
  split; [|split].
  - eapply StronglySorted_impl; [|apply (page_sorted limit offset (Some "new") s)].
    intros a b Hab. unfold desc, sortKey in Hab. simpl in Hab. by rewrite Zle_Qle.
  - eapply StronglySorted_impl; [|apply (page_sorted limit offset (Some "top") s)].
    intros a b Hab. unfold desc, sortKey in Hab. simpl in Hab. by rewrite Zle_Qle.
  - rewrite page_whole. apply js_sort_perm.
Qed.

(** X7, on the comparators in binary64: in every store reached from
    the constructor, memes whose sort keys under the policy are equal
    doubles appear on a page in ascending id order, the older meme
    first. *)
Theorem ties_in_ascending_id_order now ops limit offset sortBy k :
  let s := run ops (new now) in
  StronglySorted (fun a b => Meme.id a < Meme.id b)
    (filter (Binary64.hasKey (Binary64.sortKey (default "hot" sortBy)) k)
       (Binary64.page limit offset sortBy s)).
Proof.
  intros s. destruct (run_WellKeyed ops (new now) (new_WellKeyed now)) as [_ Hm _ _].
  fold s in Hm. apply OrderedBelow_values_sorted in Hm.
  eapply StronglySorted_sublist; [|exact Hm].
  etrans; [apply Binary64Facts.page_ties_sublist|apply sublist_filter].
Qed.

(** X8: in every such store each element of a page of [getMemes] is
    what [getMeme] returns for its id. *)
Theorem getMemes_agrees_with_getMeme now ops limit offset sortBy x :
  let s := run ops (new now) in
  x ∈ getMemes limit offset sortBy s →
  getMeme (Meme.id (MemeWithAuthor.meme x)) s = Some x.
Proof.
  intros s Hin. destruct (run_WellKeyed ops (new now) (new_WellKeyed now)) as [_ Hm _ _].
  fold s in Hm.
  assert (MemeWithAuthor.meme x ∈ page limit offset sortBy s) as Hp.
  { apply list_elem_of_fmap. by exists x. }
  assert (x = attachAuthor s (MemeWithAuthor.meme x)) as Hx.
  { unfold getMemes in Hin. apply list_elem_of_fmap in Hin as (m & -> & _). done. }
  apply page_stored, values_elem_of in Hp as [k Hk].
  apply elem_of_get in Hk; [|apply sorted_keys_NoDup, Hm].
  pose proof (OrderedBelow_get _ _ _ _ _ Hm Hk) as [_ ->].
  unfold getMeme. rewrite Hk. simpl. by rewrite <-Hx.
Qed.

Lemma getMemes_agrees_with_getMeme_witness :
  let ops := [OpCreateMeme (InsertMeme.mk None "a.png" None) t0] in
  let x := MemeWithAuthor.mk (Meme.mk 1 None "a.png" None 0 0 t0) None in
  x ∈ getMemes None None None (run ops (new t0)) ∧
  getMeme 1 (run ops (new t0)) = Some x.
Proof.
  intros ops x.
  assert (x ∈ getMemes None None None (run ops (new t0))) as Hin
    by (vm_compute; apply list_elem_of_here).
  split; [exact Hin|].
  exact (getMemes_agrees_with_getMeme t0 ops None None None x Hin).
Defined.

(** X9: votes do not reorder the 'new' feed: after [voteMeme] every
    page under 'new' lists the same meme ids in the same order; and a
    vote on a comment or a resource changes no page under any policy. *)
Theorem votes_keep_new_feed s id userId d limit offset sortBy :
  Meme.id <$> page limit offset (Some "new") (voteMeme id userId d s).2
    = Meme.id <$> page limit offset (Some "new") s ∧
  getMemes limit offset sortBy (voteComment id userId d s).2
    = getMemes limit offset sortBy s ∧
  getMemes limit offset sortBy (voteResource id userId d s).2
    = getMemes limit offset sortBy s.
Proof.
  split; [|split].
  - assert (Forall2 sameButCounters (OMap.values (memes s))
              (OMap.values (memes (voteMeme id userId d s).2))) as Hv.
    { unfold voteMeme. destruct (OMap.get id (memes s)) as [meme|] eqn:Hg; simpl.
      2: by apply Forall_Forall2_diag, Forall_true.
      destruct (userVotes s !! voteKey KMeme id userId) as [[|]|], d; simpl;
        by eapply set_values_Forall2. }
    rewrite !page_sort_slice. change (comparator (default "hot" (Some "new"))) with byNew.
    symmetry. apply sameButCounters_ids.
    apply js_slice_Forall2, (js_sort_Forall2 byNew sameButCounters); [|done].
    intros a a' b b' (_ & _ & _ & _ & Ha) (_ & _ & _ & _ & Hb).
    unfold byNew. by rewrite Ha, Hb.
  - destruct (other_votes_keep_memes s id userId d) as (Hu & Hm & _).
    unfold getMemes, attachAuthor, getUser. by rewrite Hu, Hm.
  - destruct (other_votes_keep_memes s id userId d) as (_ & _ & Hu & Hm).
    unfold getMemes, attachAuthor, getUser. by rewrite Hu, Hm.
Qed.

(** X10: a negative limit is handed to [slice] as a negative end index:
    with offset 0 and limit [-n], [getMemes] returns the whole ordering
    but its last [n] memes, so more than any page size. *)
Theorem negative_limit_drops_tail s n sortBy :
  0 < n →
  page (Some (- n)) (Some 0) sortBy s =
    take (Z.to_nat (memeCount s - n)) (page (Some (memeCount s)) (Some 0) sortBy s).
Proof.
  intros Hn. rewrite page_whole, page_sort_slice. simpl.
  unfold js_slice, memeCount.
  rewrite <-(Permutation_length
               (js_sort_perm (comparator (default "hot" sortBy)) (OMap.values (memes s)))).
  destruct (decide (0 < 0)) as [?|_]; [lia|].
  destruct (decide (0 + - n < 0)) as [_|?]; [|lia].
  rewrite (Z.min_l 0) by lia. simpl. rewrite drop_0. f_equal. lia.
Qed.

Lemma negative_limit_drops_tail_witness :
  0 < 1 ∧
  Meme.id <$> page (Some (- 1)) (Some 0) (Some "new") feedExample = [2].
Proof.
  split; [lia|].
  pose proof (negative_limit_drops_tail feedExample 1 (Some "new") ltac:(lia)) as H.
  change (- (1)) with (-1) in H. rewrite H. by vm_compute.
Defined.

(** ** The other listings *)

Module QueryFacts.
Import MemStorage Spec SortFacts FeedFacts Queries.

Lemma byNewComment_key a b :
  (byNewComment a b
   == inject_Z (Comment.createdAt b) - inject_Z (Comment.createdAt a))%Q.
Proof.
  unfold byNewComment, Z.sub, Qminus. by rewrite inject_Z_plus, inject_Z_opp.
Qed.

Lemma byVotes_key a b :
  (byVotes a b == inject_Z (Resource.votes b) - inject_Z (Resource.votes a))%Q.
Proof.
  unfold byVotes, Z.sub, Qminus. by rewrite inject_Z_plus, inject_Z_opp.
Qed.

(** A sort by an integer key is in descending order of the key. *)
Lemma js_sort_desc_Z {A} (cmp : A → A → Q) (key : A → Z) l :
  (∀ a b, (cmp a b == inject_Z (key b) - inject_Z (key a))%Q) →
  StronglySorted (fun a b => key b ≤ key a) (js_sort cmp l).
Proof.
  intros Hkey.
  eapply StronglySorted_impl;
    [|apply (js_sort_sorted cmp (fun a => inject_Z (key a)) Hkey)].
  intros a b Hab. unfold desc in Hab. by rewrite Zle_Qle.
Qed.

End QueryFacts.

Import QueryFacts.

(** X11: [getMemesByUser] returns stored memes of that author only,
    newest first; with a limit that is not negative at most [limit] of
    them; and the page that spans the collection holds all of the
    author's memes. *)
Theorem getMemesByUser_own_newest_first s userId limit offset :
  let result := MemeWithAuthor.meme <$> getMemesByUser userId limit offset s in
  Forall (fun m => Meme.authorId m = Some userId ∧ m ∈ OMap.values (memes s)) result ∧
  StronglySorted (fun a b => Meme.createdAt b ≤ Meme.createdAt a) result ∧
  (0 ≤ default 10 limit → (length result ≤ Z.to_nat (default 10%Z limit))%nat) ∧
  MemeWithAuthor.meme <$> getMemesByUser userId (Some (memeCount s)) (Some 0) s
    ≡ₚ filter (fun m => Meme.authorId m = Some userId) (OMap.values (memes s)).
Proof.
  intros result. unfold result, getMemesByUser. rewrite !meme_attachAuthor.
  set (own := filter (fun m => Meme.authorId m = Some userId) (OMap.values (memes s))).
  repeat split.
  - apply Forall_forall. intros m Hin.
    eapply elem_of_sublist in Hin; [|apply js_slice_sublist].
    rewrite js_sort_perm in Hin. by apply list_elem_of_filter in Hin.
  - eapply StronglySorted_sublist; [apply js_slice_sublist|].
    apply js_sort_desc_Z. intros a b. unfold byNew, Z.sub, Qminus.
    by rewrite inject_Z_plus, inject_Z_opp.
  - intros Hl. etrans; [apply js_slice_length; lia|]. lia.
  - simpl. etrans; [|apply (js_sort_perm byNew own)].
    assert (js_slice (js_sort byNew own) 0 (0 + memeCount s) = js_sort byNew own)
      as ->; [|done].
    unfold js_slice. destruct (decide (0 < 0)) as [?|_]; [lia|].
    destruct (decide (0 + memeCount s < 0)) as [Hneg|_];
      [unfold memeCount in Hneg; lia|].
    rewrite (Z.min_l 0) by lia. simpl. rewrite drop_0. apply take_ge.
    rewrite (Permutation_length (js_sort_perm byNew own)).
    assert (length own ≤ length (OMap.values (memes s)))%nat
      by apply length_filter.
    unfold memeCount. lia.
Qed.

(** In [authored] user 7 has memes 1 and 3: the first page of one is
    meme 3, the newer; the next is meme 1; and neither meme 2 of user 8
    nor meme 4 of nobody is listed. *)
Lemma getMemesByUser_own_newest_first_witness :
  let first := MemeWithAuthor.meme <$> getMemesByUser 7 (Some 1) None Scenarios.authored in
  let all := MemeWithAuthor.meme <$> getMemesByUser 7 None None Scenarios.authored in
  0 ≤ default 10 (Some 1) ∧
  Meme.id <$> OMap.values (memes Scenarios.authored) = [1; 2; 3; 4] ∧
  Meme.id <$> first = [3] ∧
  Meme.id <$> all = [3; 1] ∧
  Meme.id <$> (MemeWithAuthor.meme <$>
                 getMemesByUser 7 (Some 1) (Some 1) Scenarios.authored) = [1] ∧
  (length first ≤ Z.to_nat 1)%nat ∧
  Forall (fun m => Meme.authorId m = Some 7 ∧ m ∈ OMap.values (memes Scenarios.authored))
    all ∧
  StronglySorted (fun a b => Meme.createdAt b ≤ Meme.createdAt a) all.
Proof.
  intros first all.
  assert (0 ≤ default 10 (Some 1)) as Hl by (by vm_compute).
  split; [exact Hl|]. split; [by vm_compute|]. split; [by vm_compute|].
  split; [by vm_compute|]. split; [by vm_compute|].
  destruct (getMemesByUser_own_newest_first Scenarios.authored 7 (Some 1) None)
    as (_ & _ & Hlen & _).
  destruct (getMemesByUser_own_newest_first Scenarios.authored 7 None None)
    as (Hown & Hsorted & _).
  split; [exact (Hlen Hl)|]. split; [exact Hown|exact Hsorted].
Defined.

(** X12: [getComments] returns exactly the stored comments of that
    meme, newest first, and among comments of one creation time in the
    order they were stored. *)
Theorem getComments_of_meme_newest_first s memeId t :
  getComments memeId s
    ≡ₚ filter (fun c => Comment.memeId c = Some memeId) (OMap.values (comments s)) ∧
  StronglySorted (fun a b => Comment.createdAt b ≤ Comment.createdAt a)
    (getComments memeId s) ∧
  filter (fun c => Comment.createdAt c = t) (getComments memeId s)
    = filter (fun c => Comment.createdAt c = t)
        (filter (fun c => Comment.memeId c = Some memeId) (OMap.values (comments s))).
Proof.
  unfold getComments. split; [apply js_sort_perm|]. split.
  - apply js_sort_desc_Z, byNewComment_key.
  - pose proof (js_sort_stable byNewComment (fun c => inject_Z (Comment.createdAt c))
                  byNewComment_key (inject_Z t)) as Hst.
    assert (∀ l : list Comment.t,
              filter (fun c => Comment.createdAt c = t) l
              = filter (hasKey (fun c => inject_Z (Comment.createdAt c)) (inject_Z t)) l)
      as Hf.
    { intros l. apply list_filter_iff. intros c. unfold hasKey.
      by rewrite inject_Z_injective. }
    by rewrite !Hf, Hst.
Qed.

(** X13: [getResources] with a category returns exactly the stored
    resources of that category, and with no category or the empty string
    all stored resources; either way in descending order of votes. *)
Theorem getResources_by_category_top_first s category :
  (category ≠ None → category ≠ Some EmptyString →
   getResources category s
     ≡ₚ filter (fun r => Resource.category r = category) (OMap.values (resources s))) ∧
  (category = None ∨ category = Some EmptyString →
   getResources category s ≡ₚ OMap.values (resources s)) ∧
  StronglySorted (fun a b => Resource.votes b ≤ Resource.votes a)
    (getResources category s).
Proof.
  unfold getResources. repeat split.
  - intros Hnone Hempty. destruct category as [c|]; [|done].
    rewrite decide_False by congruence. apply js_sort_perm.
  - intros [-> | ->]; [|rewrite decide_True by done]; apply js_sort_perm.
  - apply js_sort_desc_Z, byVotes_key.
Qed.

Lemma getResources_by_category_top_first_witness :
  Some "pricing" ≠ None ∧ Some "pricing" ≠ Some EmptyString ∧
  getResources (Some "pricing") (new t0)
    ≡ₚ filter (fun r => Resource.category r = Some "pricing")
         (OMap.values (resources (new t0))).
Proof.
  split; [done|]. split; [done|].
  by apply (proj1 (getResources_by_category_top_first (new t0) (Some "pricing"))).
Defined.

(** X14: in every store reached from the constructor a created
    comment joins the listing of its meme and changes no other
    listing. *)
Theorem created_comment_is_listed now ops insertComment t memeId :
  let s := run ops (new now) in
  let created := createComment insertComment t s in
  InsertComment.memeId insertComment = Some memeId →
  getComments memeId created.2 ≡ₚ created.1 :: getComments memeId s ∧
  ∀ other, other ≠ memeId → getComments other created.2 = getComments other s.
Proof.
  intros s created HmemeId.
  destruct (run_WellKeyed ops (new now) (new_WellKeyed now)) as [_ _ Hc _].
  fold s in Hc.
  pose proof (OrderedBelow_fresh _ _ _ _ Hc (Z.le_refl _)) as Hnone.
  unfold created, getComments, createComment. simpl.
  rewrite values_set_new by done. split.
  - rewrite filter_app, filter_cons, decide_True, filter_nil by done.
    rewrite !js_sort_perm. by rewrite Permutation_app_comm.
  - intros other Hne.
    rewrite filter_app, filter_cons, decide_False, filter_nil, app_nil_r; [done|].
    simpl. congruence.
Qed.

Lemma created_comment_is_listed_witness :
  let ins := InsertComment.mk (Some 1) None "second" None in
  let created := createComment ins t0 (run [] (new t0)) in
  InsertComment.memeId ins = Some 1 ∧
  getComments 1 created.2 ≡ₚ created.1 :: getComments 1 (run [] (new t0)).
Proof.
  intros ins created. split; [done|].
  by apply (created_comment_is_listed t0 [] ins t0 1).
Defined.

(** ** Accounts *)

Module AccountFacts.
Import MemStorage Spec Queries Accounts Facade Shape ShapeFacts OMapFacts FeedFacts.

Lemma find_unique {A B} `{EqDecision B} (f : A → B) (l : list A) x :
  NoDup (f <$> l) → x ∈ l →
  List.find (fun y => bool_decide (f y = f x)) l = Some x.
Proof.
  induction l as [|y l IH]; csimpl; [by intros _ ?%elem_of_nil|].
  intros [Hy Hnd]%NoDup_cons [->|Hin]%elem_of_cons.
  - by rewrite bool_decide_eq_true_2.
  - rewrite bool_decide_eq_false_2; [auto|].
    intros Heq. apply Hy. rewrite Heq. apply list_elem_of_fmap. by exists x.
Qed.

Lemma find_None_not_in {A B} `{EqDecision B} (f : A → B) (l : list A) b :
  List.find (fun y => bool_decide (f y = b)) l = None → b ∉ f <$> l.
Proof.
  intros Hfind [y [-> Hin]]%list_elem_of_fmap.
  apply list_elem_of_In in Hin.
  pose proof (find_none _ _ Hfind _ Hin) as Hf. simpl in Hf.
  by rewrite bool_decide_eq_true_2 in Hf.
Qed.

Lemma fmap_values_set {V B} (f : V → B) k v v' (m : OMap.t V) :
  OMap.get k m = Some v → f v' = f v →
  f <$> OMap.values (OMap.set k v' m) = f <$> OMap.values m.
Proof.
  intros Hg Hf.
  pose proof (set_values_Forall2 (fun a b => f a = f b) k v v' m
                (fun _ => eq_refl) Hg (eq_sym Hf)) as H.
  symmetry. induction H as [|a b l l' Hab _ IH]; csimpl; [done|]. by rewrite Hab, IH.
Qed.

(** What a request can do to the users. *)
Lemma routes_keep_users s r :
  match r with
  | ReqRegister _ _ _ _ _ | ReqProfile _ _ _ _ => True
  | _ => users (serve s r) = users s ∧ userId (serve s r) = userId s
  end.
Proof.
  destruct r as [| |u b now|u b now|u b now|id u v|id u v|id u v]; simpl; try done.
  - unfold createMemeRoute, insertMemeSchema. simpl.
    destruct (MemeBody.imageUrl b); [|done]. by case_decide.
  - unfold createCommentRoute, insertCommentSchema. simpl.
    destruct (CommentBody.body b); [|done]. by case_decide.
  - unfold createResourceRoute, insertResourceSchema. simpl.
    destruct (ResourceBody.title b); [|done]. by case_decide.
  - unfold memeVoteRoute. destruct (parseVote v) as [d|]; [|done].
    unfold voteMeme. destruct (OMap.get id (memes s)); [|done].
    by destruct (userVotes s !! _) as [[|]|], d.
  - unfold commentVoteRoute, voteComment.
    destruct (OMap.get id (comments s)); [|done]. by case_decide.
  - unfold resourceVoteRoute. destruct (parseVote v) as [d|]; [|done].
    unfold voteResource. destruct (OMap.get id (resources s)); [|done].
    by repeat case_decide.
Qed.

Lemma serve_users_below s r :
  OrderedBelow User.id (userId s) (users s) →
  OrderedBelow User.id (userId (serve s r)) (users (serve s r)).
Proof.
  intros Hu. pose proof (routes_keep_users s r) as Hk.
  destruct r as [d h t f now|u dn av now| | | | | |].
  3-8: destruct Hk as [-> ->]; exact Hu.
  - simpl. unfold registerCreate.
    destruct f; simpl; by apply OrderedBelow_create.
  - simpl. unfold profileRoute, updateUser, getUser.
    destruct (OMap.get (User.id u) (users s)) as [user|] eqn:Hg; [|done].
    simpl. eapply OrderedBelow_update; [done..|]. simpl.
    by apply (OrderedBelow_get _ _ _ _ _ Hu Hg).
Qed.

(** A step that is not the creation of a registration keeps the
    emails and the usernames of the accounts, in their order. *)
Lemma serve_keeps_names s r :
  notRegister r →
  User.email <$> OMap.values (users (serve s r)) = User.email <$> OMap.values (users s) ∧
  User.username <$> OMap.values (users (serve s r))
    = User.username <$> OMap.values (users s).
Proof.
  intros Hr. pose proof (routes_keep_users s r) as Hk.
  destruct r as [d h t f now|u dn av now| | | | | |]; [done|..].
  2-7: by destruct Hk as [-> _].
  simpl. unfold profileRoute, updateUser, getUser.
  destruct (OMap.get (User.id u) (users s)) as [user|] eqn:Hg; [|done].
  simpl. by rewrite !(fmap_values_set _ _ user).
Qed.

Lemma serveAll_keeps_names requests s :
  Forall notRegister requests →
  User.email <$> OMap.values (users (serveAll requests s))
    = User.email <$> OMap.values (users s) ∧
  User.username <$> OMap.values (users (serveAll requests s))
    = User.username <$> OMap.values (users s).
Proof.
  intros Hall. revert s. induction Hall as [|r requests Hr _ IH]; intros s; [done|].
  simpl. destruct (IH (serve s r)) as [-> ->]. by apply serve_keeps_names.
Qed.

End AccountFacts.

Import AccountFacts.

(** X15: [updateUser] on an id that is not stored throws "User with id
    N not found" and leaves the store; on a stored id it stores and
    returns the user merged with the given fields and stamped with the
    time of the call, and leaves every other user, the iteration order of
    the users and everything else in the store. *)
Theorem updateUser_merges_or_fails id data now s :
  (getUser id s = None →
   updateUser id data now s
     = (inl (MkError ("User with id " +:+ pretty id +:+ " not found")), s)) ∧
  (∀ user, getUser id s = Some user →
     let s' := (updateUser id data now s).2 in
     (updateUser id data now s).1 = inr (merge user data now) ∧
     getUser id s' = Some (merge user data now) ∧
     User.updatedAt (merge user data now) = Some now ∧
     (∀ other, other ≠ id → getUser other s' = getUser other s) ∧
     (users s').*1 = (users s).*1 ∧
     memes s' = memes s ∧ comments s' = comments s ∧ resources s' = resources s ∧
     userVotes s' = userVotes s ∧ sameIdCounters s s').
Proof.
  unfold updateUser. split.
  - by intros ->.
  - intros user Hg. rewrite Hg. unfold getUser in *. simpl.
    repeat split; try done.
    + apply get_set_eq.
    + intros other Hne. by apply get_set_ne.
    + apply keys_set_existing. by rewrite Hg.
Qed.

Lemma updateUser_merges_or_fails_witness :
  getUser 42 memeA = None ∧
  updateUser 42 PartialUser.empty t0 memeA
    = (inl (MkError "User with id 42 not found"), memeA).
Proof.
  split; [done|].
  by apply (proj1 (updateUser_merges_or_fails 42 PartialUser.empty t0 memeA)).
Defined.

(** X16: the profile route writes the display name and the avatar of
    the request, also when the request has none (the field is cleared),
    and the update time; it leaves the id, email, username, password,
    provider, level, xp and creation time of the account, and every other
    account. *)
Theorem profile_update_scope user displayName avatar now s stored :
  getUser (User.id user) s = Some stored →
  ∃ updated view,
    let s' := (profileRoute user displayName avatar now s).2 in
    (profileRoute user displayName avatar now s).1 = Json 200 view ∧
    getUser (User.id user) s' = Some updated ∧
    User.displayName updated = displayName ∧ User.avatar updated = avatar ∧
    User.updatedAt updated = Some now ∧
    User.id updated = User.id stored ∧ User.email updated = User.email stored ∧
    User.username updated = User.username stored ∧
    User.password updated = User.password stored ∧
    User.provider updated = User.provider stored ∧
    User.level updated = User.level stored ∧ User.xp updated = User.xp stored ∧
    User.createdAt updated = User.createdAt stored ∧
    ProfileView.displayName view = displayName ∧ ProfileView.avatar view = avatar ∧
    ∀ other, other ≠ User.id user → getUser other s' = getUser other s.
Proof.
  intros Hg. unfold profileRoute, updateUser. rewrite Hg. simpl.
  eexists _, _. split; [reflexivity|]. unfold getUser.
  split; [apply get_set_eq|]. simpl. repeat split.
  intros other Hne. by apply get_set_ne.
Qed.

Lemma profile_update_scope_witness :
  let s := (createUser (InsertUser.mk "a@x.org" "alice" None None
                          (Some "/a.png") None None None) t0 (new t0)).2 in
  let user := User.mk 1 "a@x.org" "alice" None None (Some "/a.png")
                (Some "local") None None (Some 1) (Some 0) (Some t0) (Some t0) in
  getUser 1 s = Some user ∧
  ∃ updated,
    getUser 1 (profileRoute user (Some "Alice") None (t0 + 1) s).2 = Some updated ∧
    User.displayName updated = Some "Alice" ∧ User.avatar updated = None.
Proof.
  intros s user.
  assert (getUser (User.id user) s = Some user) as Hg by (by vm_compute).
  split; [exact Hg|].
  destruct (profile_update_scope user (Some "Alice") None (t0 + 1) s user Hg)
    as (updated & view & _ & H1 & H2 & H3 & _).
  exists updated. by repeat split.
Defined.

Module RegisterFacts.
Import MemStorage Queries Accounts Facade Shape ShapeFacts OMapFacts AccountFacts.

Lemma serveAll_users_below requests s :
  OrderedBelow User.id (userId s) (users s) →
  OrderedBelow User.id (userId (serveAll requests s)) (users (serveAll requests s)).
Proof.
  revert s. induction requests as [|r requests IH]; intros s Hu; simpl; [done|].
  by apply IH, serve_users_below.
Qed.

Lemma not_in_find_None {A B} `{EqDecision B} (f : A → B) (l : list A) b :
  b ∉ f <$> l → List.find (fun y => bool_decide (f y = b)) l = None.
Proof.
  induction l as [|y l IH]; csimpl; [done|].
  intros [Hy Hl]%not_elem_of_cons. rewrite bool_decide_eq_false_2 by done. auto.
Qed.

Lemma in_find_Some {A B} `{EqDecision B} (f : A → B) (l : list A) b :
  b ∈ f <$> l → is_Some (List.find (fun y => bool_decide (f y = b)) l).
Proof.
  induction l as [|y l IH]; csimpl; [by intros ?%elem_of_nil|].
  intros [->|Hin]%elem_of_cons.
  - by rewrite bool_decide_eq_true_2.
  - destruct (bool_decide (f y = b)); [done|auto].
Qed.

Lemma find_snoc {A} (p : A → bool) (l : list A) x :
  List.find p l = None → p x = true → List.find p (l ++ [x]) = Some x.
Proof.
  induction l as [|y l IH]; simpl; [by intros _ ->|].
  destruct (p y); [done|auto].
Qed.

Lemma find_app_Some {A} (p : A → bool) (l l' : list A) x :
  List.find p l = Some x → List.find p (l ++ l') = Some x.
Proof.
  induction l as [|y l IH]; simpl; [done|]. destruct (p y); [done|auto].
Qed.

(** The look-ups pass exactly when neither the email nor the username
    is stored. *)
Lemma registerLookups_None d s :
  registerLookups d s = None ↔
  (RegisterData.email d ∉ User.email <$> OMap.values (users s)) ∧
  (RegisterData.username d ∉ User.username <$> OMap.values (users s)).
Proof.
  unfold registerLookups, getUserByEmail, getUserByUsername. split.
  - destruct (List.find _ _) eqn:He; [done|].
    destruct (List.find _ (OMap.values (users s))) eqn:Hn in |- *; [done|].
    intros _. split; by apply find_None_not_in.
  - intros [He Hn].
    by rewrite (not_in_find_None User.email _ _ He),
      (not_in_find_None User.username _ _ Hn).
Qed.

Lemma registerCreate_users d h t f now s :
  OrderedBelow User.id (userId s) (users s) →
  OMap.values (users (registerCreate d h t f now s).2)
    = OMap.values (users s) ++ [registeredUser d h now s] ∧
  userId (registerCreate d h t f now s).2 = userId s + 1 ∧
  (registerCreate d h t f now s).1
    = (if f then Message 500 "Login after registration failed"
       else Json 201 (accountView (registeredUser d h now s), t)).
Proof.
  intros Hu. pose proof (OrderedBelow_fresh _ _ _ _ Hu (Z.le_refl _)) as Hnone.
  unfold registerCreate, registeredUser.
  destruct f; simpl; by rewrite (values_set_new _ _ _ Hnone).
Qed.

End RegisterFacts.

Import RegisterFacts.

(** X17: a registration in two steps, in stores reached through the
    routes.  The look-ups, on the store [s0] in which the handler
    starts: an email that is taken is answered 400 "Email already in
    use", otherwise a username that is taken 400 "Username already
    taken", and otherwise the handler goes on; they do not write.  The
    creation, on the store [s1] in which the hash resolves, whatever was
    served in between: the account is stored under the next id, which
    was not in use, with the hashed password, provider 'local', level 1,
    xp 0 and the username as the default display name, every other
    account is kept, and the account is stored also when the login that
    follows fails and the answer is 500.  It is found by its email when
    [s1] has no account with that email; when [s1] has one, that older
    account is what the look-up by email still returns; likewise for the
    username. *)
Theorem register_route_outcomes now0 requests between d hashedPassword token
    loginFails now :
  let s0 := serveAll requests (new now0) in
  let s1 := serveAll between s0 in
  let r := registerCreate d hashedPassword token loginFails now s1 in
  (RegisterData.email d ∈ User.email <$> OMap.values (users s0) →
   registerLookups d s0 = Some (Message 400 "Email already in use")) ∧
  (RegisterData.email d ∉ User.email <$> OMap.values (users s0) →
   RegisterData.username d ∈ User.username <$> OMap.values (users s0) →
   registerLookups d s0 = Some (Message 400 "Username already taken")) ∧
  (RegisterData.email d ∉ User.email <$> OMap.values (users s0) →
   RegisterData.username d ∉ User.username <$> OMap.values (users s0) →
   registerLookups d s0 = None) ∧
  ∃ user,
    r.1 = (if loginFails then Message 500 "Login after registration failed"
           else Json 201 (accountView user, token)) ∧
    User.id user = userId s1 ∧
    getUser (userId s1) s1 = None ∧
    getUser (userId s1) r.2 = Some user ∧
    (∀ id, id ≠ userId s1 → getUser id r.2 = getUser id s1) ∧
    User.email user = RegisterData.email d ∧
    User.username user = RegisterData.username d ∧
    User.password user = or_else (Some hashedPassword) None ∧
    User.displayName user
      = or_else (or_else (RegisterData.displayName d)
                   (Some (RegisterData.username d))) None ∧
    User.provider user = Some "local" ∧
    User.level user = Some 1 ∧ User.xp user = Some 0 ∧
    (RegisterData.email d ∉ User.email <$> OMap.values (users s1) →
     getUserByEmail (RegisterData.email d) r.2 = Some user) ∧
    (RegisterData.username d ∉ User.username <$> OMap.values (users s1) →
     getUserByUsername (RegisterData.username d) r.2 = Some user) ∧
    (∀ older, getUserByEmail (RegisterData.email d) s1 = Some older →
       getUserByEmail (RegisterData.email d) r.2 = Some older ∧ older ≠ user) ∧
    (∀ older, getUserByUsername (RegisterData.username d) s1 = Some older →
       getUserByUsername (RegisterData.username d) r.2 = Some older ∧ older ≠ user).
Proof.
  intros s0 s1 r.
  split; [|split; [|split]].
  - unfold registerLookups, getUserByEmail.
    intros [u Hf]%(in_find_Some User.email). by rewrite Hf.
  - unfold registerLookups, getUserByEmail, getUserByUsername.
    intros He [u Hf]%(in_find_Some User.username).
    by rewrite (not_in_find_None User.email _ _ He), Hf.
  - intros He Hn. by apply registerLookups_None.
  - pose proof (serveAll_users_below requests (new now0)
                  (wk_users _ (new_WellKeyed now0))) as Hu0. fold s0 in Hu0.
    pose proof (serveAll_users_below between s0 Hu0) as Hu. fold s1 in Hu.
    pose proof (OrderedBelow_fresh _ _ _ _ Hu (Z.le_refl _)) as Hnone.
    destruct (registerCreate_users d hashedPassword token loginFails now s1 Hu)
      as (Hvalues & _ & Hanswer). fold r in Hvalues, Hanswer.
    assert (users r.2 = OMap.set (userId s1) (registeredUser d hashedPassword now s1)
                          (users s1)) as Husers.
    { unfold r, registerCreate, registeredUser. by destruct loginFails. }
    assert (∀ older, older ∈ OMap.values (users s1) →
              older ≠ registeredUser d hashedPassword now s1) as Hother.
    { intros older [k Hk]%values_elem_of ->.
      apply elem_of_get in Hk; [|apply sorted_keys_NoDup, Hu].
      pose proof (OrderedBelow_get _ _ _ _ _ Hu Hk) as [Hlt Hid].
      simpl in Hid. lia. }
    exists (registeredUser d hashedPassword now s1).
    split; [exact Hanswer|]. split; [done|]. split; [exact Hnone|].
    split; [unfold getUser; rewrite Husers; apply get_set_eq|].
    split; [intros id Hne; unfold getUser; rewrite Husers; by apply get_set_ne|].
    do 7 (split; [done|]).
    unfold getUserByEmail, getUserByUsername. rewrite Hvalues.
    split; [|split; [|split]].
    + intros He. apply find_snoc; [by apply not_in_find_None|].
      by apply bool_decide_eq_true_2.
    + intros Hn. apply find_snoc; [by apply not_in_find_None|].
      by apply bool_decide_eq_true_2.
    + intros older Hf. split; [by apply find_app_Some|].
      apply Hother. apply list_elem_of_In. by apply find_some in Hf as [? _].
    + intros older Hf. split; [by apply find_app_Some|].
      apply Hother. apply list_elem_of_In. by apply find_some in Hf as [? _].
Qed.

(** On the store with the account of [aliceData]: a registration with
    the same email is answered 400 by its look-ups; and had its look-ups
    passed before that account was stored, its creation stores a second
    account with that email, while the look-up by email goes on to
    return the first. *)
Lemma register_route_outcomes_witness :
  let s := serveAll [ReqRegister Scenarios.aliceData "$2a$hash" "tok" false t0] (new t0) in
  let first := User.mk 1 "a@x.org" "alice" (Some "$2a$hash") (Some "alice") None
                 (Some "local") None None (Some 1) (Some 0) (Some t0) (Some t0) in
  let r := registerCreate Scenarios.aliasData "$2a$other" "tok2" false (t0 + 1) s in
  "a@x.org" ∈ User.email <$> OMap.values (users s) ∧
  getUserByEmail "a@x.org" s = Some first ∧
  registerLookups Scenarios.aliasData s = Some (Message 400 "Email already in use") ∧
  getUserByEmail "a@x.org" r.2 = Some first ∧
  User.email <$> OMap.values (users r.2) = ["a@x.org"; "a@x.org"].
Proof.
  intros s first r.
  assert ("a@x.org" ∈ User.email <$> OMap.values (users s)) as Hin
    by (vm_compute; apply list_elem_of_here).
  assert (getUserByEmail "a@x.org" s = Some first) as Hfirst by (by vm_compute).
  split; [exact Hin|]. split; [exact Hfirst|].
  destruct (register_route_outcomes t0
              [ReqRegister Scenarios.aliceData "$2a$hash" "tok" false t0] []
              Scenarios.aliasData "$2a$other" "tok2" false (t0 + 1))
    as (Htaken & _ & _ & user & H).
  split; [exact (Htaken Hin)|].
  destruct H as (_ & _ & _ & _ & _ & _ & _ & _ & _ & _ & _ & _ & _ & _ & Holder & _).
  split; [exact (proj1 (Holder first Hfirst))|by vm_compute].
Defined.

(** X18: emails and usernames are unique only as long as registrations
    do not overlap.  In a store reached through the routes where they
    are unique, a registration whose look-ups pass, followed by steps
    none of which creates the account of another registration, creates
    its account with uniqueness kept, and then every stored account is
    the one that the look-up by its email and by its username returns.
    But when the look-ups of two registrations with the same email both
    pass on a store and the two creations follow, both accounts are
    stored, the emails are no longer unique, and the look-up by that
    email returns the account created first. *)
Theorem accounts_unique_unless_overlap now0 requests between d d'
    hashedPassword token loginFails now hashedPassword' token' loginFails' now' :
  let s := serveAll requests (new now0) in
  (UniqueAccounts s → registerLookups d s = None → Forall notRegister between →
   let s1 := serveAll between s in
   let r := registerCreate d hashedPassword token loginFails now s1 in
   UniqueAccounts s1 ∧ UniqueAccounts r.2 ∧
   ∀ user, user ∈ OMap.values (users r.2) →
     getUserByEmail (User.email user) r.2 = Some user ∧
     getUserByUsername (User.username user) r.2 = Some user) ∧
  (registerLookups d s = None → registerLookups d' s = None →
   RegisterData.email d' = RegisterData.email d →
   let r1 := registerCreate d hashedPassword token loginFails now s in
   let r2 := registerCreate d' hashedPassword' token' loginFails' now' r1.2 in
   ¬ UniqueAccounts r2.2 ∧
   ∃ first second,
     getUser (userId s) r2.2 = Some first ∧
     getUser (userId s + 1) r2.2 = Some second ∧
     User.email first = RegisterData.email d ∧
     User.email second = RegisterData.email d ∧
     r2.1 = (if loginFails' then Message 500 "Login after registration failed"
             else Json 201 (accountView second, token')) ∧
     getUserByEmail (RegisterData.email d) r2.2 = Some first).
Proof.
  intros s.
  pose proof (serveAll_users_below requests (new now0)
                (wk_users _ (new_WellKeyed now0))) as Hu. fold s in Hu.
  split.
  - intros [He Hn] [Hde Hdn]%registerLookups_None Hbetween s1 r.
    pose proof (serveAll_users_below between s Hu) as Hu1. fold s1 in Hu1.
    destruct (serveAll_keeps_names between s Hbetween) as [Hemails Hnames].
    fold s1 in Hemails, Hnames.
    destruct (registerCreate_users d hashedPassword token loginFails now s1 Hu1)
      as (Hvalues & _ & _). fold r in Hvalues.
    assert (UniqueAccounts s1) as Hs1.
    { unfold UniqueAccounts. rewrite Hemails, Hnames. by split. }
    assert (UniqueAccounts r.2) as [He' Hn'].
    { unfold UniqueAccounts. rewrite Hvalues, !fmap_app, Hemails, Hnames.
      split; apply NoDup_app; (split; [done|]);
        (split; [|apply NoDup_singleton]);
        intros x Hx ->%list_elem_of_singleton; done. }
    split; [exact Hs1|]. split; [by split|].
    intros user Hin. split.
    + by apply (find_unique User.email).
    + by apply (find_unique User.username).
  - intros [Hde Hdn]%registerLookups_None _ Hsame r1 r2.
    destruct (registerCreate_users d hashedPassword token loginFails now s Hu)
      as (Hvalues1 & Hid1 & _). fold r1 in Hvalues1, Hid1.
    assert (OrderedBelow User.id (userId r1.2) (users r1.2)) as Hu1.
    { apply (serve_users_below s (ReqRegister d hashedPassword token loginFails now) Hu). }
    destruct (registerCreate_users d' hashedPassword' token' loginFails' now' r1.2 Hu1)
      as (Hvalues2 & _ & Hanswer). fold r2 in Hvalues2, Hanswer.
    assert (users r1.2 = OMap.set (userId s) (registeredUser d hashedPassword now s)
                           (users s)) as Husers1.
    { unfold r1, registerCreate, registeredUser. by destruct loginFails. }
    assert (users r2.2
            = OMap.set (userId r1.2) (registeredUser d' hashedPassword' now' r1.2)
                (users r1.2)) as Husers2.
    { unfold r2, registerCreate, registeredUser. by destruct loginFails'. }
    split.
    + intros [He _]. rewrite Hvalues2, Hvalues1, !fmap_app, <-app_assoc in He.
      apply NoDup_app in He as (_ & _ & He). simpl in He.
      apply NoDup_cons in He as [He _]. apply He.
      rewrite list_elem_of_singleton. simpl. by rewrite Hsame.
    + exists (registeredUser d hashedPassword now s),
        (registeredUser d' hashedPassword' now' r1.2).
      split.
      { unfold getUser. rewrite Husers2, get_set_ne by lia.
        rewrite Husers1. apply get_set_eq. }
      split.
      { unfold getUser. rewrite Husers2, <-Hid1. apply get_set_eq. }
      split; [done|]. split; [done|]. split; [exact Hanswer|].
      unfold getUserByEmail. rewrite Hvalues2, Hvalues1.
      apply find_app_Some, find_snoc; [by apply not_in_find_None|].
      by apply bool_decide_eq_true_2.
Qed.

(** Two registrations with one email whose look-ups both pass on a new
    store: created one after the other they leave two accounts with that
    email.  A registration whose creation follows its look-ups with only
    a meme creation in between leaves the accounts unique. *)
Lemma accounts_unique_unless_overlap_witness :
  let r1 := registerCreate Scenarios.aliceData "$2a$hash" "tok" false t0 (new t0) in
  let r2 := registerCreate Scenarios.aliasData "$2a$other" "tok2" false (t0 + 1) r1.2 in
  let between := [ReqCreateMeme alice (MemeBody.mk None (Some "a.png") None) t0] in
  let r := registerCreate Scenarios.aliceData "$2a$hash" "tok" false t0
             (serveAll between (new t0)) in
  registerLookups Scenarios.aliceData (new t0) = None ∧
  registerLookups Scenarios.aliasData (new t0) = None ∧
  RegisterData.email Scenarios.aliasData = RegisterData.email Scenarios.aliceData ∧
  UniqueAccounts (new t0) ∧ Forall notRegister between ∧
  ¬ UniqueAccounts r2.2 ∧
  User.email <$> OMap.values (users r2.2) = ["a@x.org"; "a@x.org"] ∧
  User.username <$> OMap.values (users r2.2) = ["alice"; "alias"] ∧
  UniqueAccounts r.2 ∧
  User.email <$> OMap.values (users r.2) = ["a@x.org"].
Proof.
  intros r1 r2 between r.
  assert (registerLookups Scenarios.aliceData (new t0) = None) as H1 by (by vm_compute).
  assert (registerLookups Scenarios.aliasData (new t0) = None) as H2 by (by vm_compute).
  assert (RegisterData.email Scenarios.aliasData = RegisterData.email Scenarios.aliceData)
    as H3 by done.
  assert (UniqueAccounts (new t0)) as H4 by (split; simpl; constructor).
  assert (Forall notRegister between) as H5 by (by repeat constructor).
  split; [exact H1|]. split; [exact H2|]. split; [exact H3|].
  split; [exact H4|]. split; [exact H5|].
  destruct (accounts_unique_unless_overlap t0 [] between Scenarios.aliceData
              Scenarios.aliasData "$2a$hash" "tok" false t0 "$2a$other" "tok2" false
              (t0 + 1)) as [Hkept Hrace].
  destruct (Hrace H1 H2 H3) as [Hnot _].
  destruct (Hkept H4 H1 H5) as (_ & Hunique & _).
  split; [exact Hnot|]. split; [by vm_compute|]. split; [by vm_compute|].
  split; [exact Hunique|by vm_compute].
Defined.

(** ** The routes and the store *)

Module RouteFacts.
Import MemStorage Spec Queries Accounts Facade Shape InvFacts FeedFacts SortFacts.

Lemma updateUser_Inv id data now s : Inv s → Inv (updateUser id data now s).2.
Proof.
  intros [? ? ? ? ? ? ?]. unfold updateUser.
  destruct (getUser id s); by split.
Qed.

Lemma serve_Inv s r : Inv s → Inv (serve s r).
Proof.
  intros Hs. destruct r as [d h t f now|u dn av now|u b now|u b now|u b now
                            |id u v|id u v|id u v]; simpl.
  - unfold registerCreate.
    pose proof (createUser_Inv
      (InsertUser.mk (RegisterData.email d) (RegisterData.username d) (Some h)
         (or_else (RegisterData.displayName d) (Some (RegisterData.username d)))
         (RegisterData.avatar d) (Some "local") None None) now s Hs) as H.
    by destruct f.
  - unfold profileRoute.
    pose proof (updateUser_Inv (User.id u)
      (PartialUser.mk None None None None (Some dn) (Some av)
         None None None None None None None) now s Hs) as H.
    by destruct (updateUser _ _ _ _) as [[?|?] ?].
  - unfold createMemeRoute. destruct (insertMemeSchema _) as [memeData|]; [|done].
    apply (createMeme_Inv memeData now s Hs).
  - unfold createCommentRoute.
    destruct (insertCommentSchema _) as [commentData|]; [|done].
    apply (createComment_Inv commentData now s Hs).
  - unfold createResourceRoute.
    destruct (insertResourceSchema _) as [resourceData|]; [|done].
    apply (createResource_Inv resourceData now s Hs).
  - unfold memeVoteRoute. destruct (parseVote v) as [d|]; [|done].
    pose proof (voteMeme_Inv id (default 0 (User.id <$> u)) d s Hs) as H.
    by destruct (voteMeme _ _ _ _) as [[?|?] ?].
  - unfold commentVoteRoute.
    pose proof (voteComment_Inv id (User.id u) s Hs) as H.
    by destruct (voteComment _ _ _ _) as [[?|?] ?].
  - unfold resourceVoteRoute. destruct (parseVote v) as [d|]; [|done].
    pose proof (voteResource_Inv id (User.id u) d s Hs) as H.
    by destruct (voteResource _ _ _ _) as [[?|?] ?].
Qed.

Lemma serveAll_Inv requests s : Inv s → Inv (serveAll requests s).
Proof.
  revert s. induction requests as [|r requests IH]; intros s Hs; simpl; [done|].
  by apply IH, serve_Inv.
Qed.

(** A slice that starts inside the list and has room is not empty. *)
Lemma js_slice_nonempty {A} (l : list A) start end_ :
  0 ≤ start < Z.of_nat (length l) → start < end_ → js_slice l start end_ ≠ [].
Proof.
  intros Hs He Hnil. apply (f_equal length) in Hnil. revert Hnil.
  unfold js_slice. rewrite length_take, length_drop. simpl.
  destruct (decide (start < 0)) as [?|_]; [lia|].
  destruct (decide (end_ < 0)) as [?|_]; [lia|]. lia.
Qed.

End RouteFacts.

Import RouteFacts.

(** X19: through the routes too the counters follow the ledger: after
    any sequence of register, profile, create and vote requests on a new
    store, whatever directions and bodies they carry, every meme's two
    counters, every comment's upvotes and every resource's votes are the
    counts of the active records. *)
Theorem routes_keep_counters_consistent now requests :
  Consistent (serveAll requests (new now)).
Proof. apply inv_consistent. apply serveAll_Inv, new_Inv. Qed.

(** X20: what a creation route stores names the authenticated user as
    the author, whatever author the body names: [authorId] of a meme and
    of a comment, [createdBy] of a resource; and a body without the
    required field ([imageUrl], [body], [title]) is answered 400 with
    the store left as it was. *)
Theorem create_routes_stamp_author user now s memeBody commentBody resourceBody :
  (∀ meme, (createMemeRoute user memeBody now s).1 = Json 201 meme →
     Meme.authorId meme = Some (User.id user) ∧
     OMap.get (Meme.id meme) (memes (createMemeRoute user memeBody now s).2)
       = Some meme) ∧
  (∀ comment, (createCommentRoute user commentBody now s).1 = Json 201 comment →
     Comment.authorId comment = Some (User.id user) ∧
     OMap.get (Comment.id comment)
       (comments (createCommentRoute user commentBody now s).2) = Some comment) ∧
  (∀ resource, (createResourceRoute user resourceBody now s).1 = Json 201 resource →
     Resource.createdBy resource = Some (User.id user) ∧
     OMap.get (Resource.id resource)
       (resources (createResourceRoute user resourceBody now s).2) = Some resource) ∧
  (MemeBody.imageUrl memeBody = None →
   createMemeRoute user memeBody now s = (Message 400 "Invalid meme data", s)) ∧
  (CommentBody.body commentBody = None →
   createCommentRoute user commentBody now s = (Message 400 "Invalid comment data", s)) ∧
  (ResourceBody.title resourceBody = None →
   createResourceRoute user resourceBody now s
     = (Message 400 "Invalid resource data", s)).
Proof.
  unfold createMemeRoute, createCommentRoute, createResourceRoute.
  unfold insertMemeSchema, insertCommentSchema, insertResourceSchema. simpl.
  split; [|split; [|split; [|split; [|split]]]]; try (by intros ->).
  - intros meme. destruct (MemeBody.imageUrl memeBody); [|done].
    case_decide; [|done].
    intros [= <-]. split; [done|]. simpl. apply OMapFacts.get_set_eq.
  - intros comment. destruct (CommentBody.body commentBody); [|done].
    case_decide; [|done].
    intros [= <-]. split; [done|]. simpl. apply OMapFacts.get_set_eq.
  - intros resource. destruct (ResourceBody.title resourceBody); [|done].
    case_decide; [|done].
    intros [= <-]. split; [done|]. simpl. apply OMapFacts.get_set_eq.
Qed.

Lemma create_routes_stamp_author_witness :
  let forged := MemeBody.mk (Some 99) (Some "x.png") None in
  let meme := Meme.mk 2 (Some 7) "x.png" None 0 0 t0 in
  (createMemeRoute alice forged t0 memeA).1 = Json 201 meme ∧
  Meme.authorId meme = Some 7.
Proof.
  intros forged meme.
  assert ((createMemeRoute alice forged t0 memeA).1 = Json 201 meme) as H
    by (by vm_compute).
  split; [exact H|].
  destruct (create_routes_stamp_author alice t0 memeA forged
              (CommentBody.mk None None None None)
              (ResourceBody.mk None None None None None)) as [Hm _].
  exact (proj1 (Hm meme H)).
Defined.

(** X21: the listing route never fails, and a request without a user
    filter whose offset lies inside the collection and whose limit is
    not negative gets a page that is not empty: a limit of 0, like a
    missing or unparsable one, is served as 10. *)
Theorem list_route_page_not_empty limit offset sort s :
  0 ≤ Sessions.number_or offset 0 < memeCount s →
  (∀ n, limit = Some n → 0 ≤ n) →
  ∃ memes,
    listMemesRoute limit offset sort None s = (Json 200 memes, s) ∧
    memes ≠ [] ∧
    (length memes ≤ Z.to_nat (Sessions.number_or limit 10%Z))%nat ∧
    listMemesRoute (Some 0) offset sort None s = listMemesRoute None offset sort None s.
Proof.
  intros Hoff Hlim. eexists. split; [reflexivity|].
  assert (1 ≤ Sessions.number_or limit 10) as Hl.
  { unfold Sessions.number_or. destruct limit as [n|]; [|lia].
    specialize (Hlim n eq_refl). case_decide; lia. }
  repeat split.
  - intros Hnil. apply (f_equal (fmap MemeWithAuthor.meme)) in Hnil.
    revert Hnil. fold (page (Some (Sessions.number_or limit 10))
                         (Some (Sessions.number_or offset 0))
                         (Some (string_or sort "hot")) s).
    rewrite page_sort_slice. simpl. apply js_slice_nonempty; [|lia].
    rewrite (Permutation_length (js_sort_perm _ _)). exact Hoff.
  - rewrite <-(length_fmap MemeWithAuthor.meme).
    fold (page (Some (Sessions.number_or limit 10))
            (Some (Sessions.number_or offset 0)) (Some (string_or sort "hot")) s).
    rewrite page_sort_slice. simpl. etrans; [apply js_slice_length; lia|]. lia.
Qed.

Lemma list_route_page_not_empty_witness :
  0 ≤ Sessions.number_or (Some 1) 0 < memeCount feedExample ∧
  (∀ n, Some 0 = Some n → 0 ≤ n) ∧
  ∃ memes,
    listMemesRoute (Some 0) (Some 1) None None feedExample
      = (Json 200 memes, feedExample) ∧ memes ≠ [].
Proof.
  assert (0 ≤ Sessions.number_or (Some 1) 0 < memeCount feedExample) as H1
    by (by vm_compute).
  assert (∀ n, Some 0 = Some n → 0 ≤ n) as H2 by (intros n [= <-]; lia).
  split; [exact H1|]. split; [exact H2|].
  destruct (list_route_page_not_empty (Some 0) (Some 1) None feedExample H1 H2)
    as (memes & Hr & Hne & _).
  by exists memes.
Defined.

(** ** Game sessions *)

Module SessionFacts.
Import MemStorage Sessions OMapFacts ShapeFacts SortFacts FeedFacts QueryFacts.

Lemma bySessionNew_key a b :
  (bySessionNew a b
   == inject_Z (GameSession.createdAt b) - inject_Z (GameSession.createdAt a))%Q.
Proof.
  unfold bySessionNew, Z.sub, Qminus. by rewrite inject_Z_plus, inject_Z_opp.
Qed.

Lemma KeysBelow_fresh s k :
  KeysBelow s → gameSessionId s ≤ k → OMap.get k (gameSessions s) = None.
Proof.
  intros Hs Hle. destruct (OMap.get k (gameSessions s)) as [v|] eqn:Hg; [|done].
  apply get_elem_of in Hg. unfold KeysBelow in Hs. rewrite Forall_forall in Hs.
  specialize (Hs _ Hg). simpl in Hs. lia.
Qed.

Lemma serve_KeysBelow s r : KeysBelow s → KeysBelow (serve s r).
Proof.
  intros Hs. pose proof Hs as Hall. unfold KeysBelow in Hall.
  destruct r as [user body now|id user body]; simpl.
  - unfold createSessionRoute.
    destruct (insertGameSessionSchema _) as [sessionData|]; [|done].
    unfold createGameSession, KeysBelow. simpl.
    rewrite set_new by (by apply KeysBelow_fresh).
    apply Forall_app. split.
    + eapply Forall_impl; [exact Hall|]. simpl. lia.
    + repeat constructor. simpl. lia.
  - unfold patchSessionRoute, getGameSession, updateGameSession.
    destruct (OMap.get id (gameSessions s)) as [session|] eqn:Hg; [|done].
    case_decide; [done|]. rewrite ?Hg. unfold KeysBelow. simpl.
    apply Forall_forall. intros kv [->|Hin]%elem_of_set_existing.
    + apply get_elem_of in Hg. rewrite Forall_forall in Hall. apply (Hall _ Hg).
    + rewrite Forall_forall in Hall. auto.
Qed.

Lemma serveAll_KeysBelow requests s : KeysBelow s → KeysBelow (serveAll requests s).
Proof.
  revert s. induction requests as [|r requests IH]; intros s Hs; simpl; [done|].
  by apply IH, serve_KeysBelow.
Qed.

End SessionFacts.

Import SessionFacts.

(** X22: only the owner reads or changes a game session.  A patch of
    a session that is not stored is answered 404 and a patch of someone
    else's session 403, the store left as it was; a listing for another
    user's id is answered 403; and a listing that is answered holds
    sessions of the requesting user only, newest first, at most [limit]
    of them when the limit is not negative (10 for a limit that is
    missing, unparsable or 0). *)
Theorem sessions_are_owner_only s id user body requestedUserId limit :
  (Sessions.getGameSession id s = None →
   Sessions.patchSessionRoute id user body s
     = (Message 404 "Game session not found", s)) ∧
  (∀ session, Sessions.getGameSession id s = Some session →
     GameSession.userId session ≠ Some (User.id user) →
     Sessions.patchSessionRoute id user body s
       = (Message 403 "Unauthorized to update this game session", s)) ∧
  (User.id user ≠ requestedUserId →
   Sessions.sessionsRoute requestedUserId user limit s
     = (Message 403 "Unauthorized to access these game sessions", s)) ∧
  (∀ sessions,
     (Sessions.sessionsRoute requestedUserId user limit s).1 = Json 200 sessions →
     Forall (fun x => GameSession.userId x = Some (User.id user) ∧
                      x ∈ OMap.values (Sessions.gameSessions s)) sessions ∧
     StronglySorted
       (fun a b => GameSession.createdAt b ≤ GameSession.createdAt a) sessions ∧
     (0 ≤ Sessions.number_or limit 10 →
      (length sessions ≤ Z.to_nat (Sessions.number_or limit 10%Z))%nat)).
Proof.
  split; [|split; [|split]].
  - unfold Sessions.patchSessionRoute. by intros ->.
  - unfold Sessions.patchSessionRoute. intros session -> Hne.
    by rewrite decide_True.
  - unfold Sessions.sessionsRoute. intros Hne. by rewrite decide_True.
  - unfold Sessions.sessionsRoute. intros sessions.
    case_decide as Hid; [done|]. subst requestedUserId.
    intros [= <-]. unfold Sessions.getGameSessions. simpl. repeat split.
    + apply Forall_forall. intros x Hin.
      eapply elem_of_sublist in Hin; [|apply js_slice_sublist].
      rewrite js_sort_perm in Hin. by apply list_elem_of_filter in Hin.
    + eapply StronglySorted_sublist; [apply js_slice_sublist|].
      apply js_sort_desc_Z, bySessionNew_key.
    + intros Hl. etrans; [apply js_slice_length; lia|]. lia.
Qed.

Lemma sessions_are_owner_only_witness :
  let s := Sessions.serveAll
             [Sessions.ReqCreate alice (InsertGameSession.mk None (Some 5) None None) t0]
             Sessions.new in
  let bob := User.mk 8 "b@x.org" "bob" None None None None None None
               None None None None in
  (∃ session, Sessions.getGameSession 1 s = Some session ∧
              GameSession.userId session ≠ Some (User.id bob)) ∧
  Sessions.patchSessionRoute 1 bob
    (PartialGameSession.mk None None (Some (Some 999)) None None None None) s
    = (Message 403 "Unauthorized to update this game session", s).
Proof.
  intros s bob.
  assert (Sessions.getGameSession 1 s
          = Some (GameSession.mk 1 (Some 7) (Some 5) None None None t0)) as Hg
    by (by vm_compute).
  split; [eexists; split; [exact Hg|by vm_compute]|].
  destruct (sessions_are_owner_only s 1 bob
    (PartialGameSession.mk None None (Some (Some 999)) None None None None) 8 None)
    as (_ & H & _).
  apply (H _ Hg). by vm_compute.
Defined.

(** X23: a patch by the owner stores and returns the session merged
    with the body, under the same key, and leaves every other session.
    The body may carry any field: when it sets [userId] to another user,
    the next patch by the former owner is answered 403. *)
Theorem owner_patch_merges_and_may_hand_over s id user body session :
  Sessions.getGameSession id s = Some session →
  GameSession.userId session = Some (User.id user) →
  let r := Sessions.patchSessionRoute id user body s in
  r.1 = Json 200 (Sessions.mergeSession session body) ∧
  Sessions.getGameSession id r.2 = Some (Sessions.mergeSession session body) ∧
  (∀ other, other ≠ id →
     Sessions.getGameSession other r.2 = Sessions.getGameSession other s) ∧
  (Sessions.gameSessions r.2).*1 = (Sessions.gameSessions s).*1 ∧
  Sessions.gameSessionId r.2 = Sessions.gameSessionId s ∧
  (∀ newOwner body', PartialGameSession.userId body = Some newOwner →
     newOwner ≠ Some (User.id user) →
     Sessions.patchSessionRoute id user body' r.2
       = (Message 403 "Unauthorized to update this game session", r.2)).
Proof.
  intros Hg Howner r.
  assert (r = (Json 200 (Sessions.mergeSession session body),
               Sessions.mkStore
                 (OMap.set id (Sessions.mergeSession session body)
                    (Sessions.gameSessions s))
                 (Sessions.gameSessionId s))) as ->.
  { unfold r, Sessions.patchSessionRoute, Sessions.updateGameSession.
    rewrite Hg. unfold Sessions.getGameSession in Hg. rewrite Hg.
    rewrite decide_False; [done|]. intros Hne. by apply Hne. }
  unfold Sessions.getGameSession in *. simpl.
  split; [done|]. split; [apply get_set_eq|].
  split; [intros other Hne; by apply get_set_ne|].
  split; [apply keys_set_existing; by rewrite Hg|]. split; [done|].
  intros newOwner body' Hbody Hne.
  unfold Sessions.patchSessionRoute, Sessions.getGameSession. simpl.
  rewrite get_set_eq. rewrite decide_True; [done|]. simpl. by rewrite Hbody.
Qed.

Lemma owner_patch_merges_and_may_hand_over_witness :
  let s := Sessions.serveAll
             [Sessions.ReqCreate alice (InsertGameSession.mk None (Some 5) None None) t0]
             Sessions.new in
  let session := GameSession.mk 1 (Some 7) (Some 5) None None None t0 in
  let body := PartialGameSession.mk None None (Some (Some 6)) None None
                (Some (Some (t0 + 9))) None in
  Sessions.getGameSession 1 s = Some session ∧
  GameSession.userId session = Some (User.id alice) ∧
  Sessions.getGameSession 1 (Sessions.patchSessionRoute 1 alice body s).2
    = Some (GameSession.mk 1 (Some 7) (Some 6) None None (Some (t0 + 9)) t0).
Proof.
  intros s session body.
  assert (Sessions.getGameSession 1 s = Some session) as Hg by (by vm_compute).
  assert (GameSession.userId session = Some (User.id alice)) as Ho by done.
  split; [exact Hg|]. split; [exact Ho|].
  destruct (owner_patch_merges_and_may_hand_over s 1 alice body session Hg Ho)
    as (_ & H & _).
  exact H.
Defined.

(** X24: after any sequence of session requests on the sessions of a
    new store, a creation whose user id and whose [score] and
    [sanityLeft], where the body has them, are 32-bit integers stores
    the session under an id that was not in use, with the requesting
    user as its owner whatever owner the body names and with no end
    time, and keeps every session that was stored; a creation with one
    of these numbers beyond 32 bits is answered 400 and stores
    nothing. *)
Theorem session_creation_is_fresh requests user body now :
  let s := Sessions.serveAll requests Sessions.new in
  let r := Sessions.createSessionRoute user body now s in
  (int32 (User.id user) →
   nullableInt32 (InsertGameSession.score body) →
   nullableInt32 (InsertGameSession.sanityLeft body) →
   ∃ session,
     r.1 = Json 201 session ∧
     GameSession.id session = Sessions.gameSessionId s ∧
     GameSession.userId session = Some (User.id user) ∧
     GameSession.score session = InsertGameSession.score body ∧
     GameSession.sanityLeft session = InsertGameSession.sanityLeft body ∧
     GameSession.choices session = InsertGameSession.choices body ∧
     GameSession.endedAt session = None ∧
     GameSession.createdAt session = now ∧
     Sessions.getGameSession (GameSession.id session) s = None ∧
     Sessions.getGameSession (GameSession.id session) r.2 = Some session ∧
     ∀ id x, Sessions.getGameSession id s = Some x →
       Sessions.getGameSession id r.2 = Some x) ∧
  (¬ (int32 (User.id user) ∧
      nullableInt32 (InsertGameSession.score body) ∧
      nullableInt32 (InsertGameSession.sanityLeft body)) →
   r = (Message 400 "Invalid session data", s)).
Proof.
  intros s r. unfold r, Sessions.createSessionRoute, Sessions.insertGameSessionSchema.
  simpl. split.
  - intros Hid Hscore Hsanity. rewrite decide_True by done.
    assert (Sessions.KeysBelow s) as Hk.
    { apply serveAll_KeysBelow. constructor. }
    pose proof (KeysBelow_fresh s _ Hk (Z.le_refl _)) as Hnone.
    eexists. split; [reflexivity|]. unfold Sessions.getGameSession. simpl.
    do 8 (split; [done|]). split; [apply get_set_eq|].
    intros id x Hg. rewrite get_set_ne; [done|]. intros <-. congruence.
  - intros Hbad. by rewrite decide_False.
Qed.

(** After one session of user 7: a second creation by user 7 whose
    body names user 99 as the owner keeps the first session and stores
    session 2 for user 7; a creation with score 3000000000 is answered
    400. *)
Lemma session_creation_is_fresh_witness :
  let requests :=
    [Sessions.ReqCreate alice (InsertGameSession.mk None (Some 5) None None) t0] in
  let s := Sessions.serveAll requests Sessions.new in
  let first := GameSession.mk 1 (Some 7) (Some 5) None None None t0 in
  let forged := InsertGameSession.mk (Some 99) None None None in
  let large := InsertGameSession.mk None (Some 3000000000) None None in
  Sessions.getGameSession 1 s = Some first ∧
  int32 (User.id alice) ∧
  ¬ (int32 (User.id alice) ∧ nullableInt32 (InsertGameSession.score large) ∧
     nullableInt32 (InsertGameSession.sanityLeft large)) ∧
  Sessions.getGameSession 1 (Sessions.createSessionRoute alice forged (t0 + 1) s).2
    = Some first ∧
  (∃ session,
     (Sessions.createSessionRoute alice forged (t0 + 1) s).1 = Json 201 session ∧
     GameSession.id session = 2 ∧ GameSession.userId session = Some 7) ∧
  Sessions.createSessionRoute alice large (t0 + 1) s
    = (Message 400 "Invalid session data", s).
Proof.
  intros requests s first forged large.
  assert (Sessions.getGameSession 1 s = Some first) as Hg by (by vm_compute).
  assert (int32 (User.id alice)) as Hid by (by vm_compute).
  assert (¬ (int32 (User.id alice) ∧ nullableInt32 (InsertGameSession.score large) ∧
             nullableInt32 (InsertGameSession.sanityLeft large))) as Hbad.
  { intros (_ & [_ Hle] & _). by vm_compute in Hle. }
  split; [exact Hg|]. split; [exact Hid|]. split; [exact Hbad|].
  destruct (session_creation_is_fresh requests alice forged (t0 + 1)) as [Hok _].
  destruct (Hok Hid I I)
    as (session & Hr & Hsid & Howner & _ & _ & _ & _ & _ & _ & _ & Hkeep).
  split; [exact (Hkeep _ _ Hg)|].
  split; [exists session; split; [exact Hr|split; [exact Hsid|exact Howner]]|].
  destruct (session_creation_is_fresh requests alice large (t0 + 1)) as [_ H400].
  exact (H400 Hbad).
Defined.

(** ** Newsletter subscribers *)

Module NewsletterFacts.
Import Newsletter Shape.

Section WithLowerCase.
Variable toLowerCase : string → string.

Lemma add_NoDup email subs :
  NoDup subs → NoDup (addNewsletterSubscriber toLowerCase email subs).2.
Proof.
  intros Hnd. unfold addNewsletterSubscriber. case_decide; simpl; [done|].
  apply NoDup_app. split; [done|]. split; [|apply NoDup_singleton].
  by intros x Hx ->%list_elem_of_singleton.
Qed.

Lemma add_elem_of email subs x :
  x ∈ (addNewsletterSubscriber toLowerCase email subs).2
  ↔ x ∈ subs ∨ x = toLowerCase email.
Proof.
  unfold addNewsletterSubscriber. case_decide as Hin; simpl.
  - split; [by left|]. by intros [?| ->].
  - by rewrite elem_of_app, list_elem_of_singleton.
Qed.

Lemma subscribeAll_NoDup emails subs :
  NoDup subs → NoDup (subscribeAll toLowerCase emails subs).
Proof.
  revert subs. induction emails as [|e emails IH]; intros subs Hnd; simpl; [done|].
  by apply IH, add_NoDup.
Qed.

Lemma subscribeAll_elem_of emails subs x :
  x ∈ subscribeAll toLowerCase emails subs
  ↔ x ∈ subs ∨ x ∈ toLowerCase <$> emails.
Proof.
  revert subs. induction emails as [|e emails IH]; intros subs.
  - simpl. rewrite elem_of_nil. tauto.
  - change (subscribeAll toLowerCase (e :: emails) subs)
      with (subscribeAll toLowerCase emails
              (addNewsletterSubscriber toLowerCase e subs).2).
    rewrite IH, add_elem_of, fmap_cons, elem_of_cons. tauto.
Qed.

(** The subscribers after a sequence of sign-ups: those before, then
    the new ones at the place of their first sign-up. *)
Lemma subscribeAll_firstOccurrences emails subs :
  subscribeAll toLowerCase emails subs
  = subs ++ filter (fun x => x ∉ subs) (firstOccurrences (toLowerCase <$> emails)).
Proof.
  revert subs. induction emails as [|e emails IH]; intros subs.
  - simpl. by rewrite filter_nil, app_nil_r.
  - change (subscribeAll toLowerCase (e :: emails) subs)
      with (subscribeAll toLowerCase emails
              (addNewsletterSubscriber toLowerCase e subs).2).
    rewrite IH, fmap_cons. unfold addNewsletterSubscriber. simpl firstOccurrences.
    rewrite filter_cons. case_decide as Hin; simpl.
    + rewrite decide_False by (intros Hn; by apply Hn). f_equal.
      rewrite list_filter_filter. apply list_filter_iff.
      intros x. split; [|by intros [? _]]. intros Hx. split; [done|]. by intros ->.
    + rewrite decide_True by done. rewrite <-app_assoc. simpl. do 2 f_equal.
      rewrite list_filter_filter. apply list_filter_iff.
      intros x. rewrite not_elem_of_app, list_elem_of_singleton. tauto.
Qed.

End WithLowerCase.

Lemma filter_not_in_nil (l : list string) : filter (fun x => x ∉ @nil string) l = l.
Proof.
  induction l as [|x l IH]; [done|].
  rewrite filter_cons, decide_True by apply not_elem_of_nil. by rewrite IH.
Qed.

Lemma firstOccurrences_sublist l : firstOccurrences l `sublist_of` l.
Proof.
  induction l as [|x l IH]; simpl; [done|].
  apply sublist_skip. etrans; [apply sublist_filter|done].
Qed.

End NewsletterFacts.

Import NewsletterFacts.

(** X25: [addNewsletterSubscriber] answers true exactly when the
    lower-cased email was not subscribed; afterwards it is subscribed
    and every earlier subscriber still is; a second sign-up with the
    same email, or with one that lower-cases to the same string, answers
    false and changes nothing. *)
Theorem subscribe_is_idempotent toLowerCase email subs :
  let r := Newsletter.addNewsletterSubscriber toLowerCase email subs in
  (r.1 = true ↔ toLowerCase email ∉ subs) ∧
  toLowerCase email ∈ r.2 ∧
  (∀ x, x ∈ subs → x ∈ r.2) ∧
  (∀ email', toLowerCase email' = toLowerCase email →
     Newsletter.addNewsletterSubscriber toLowerCase email' r.2 = (false, r.2)).
Proof.
  intros r. unfold r.
  assert (toLowerCase email
          ∈ (Newsletter.addNewsletterSubscriber toLowerCase email subs).2) as Hin.
  { apply add_elem_of. by right. }
  repeat split.
  - unfold Newsletter.addNewsletterSubscriber. by case_decide.
  - unfold Newsletter.addNewsletterSubscriber. by case_decide.
  - exact Hin.
  - intros x Hx. apply add_elem_of. by left.
  - intros email' Heq. unfold Newsletter.addNewsletterSubscriber at 1.
    rewrite Heq. by rewrite decide_True.
Qed.

Lemma subscribe_is_idempotent_witness :
  let lower (x : string) := if decide (x = "A@X.org") then "a@x.org" else x in
  lower "A@X.org" = lower "a@x.org" ∧
  Newsletter.addNewsletterSubscriber lower "A@X.org"
    (Newsletter.addNewsletterSubscriber lower "a@x.org" []).2
    = (false, ["a@x.org"]).
Proof.
  intros lower. split; [done|].
  destruct (subscribe_is_idempotent lower "a@x.org" []) as (_ & _ & _ & H).
  exact (H "A@X.org" eq_refl).
Defined.

(** X26: after any sequence of sign-ups on the empty set, the list of
    subscribers is the list of the lower-cased emails that signed up,
    each once, at the place of its first sign-up; so it has no
    duplicate, holds exactly those strings, and a later sign-up never
    moves an earlier subscriber. *)
Theorem subscribers_are_distinct toLowerCase emails later :
  let subs :=
    Newsletter.getNewsletterSubscribers
      (Newsletter.subscribeAll toLowerCase emails []) in
  subs = firstOccurrences (toLowerCase <$> emails) ∧
  NoDup subs ∧ (∀ x, x ∈ subs ↔ x ∈ toLowerCase <$> emails) ∧
  subs `sublist_of` toLowerCase <$> emails ∧
  subs `prefix_of`
    Newsletter.getNewsletterSubscribers
      (Newsletter.subscribeAll toLowerCase (emails ++ later) []).
Proof.
  intros subs. unfold subs, Newsletter.getNewsletterSubscribers.
  split; [|split; [|split; [|split]]].
  - rewrite subscribeAll_firstOccurrences. simpl. apply filter_not_in_nil.
  - apply subscribeAll_NoDup. constructor.
  - intros x. rewrite subscribeAll_elem_of, elem_of_nil. tauto.
  - rewrite subscribeAll_firstOccurrences. simpl.
    etrans; [apply sublist_filter|apply firstOccurrences_sublist].
  - unfold Newsletter.subscribeAll. rewrite fold_left_app.
    fold (Newsletter.subscribeAll toLowerCase emails []).
    fold (Newsletter.subscribeAll toLowerCase later
            (Newsletter.subscribeAll toLowerCase emails [])).
    rewrite (subscribeAll_firstOccurrences toLowerCase later). by eexists.
Qed.

(** Three sign-ups, the third with the email of the first in capitals:
    the list is the first and the second, in that order. *)
Lemma three_signups_example :
  let lower (x : string) := if decide (x = "A@X.org") then "a@x.org" else x in
  Newsletter.getNewsletterSubscribers
    (Newsletter.subscribeAll lower ["a@x.org"; "b@x.org"; "A@X.org"] [])
  = ["a@x.org"; "b@x.org"].
Proof. by vm_compute. Qed.
